(** * KeystoneEndpoint controller: a shallow embedding and its properties

    The embedding follows [controllers/keystoneendpoint_controller.go].
    Go maps are [gmap string string]; Go slices are lists; pointers that
    the code compares with [nil] are options.  The controller mutates the
    instance it was handed and talks to two outside systems (the resource
    store of the platform and the identity service), so every function is
    written in a small state monad whose state holds the instance, the
    state of the identity service and the log of the calls that left the
    process.  A [return] in the middle of a Go function is the [Return]
    outcome of the monad; a nil dereference or a write to a nil map is
    [Panic]. *)

From stdpp Require Import base gmap strings list fin_maps.

Open Scope string_scope.
Open Scope list_scope.
Open Scope Z_scope.

(** ** Go values *)

(** A non-nil [error].  [errIsNotFound] is what [k8s_errors.IsNotFound]
    answers on it, [errText] what [err.Error()] prints. *)
Record error : Type := mkError { errIsNotFound : bool; errText : string }.

(** [ctrl.Result]; durations are in nanoseconds as in [time.Duration]. *)
Record Result : Type := mkResult { Requeue : bool; RequeueAfter : Z }.

Definition emptyResult : Result := {| Requeue := false; RequeueAfter := 0 |}.
Definition Second : Z := 1000000000.

Definition Result_eqb (a b : Result) : bool :=
  Bool.eqb (Requeue a) (Requeue b) && (RequeueAfter a =? RequeueAfter b)%Z.

(** [metav1.Time.IsZero]: a nil pointer or the zero instant. *)
Definition IsZero (t : option Z) : bool :=
  match t with
  | None => true
  | Some z => (z =? 0)%Z
  end.

(** ** The monad of a reconcile pass

    [S] is the state the pass works on.  A computation either goes on
    with a value, leaves the enclosing Go function with a [return], or
    panics. *)
Inductive flow (V A : Type) : Type :=
| Next (a : A)
| Return (v : V)
| Panic.
Arguments Next {V A} a.
Arguments Return {V A} v.
Arguments Panic {V A}.

Definition M (S V A : Type) : Type := S → flow V A * S.

Definition ret {S V A} (a : A) : M S V A := λ s, (Next a, s).

Definition bind {S V A B} (m : M S V A) (k : A → M S V B) : M S V B :=
  λ s, match m s with
       | (Next a, s') => k a s'
       | (Return v, s') => (Return v, s')
       | (Panic, s') => (Panic, s')
       end.

Definition return_ {S V A} (v : V) : M S V A := λ s, (Return v, s).
Definition panic {S V A} : M S V A := λ s, (Panic, s).

Notation "x <- m ;; k" := (bind m (λ x, k))
  (at level 100, m at next level, right associativity).
Notation "m ;;; k" := (bind m (λ _, k))
  (at level 100, right associativity).

(** A call of a Go function that returns an [error]: what the callee
    returns becomes a value of the caller; a panic goes on unwinding. *)
Definition call {S V W} (m : M S W unit) : M S V (option W) :=
  λ s, match m s with
       | (Next _, s') => (Next None, s')
       | (Return w, s') => (Next (Some w), s')
       | (Panic, s') => (Panic, s')
       end.

(** [for x := range l { body }]: the iterations run in the order of [l]
    and a [return] or a panic in one of them ends the loop. *)
Fixpoint forRange {S V X} (l : list X) (body : X → M S V unit) : M S V unit :=
  match l with
  | [] => ret tt
  | x :: l' => body x ;;; forRange l' body
  end.

(** ** The condition vocabulary of the API package

    The constants live in [api/v1beta1] and in lib-common's [condition]
    package; only their names matter here. *)
Inductive CondType : Type :=
| ReadyCondition
| KeystoneAPIReadyCondition
| AdminServiceClientReadyCondition
| KeystoneServiceOSEndpointsReadyCondition
| KeystoneServiceReadyCondition.

Inductive Reason : Type := InitReason | ErrorReason | RequestedReason.

Inductive Severity : Type := SeverityWarning | SeverityInfo.

Inductive MessageFormat : Type :=
| ReadyMessage
| ReadyInitMessage
| KeystoneAPIReadyInitMessage
| KeystoneAPIReadyNotFoundMessage
| KeystoneAPIReadyErrorMessage
| KeystoneAPIReadyWaitingMessage
| KeystoneAPIReadyMessage
| AdminServiceClientReadyInitMessage
| AdminServiceClientReadyErrorMessage
| AdminServiceClientReadyWaitingMessage
| AdminServiceClientReadyMessage
| KeystoneServiceOSEndpointsReadyInitMessage
| KeystoneServiceOSEndpointsReadyErrorMessage
| KeystoneServiceOSEndpointsReadyMessage
| EmptyMessage.

(** The variadic arguments handed to a message format. *)
Inductive Arg : Type :=
| ArgString (s : string)
| ArgEndpoints (m : gmap string string).

(** ** The libraries the controller is linked against

    None of lib-common is part of this repository, so the controller is
    embedded over an interface: the [condition] package (a collection of
    conditions with its constructors and its roll-up operations), the
    [openstack] package (the availability lookup and the admin client,
    whose methods act on the state of the identity service) and
    [util.WrapErrorForObject].  Everything below holds for every
    implementation of this interface. *)
Class LibCommon : Type := {
  (* condition *)
  Condition : Type;
  Conditions : Type;
  conditionsIsNil : Conditions → bool;
  emptyConditions : Conditions;
  UnknownCondition : CondType → Reason → MessageFormat → Condition;
  FalseCondition :
    CondType → Reason → Severity → MessageFormat → list Arg → Condition;
  CreateList : list Condition → Conditions;
  Init : Conditions → Conditions → Conditions;
  Set_ : Conditions → option Condition → Conditions;
  MarkTrue : Conditions → CondType → MessageFormat → list Arg → Conditions;
  MarkUnknown : Conditions → CondType → Reason → MessageFormat → Conditions;
  Mirror : Conditions → CondType → option Condition;
  AllSubConditionIsTrue : Conditions → bool;
  (* openstack *)
  Availability : Type;
  GetAvailability : string → error + Availability;
  RemoteState : Type;
  (* util *)
  WrapErrorForObject : ∀ {T : Type}, string → T → option error → error
}.

Section Controller.
Context `{LibCommon}.

(** ** Data model *)

(** [openstack.Endpoint]: what the client is asked to create, update or
    delete. *)
Record OSEndpoint : Type := mkOSEndpoint {
  osName : string;
  osServiceID : string;
  osAvailability : Availability;
  osURL : string
}.

(** An endpoint as the identity service lists it, with the fields the
    controller reads. *)
Record RemoteEndpoint : Type := mkRemoteEndpoint {
  reID : string;
  reName : string;
  reServiceID : string;
  reURL : string
}.

(** The admin client [*openstack.OpenStack].  [GetEndpoints] only reads
    the registry; the other three may change it, also when they fail. *)
Record OpenStack : Type := mkOpenStack {
  osGetEndpoints :
    RemoteState → string → string → error + list RemoteEndpoint;
  osCreateEndpoint :
    RemoteState → OSEndpoint → (error + string) * RemoteState;
  osUpdateEndpoint :
    RemoteState → OSEndpoint → string → (error + string) * RemoteState;
  osDeleteEndpoint :
    RemoteState → OSEndpoint → option error * RemoteState
}.

(** [keystonev1.Endpoint], an entry of [Status.Endpoints]. *)
Record Endpoint : Type := mkEndpoint {
  Interface : string;
  URL : string;
  ID : string
}.

Record KeystoneEndpointSpec : Type := mkSpec {
  ServiceName : string;
  SpecEndpoints : gmap string string
}.

(** [EndpointIDs] is [None] for a nil map. *)
Record KeystoneEndpointStatus : Type := mkStatus {
  StatusConditions : Conditions;
  ServiceID : string;
  EndpointIDs : option (gmap string string);
  Endpoints : list Endpoint;
  ObservedGeneration : Z
}.

Record KeystoneEndpoint : Type := mkKeystoneEndpoint {
  Name : string;
  Namespace : string;
  Generation : Z;
  DeletionTimestamp : option Z;
  Finalizers : list string;
  Spec : KeystoneEndpointSpec;
  Status : KeystoneEndpointStatus
}.

Record KeystoneAPI : Type := mkKeystoneAPI {
  apiDeletionTimestamp : option Z;
  apiFinalizers : list string;
  apiIsReady : bool
}.

Record KeystoneService : Type := mkKeystoneService {
  svcFinalizers : list string;
  svcConditions : Conditions;
  svcServiceID : string;
  svcIsReady : bool
}.

(** Field updates of the instance, as the code assigns them. *)
Definition withStatus (i : KeystoneEndpoint) (s : KeystoneEndpointStatus)
  : KeystoneEndpoint :=
  {| Name := Name i; Namespace := Namespace i; Generation := Generation i;
     DeletionTimestamp := DeletionTimestamp i; Finalizers := Finalizers i;
     Spec := Spec i; Status := s |}.

Definition withFinalizers (i : KeystoneEndpoint) (f : list string)
  : KeystoneEndpoint :=
  {| Name := Name i; Namespace := Namespace i; Generation := Generation i;
     DeletionTimestamp := DeletionTimestamp i; Finalizers := f;
     Spec := Spec i; Status := Status i |}.

Definition withConditions (i : KeystoneEndpoint) (c : Conditions)
  : KeystoneEndpoint :=
  withStatus i
    {| StatusConditions := c; ServiceID := ServiceID (Status i);
       EndpointIDs := EndpointIDs (Status i);
       Endpoints := Endpoints (Status i);
       ObservedGeneration := ObservedGeneration (Status i) |}.

Definition withServiceID (i : KeystoneEndpoint) (sid : string)
  : KeystoneEndpoint :=
  withStatus i
    {| StatusConditions := StatusConditions (Status i); ServiceID := sid;
       EndpointIDs := EndpointIDs (Status i);
       Endpoints := Endpoints (Status i);
       ObservedGeneration := ObservedGeneration (Status i) |}.

Definition withEndpointIDs (i : KeystoneEndpoint)
    (m : option (gmap string string)) : KeystoneEndpoint :=
  withStatus i
    {| StatusConditions := StatusConditions (Status i);
       ServiceID := ServiceID (Status i);
       EndpointIDs := m;
       Endpoints := Endpoints (Status i);
       ObservedGeneration := ObservedGeneration (Status i) |}.

Definition withEndpoints (i : KeystoneEndpoint) (l : list Endpoint)
  : KeystoneEndpoint :=
  withStatus i
    {| StatusConditions := StatusConditions (Status i);
       ServiceID := ServiceID (Status i);
       EndpointIDs := EndpointIDs (Status i);
       Endpoints := l;
       ObservedGeneration := ObservedGeneration (Status i) |}.

Definition withObservedGeneration (i : KeystoneEndpoint) (g : Z)
  : KeystoneEndpoint :=
  withStatus i
    {| StatusConditions := StatusConditions (Status i);
       ServiceID := ServiceID (Status i);
       EndpointIDs := EndpointIDs (Status i);
       Endpoints := Endpoints (Status i);
       ObservedGeneration := g |}.

(** The keys and entries of a possibly nil map. *)
Definition idsMap (m : option (gmap string string)) : gmap string string :=
  default ∅ m.

(** ** Calls that leave the process

    Every call is logged with its answer.  The first argument of the
    three mutating identity-service calls is the endpoint type whose loop
    iteration issued the call. *)
Inductive Event : Type :=
| EvGetEndpoints (serviceID ty : string) (res : error + list RemoteEndpoint)
| EvCreateEndpoint (ty : string) (e : OSEndpoint) (res : error + string)
| EvUpdateEndpoint (ty : string) (e : OSEndpoint) (id : string)
    (res : error + string)
| EvDeleteEndpoint (ty : string) (e : OSEndpoint) (res : option error)
| EvGetAdminServiceClient
| EvUpdateKeystoneService (svc : KeystoneService) (res : option error)
| EvUpdateKeystoneAPI (api : KeystoneAPI) (res : option error)
| EvPatchInstance (i : KeystoneEndpoint) (res : option error).

(** The endpoint type an identity-service call was made for. *)
Definition evType (e : Event) : option string :=
  match e with
  | EvGetEndpoints _ ty _ => Some ty
  | EvCreateEndpoint ty _ _ => Some ty
  | EvUpdateEndpoint ty _ _ _ => Some ty
  | EvDeleteEndpoint ty _ _ => Some ty
  | _ => None
  end.

(** Calls to the identity service, and those among them that write. *)
Definition isIdentityServiceCall (e : Event) : bool :=
  match e with
  | EvGetEndpoints _ _ _ | EvCreateEndpoint _ _ _
  | EvUpdateEndpoint _ _ _ _ | EvDeleteEndpoint _ _ _
  | EvGetAdminServiceClient => true
  | _ => false
  end.

Definition isMutation (e : Event) : bool :=
  match e with
  | EvCreateEndpoint _ _ _ | EvUpdateEndpoint _ _ _ _
  | EvDeleteEndpoint _ _ _ => true
  | _ => false
  end.

Definition isDelete (e : Event) : bool :=
  match e with
  | EvDeleteEndpoint _ _ _ => true
  | _ => false
  end.

(** The state a reconcile pass works on. *)
Record St : Type := mkSt {
  instance : KeystoneEndpoint;
  remote : RemoteState;
  trace : list Event
}.

Definition getInstance {V} : M St V KeystoneEndpoint :=
  λ s, (Next (instance s), s).

Definition setInstance {V} (i : KeystoneEndpoint) : M St V unit :=
  λ s, (Next tt, {| instance := i; remote := remote s; trace := trace s |}).

Definition emit {V} (e : Event) : M St V unit :=
  λ s, (Next tt, {| instance := instance s; remote := remote s;
                    trace := trace s ++ [e] |}).

(** [availability, err := openstack.GetAvailability(t); if err != nil
    { return ... }] with the value to return built from the error. *)
Definition resolveOrReturn {V} (onErr : error → V) (ty : string)
  : M St V Availability :=
  match GetAvailability ty with
  | inl err => return_ (onErr err)
  | inr a => ret a
  end.

(** *** Method calls on the admin client

    A call on a nil client panics; otherwise it acts on the identity
    service and is logged. *)
Definition GetEndpoints {V} (os : option OpenStack) (serviceID ty : string)
  : M St V (error + list RemoteEndpoint) :=
  match os with
  | None => panic
  | Some c =>
      λ s, let res := osGetEndpoints c (remote s) serviceID ty in
           (Next res,
            {| instance := instance s; remote := remote s;
               trace := trace s ++ [EvGetEndpoints serviceID ty res] |})
  end.

Definition CreateEndpoint {V} (os : option OpenStack) (ty : string)
    (e : OSEndpoint) : M St V (error + string) :=
  match os with
  | None => panic
  | Some c =>
      λ s, let '(res, r) := osCreateEndpoint c (remote s) e in
           (Next res,
            {| instance := instance s; remote := r;
               trace := trace s ++ [EvCreateEndpoint ty e res] |})
  end.

Definition UpdateEndpoint {V} (os : option OpenStack) (ty : string)
    (e : OSEndpoint) (id : string) : M St V (error + string) :=
  match os with
  | None => panic
  | Some c =>
      λ s, let '(res, r) := osUpdateEndpoint c (remote s) e id in
           (Next res,
            {| instance := instance s; remote := r;
               trace := trace s ++ [EvUpdateEndpoint ty e id res] |})
  end.

Definition DeleteEndpoint {V} (os : option OpenStack) (ty : string)
    (e : OSEndpoint) : M St V (option error) :=
  match os with
  | None => panic
  | Some c =>
      λ s, let '(res, r) := osDeleteEndpoint c (remote s) e in
           (Next res,
            {| instance := instance s; remote := r;
               trace := trace s ++ [EvDeleteEndpoint ty e res] |})
  end.

(** ** [getEndpointIdx] *)

(** [slices.IndexFunc]: the first index whose element satisfies [f], or
    [-1]. *)
Fixpoint IndexFunc {A} (s : list A) (f : A → bool) : Z :=
  match s with
  | [] => -1
  | x :: s' =>
      if f x then 0
      else let i := IndexFunc s' f in
           if (i <? 0)%Z then -1 else (i + 1)%Z
  end.

Definition getEndpointIdx (endpointType : string) (endpoints : list Endpoint)
  : Z :=
  let f := λ e : Endpoint, bool_decide (Interface e = endpointType) in
  let idx := IndexFunc endpoints f in
  idx.

(** [append(s[:idx], s[idx+1:]...)] *)
Definition removeAt {A} (s : list A) (idx : Z) : list A :=
  take (Z.to_nat idx) s ++ drop (Z.to_nat (idx + 1)) s.

(** [s[idx].ID = id; s[idx].URL = url] *)
Definition setIDAndURL (s : list Endpoint) (idx : Z) (id url : string)
  : list Endpoint :=
  alter (λ e, {| Interface := Interface e; URL := url; ID := id |})
        (Z.to_nat idx) s.

(** ** [reconcileEndpoints] *)

(** The body of the first loop, for one key of [Status.EndpointIDs]. *)
Definition retireStep (os : option OpenStack) (endpointType : string)
  : M St error unit :=
  i <- getInstance ;;
  match SpecEndpoints (Spec i) !! endpointType with
  | Some _ => ret tt
  | None =>
      availability <- resolveOrReturn id endpointType ;;
      err <- DeleteEndpoint os endpointType
               {| osName := ServiceName (Spec i);
                  osServiceID := ServiceID (Status i);
                  osAvailability := availability;
                  osURL := "" |} ;;
      match err with
      | Some err => return_ err
      | None =>
          i <- getInstance ;;
          let i := withEndpointIDs i
                     (delete endpointType <$> EndpointIDs (Status i)) in
          let idx := getEndpointIdx endpointType (Endpoints (Status i)) in
          if (idx >=? 0)%Z
          then setInstance (withEndpoints i (removeAt (Endpoints (Status i)) idx))
          else setInstance i
      end
  end.

(** [instance.Status.EndpointIDs[endpointType] = endpointID]: a write to
    a nil map panics. *)
Definition storeEndpointID (endpointType endpointID : string)
  : M St error unit :=
  i <- getInstance ;;
  match EndpointIDs (Status i) with
  | None => panic
  | Some m => setInstance (withEndpointIDs i (Some (<[endpointType := endpointID]> m)))
  end.

(** The tail of the second loop's body: the status upsert. *)
Definition recordEndpoint (endpointType endpointURL endpointID : string)
  : M St error unit :=
  if bool_decide (endpointID ≠ "") then
    i <- getInstance ;;
    (match SpecEndpoints (Spec i) !! endpointType with
     | Some _ => storeEndpointID endpointType endpointID
     | None => ret tt
     end) ;;;
    i <- getInstance ;;
    let idx := getEndpointIdx endpointType (Endpoints (Status i)) in
    if (idx >=? 0)%Z
    then setInstance
           (withEndpoints i
              (setIDAndURL (Endpoints (Status i)) idx endpointID endpointURL))
    else setInstance
           (withEndpoints i
              (Endpoints (Status i) ++
               [{| Interface := endpointType; URL := endpointURL;
                   ID := endpointID |}]))
  else ret tt.

(** The body of the second loop, for one entry of [Spec.Endpoints]. *)
Definition convergeStep (os : option OpenStack) (kv : string * string)
  : M St error unit :=
  let '(endpointType, endpointURL) := kv in
  i <- getInstance ;;
  availability <- resolveOrReturn id endpointType ;;
  res <- GetEndpoints os (ServiceID (Status i)) endpointType ;;
  match res with
  | inl err => return_ err
  | inr allEndpoints =>
      endpointID <-
        match allEndpoints with
        | [] =>
            res <- CreateEndpoint os endpointType
                     {| osName := ServiceName (Spec i);
                        osServiceID := ServiceID (Status i);
                        osAvailability := availability;
                        osURL := endpointURL |} ;;
            match res with
            | inl err => return_ err
            | inr endpointID => ret endpointID
            end
        | [endpoint] =>
            if bool_decide (endpointURL ≠ reURL endpoint) then
              res <- UpdateEndpoint os endpointType
                       {| osName := reName endpoint;
                          osServiceID := reServiceID endpoint;
                          osAvailability := availability;
                          osURL := endpointURL |}
                       (reID endpoint) ;;
              match res with
              | inl err => return_ err
              | inr endpointID => ret endpointID
              end
            else ret (reID endpoint)
        | _ =>
            return_
              (WrapErrorForObject
                 ("multiple endpoints registered for service:"
                    +:+ ServiceName (Spec i) +:+ " type: " +:+ endpointType)
                 i None)
        end ;;
      recordEndpoint endpointType endpointURL endpointID
  end.

(** [retireOrder] is the order in which the runtime hands out the keys of
    [Status.EndpointIDs] to the first [range], [convergeOrder] the order
    in which it hands out the entries of [Spec.Endpoints] to the second.
    The first loop deletes only the key it is visiting, so it still sees
    every key the map had when the loop began. *)
Definition reconcileEndpoints (os : option OpenStack)
    (retireOrder : list string) (convergeOrder : list (string * string))
  : M St error unit :=
  i <- getInstance ;;
  (match EndpointIDs (Status i) with
   | Some _ => forRange retireOrder (retireStep os)
   | None => ret tt
   end) ;;;
  forRange convergeOrder (convergeStep os).

(** ** Finalizers *)

(** Modelled from the spec: [controllerutil.AddFinalizer] and
    [controllerutil.RemoveFinalizer], which come from controller-runtime
    and not from this repository.  Both are idempotent set operations
    (no duplicate markers; removing an absent marker is a no-op) and
    both report whether the list changed. *)
Definition AddFinalizer (f : list string) (finalizer : string)
  : list string * bool :=
  if bool_decide (finalizer ∈ f) then (f, false) else (f ++ [finalizer], true).

Definition RemoveFinalizer (f : list string) (finalizer : string)
  : list string * bool :=
  let f' := filter (λ e, e ≠ finalizer) f in
  (f', negb (List.length f =? List.length f')%nat).

Definition apiWithFinalizers (a : KeystoneAPI) (f : list string) : KeystoneAPI :=
  {| apiDeletionTimestamp := apiDeletionTimestamp a; apiFinalizers := f;
     apiIsReady := apiIsReady a |}.

Definition svcWithFinalizers (k : KeystoneService) (f : list string)
  : KeystoneService :=
  {| svcFinalizers := f; svcConditions := svcConditions k;
     svcServiceID := svcServiceID k; svcIsReady := svcIsReady k |}.

(** ** The resource store and the helpers of the API package

    What the platform answers during one pass: the lookups of the
    instance and of its two dependencies, the construction of the helper
    and of the admin client, and the writes. *)
Record Helper : Type := mkHelper { GetFinalizer : string }.

Record Cluster : Type := mkCluster {
  Get : error + KeystoneEndpoint;
  NewHelper : KeystoneEndpoint → error + Helper;
  GetKeystoneAPI : string → error + KeystoneAPI;
  GetAdminServiceClient :
    KeystoneAPI → option OpenStack * Result * option error;
  GetKeystoneServiceWithName : string → string → error + KeystoneService;
  UpdateKeystoneService : KeystoneService → option error;
  UpdateKeystoneAPI : KeystoneAPI → option error;
  PatchInstance : KeystoneEndpoint → option error
}.

(** The orders the runtime picks for the three [range] loops of a pass. *)
Record Schedule : Type := mkSchedule {
  retireOrder : list string;
  convergeOrder : list (string * string);
  deleteOrder : list string
}.

(** What a controller function returns. *)
Definition RV : Type := Result * option error.

(** [fmt.Sprintf("%s-%s", helper.GetFinalizer(), instance.Name)] *)
Definition endpointFinalizer (helper : Helper) (i : KeystoneEndpoint) : string :=
  GetFinalizer helper +:+ "-" +:+ Name i.

(** [instance.Status.Conditions.Set(c)] and its siblings. *)
Definition setCondition {V} (c : option Condition) : M St V unit :=
  i <- getInstance ;;
  setInstance (withConditions i (Set_ (StatusConditions (Status i)) c)).

Definition markTrue {V} (t : CondType) (m : MessageFormat) (args : list Arg)
  : M St V unit :=
  i <- getInstance ;;
  setInstance (withConditions i (MarkTrue (StatusConditions (Status i)) t m args)).

(** [if controllerutil.RemoveFinalizer(ksSvc, ...) { err := r.Update(ctx,
    ksSvc); if err != nil { return ctrl.Result{}, err } }] *)
Definition removeFinalizerFromService (cl : Cluster) (ksSvc : KeystoneService)
    (finalizer : string) : M St RV unit :=
  let '(f, changed) := RemoveFinalizer (svcFinalizers ksSvc) finalizer in
  if changed then
    let ksSvc := svcWithFinalizers ksSvc f in
    let err := UpdateKeystoneService cl ksSvc in
    emit (EvUpdateKeystoneService ksSvc err) ;;;
    match err with
    | Some err => return_ (emptyResult, Some err)
    | None => ret tt
    end
  else ret tt.

Definition removeFinalizerFromAPI (cl : Cluster) (keystoneAPI : KeystoneAPI)
    (finalizer : string) : M St RV unit :=
  let '(f, changed) := RemoveFinalizer (apiFinalizers keystoneAPI) finalizer in
  if changed then
    let keystoneAPI := apiWithFinalizers keystoneAPI f in
    let err := UpdateKeystoneAPI cl keystoneAPI in
    emit (EvUpdateKeystoneAPI keystoneAPI err) ;;;
    match err with
    | Some err => return_ (emptyResult, Some err)
    | None => ret tt
    end
  else ret tt.

(** The lookup of the service registration on the two delete paths:
    found, its marker is removed; not found, nothing to do; any other
    error ends the pass. *)
Definition releaseService (cl : Cluster) (helper : Helper) : M St RV unit :=
  i <- getInstance ;;
  match GetKeystoneServiceWithName cl (ServiceName (Spec i)) (Namespace i) with
  | inr ksSvc => removeFinalizerFromService cl ksSvc (endpointFinalizer helper i)
  | inl err =>
      if negb (errIsNotFound err) then return_ (emptyResult, Some err)
      else ret tt
  end.

(** [controllerutil.RemoveFinalizer(instance, helper.GetFinalizer())] *)
Definition removeOwnFinalizer (helper : Helper) : M St RV unit :=
  i <- getInstance ;;
  setInstance
    (withFinalizers i (RemoveFinalizer (Finalizers i) (GetFinalizer helper)).1).

(** ** [reconcileDelete] *)

(** The body of its loop, for one key of [Spec.Endpoints]. *)
Definition deleteStep (os : option OpenStack) (endpointType : string)
  : M St RV unit :=
  i <- getInstance ;;
  availability <- resolveOrReturn (λ err, (emptyResult, Some err)) endpointType ;;
  err <- DeleteEndpoint os endpointType
           {| osName := ServiceName (Spec i);
              osServiceID := ServiceID (Status i);
              osAvailability := availability;
              osURL := "" |} ;;
  match err with
  | Some err => return_ (emptyResult, Some err)
  | None => ret tt
  end.

Definition reconcileDelete (cl : Cluster) (sched : Schedule) (helper : Helper)
    (os : option OpenStack) (keystoneAPI : option KeystoneAPI)
  : M St RV Empty_set :=
  (match os with
   | Some _ => forRange (deleteOrder sched) (deleteStep os)
   | None => ret tt
   end) ;;;
  i <- getInstance ;;
  setInstance (withEndpointIDs i (Some ∅)) ;;;
  releaseService cl helper ;;;
  i <- getInstance ;;
  (match keystoneAPI with
   | Some keystoneAPI =>
       removeFinalizerFromAPI cl keystoneAPI (endpointFinalizer helper i)
   | None => ret tt
   end) ;;;
  removeOwnFinalizer helper ;;;
  return_ (emptyResult, None).

(** ** [reconcileDeleteFinalizersOnly] *)
Definition reconcileDeleteFinalizersOnly (cl : Cluster) (helper : Helper)
    (keystoneAPI : KeystoneAPI) : M St RV Empty_set :=
  releaseService cl helper ;;;
  i <- getInstance ;;
  removeFinalizerFromAPI cl keystoneAPI (endpointFinalizer helper i) ;;;
  removeOwnFinalizer helper ;;;
  return_ (emptyResult, None).

(** ** [reconcileNormal] *)
Definition reconcileNormal (cl : Cluster) (sched : Schedule) (helper : Helper)
    (os : option OpenStack) (keystoneAPI : KeystoneAPI)
  : M St RV Empty_set :=
  i <- getInstance ;;
  match GetKeystoneServiceWithName cl (ServiceName (Spec i)) (Namespace i) with
  | inl err =>
      if errIsNotFound err
      then return_ ({| Requeue := false; RequeueAfter := Second * 5 |}, None)
      else return_ (emptyResult, Some err)
  | inr ksSvc =>
      (match Mirror (svcConditions ksSvc) KeystoneServiceReadyCondition with
       | Some c => setCondition (Some c)
       | None => ret tt
       end) ;;;
      if negb (svcIsReady ksSvc)
      then return_ ({| Requeue := false; RequeueAfter := 10 * Second |}, None)
      else
        i <- getInstance ;;
        setInstance (withServiceID i (svcServiceID ksSvc)) ;;;
        (let '(f, changed) :=
           AddFinalizer (apiFinalizers keystoneAPI) (endpointFinalizer helper i) in
         if changed then
           let keystoneAPI := apiWithFinalizers keystoneAPI f in
           let err := UpdateKeystoneAPI cl keystoneAPI in
           emit (EvUpdateKeystoneAPI keystoneAPI err) ;;;
           match err with
           | Some err => return_ (emptyResult, Some err)
           | None => ret tt
           end
         else ret tt) ;;;
        (let '(f, changed) :=
           AddFinalizer (svcFinalizers ksSvc) (endpointFinalizer helper i) in
         if changed then
           let ksSvc := svcWithFinalizers ksSvc f in
           let err := UpdateKeystoneService cl ksSvc in
           emit (EvUpdateKeystoneService ksSvc err) ;;;
           match err with
           | Some err => return_ (emptyResult, Some err)
           | None => ret tt
           end
         else ret tt) ;;;
        err <- call (reconcileEndpoints os (retireOrder sched)
                       (convergeOrder sched)) ;;
        match err with
        | Some err =>
            setCondition
              (Some (FalseCondition KeystoneServiceOSEndpointsReadyCondition
                       ErrorReason SeverityWarning
                       KeystoneServiceOSEndpointsReadyErrorMessage
                       [ArgString (errText err)])) ;;;
            return_ (emptyResult, Some err)
        | None =>
            i <- getInstance ;;
            markTrue KeystoneServiceOSEndpointsReadyCondition
              KeystoneServiceOSEndpointsReadyMessage
              [ArgEndpoints (SpecEndpoints (Spec i))] ;;;
            return_ (emptyResult, None)
        end
  end.

(** ** [Reconcile] *)

(** The function body below the [defer] statement. *)
Definition reconcileBody (cl : Cluster) (sched : Schedule) (helper : Helper)
  : M St RV Empty_set :=
  i <- getInstance ;;
  if conditionsIsNil (StatusConditions (Status i)) then
    let cl :=
      CreateList
        [UnknownCondition KeystoneAPIReadyCondition InitReason
           KeystoneAPIReadyInitMessage;
         UnknownCondition AdminServiceClientReadyCondition InitReason
           AdminServiceClientReadyInitMessage;
         UnknownCondition KeystoneServiceOSEndpointsReadyCondition InitReason
           KeystoneServiceOSEndpointsReadyInitMessage;
         UnknownCondition KeystoneServiceReadyCondition InitReason
           EmptyMessage] in
    setInstance (withConditions i (Init emptyConditions cl)) ;;;
    return_ (emptyResult, None)
  else
    setInstance
      (withObservedGeneration
         (withEndpointIDs i (Some (idsMap (EndpointIDs (Status i)))))
         (Generation i)) ;;;
    i <- getInstance ;;
    (if IsZero (DeletionTimestamp i) then
       let '(f, added) := AddFinalizer (Finalizers i) (GetFinalizer helper) in
       setInstance (withFinalizers i f) ;;;
       if added then return_ (emptyResult, None) else ret tt
     else ret tt) ;;;
    i <- getInstance ;;
    match GetKeystoneAPI cl (Namespace i) with
    | inl err =>
        if errIsNotFound err then
          if negb (IsZero (DeletionTimestamp i))
             && (size (idsMap (EndpointIDs (Status i))) =? 0)%nat
          then reconcileDelete cl sched helper None None
          else
            setCondition
              (Some (FalseCondition KeystoneAPIReadyCondition ErrorReason
                       SeverityWarning KeystoneAPIReadyNotFoundMessage [])) ;;;
            return_ ({| Requeue := false; RequeueAfter := Second * 5 |}, None)
        else
          setCondition
            (Some (FalseCondition KeystoneAPIReadyCondition ErrorReason
                     SeverityWarning KeystoneAPIReadyErrorMessage
                     [ArgString (errText err)])) ;;;
          return_ (emptyResult, Some err)
    | inr keystoneAPI =>
        if negb (IsZero (DeletionTimestamp i))
           && negb (IsZero (apiDeletionTimestamp keystoneAPI))
        then reconcileDeleteFinalizersOnly cl helper keystoneAPI
        else if negb (IsZero (DeletionTimestamp i))
                && (size (idsMap (EndpointIDs (Status i))) =? 0)%nat
        then reconcileDelete cl sched helper None (Some keystoneAPI)
        else if negb (apiIsReady keystoneAPI) then
          setCondition
            (Some (FalseCondition KeystoneAPIReadyCondition RequestedReason
                     SeverityInfo KeystoneAPIReadyWaitingMessage [])) ;;;
          return_ ({| Requeue := false; RequeueAfter := Second * 5 |}, None)
        else
          markTrue KeystoneAPIReadyCondition KeystoneAPIReadyMessage [] ;;;
          emit EvGetAdminServiceClient ;;;
          let '(os, ctrlResult, err) := GetAdminServiceClient cl keystoneAPI in
          match err with
          | Some err =>
              setCondition
                (Some (FalseCondition AdminServiceClientReadyCondition
                         ErrorReason SeverityWarning
                         AdminServiceClientReadyErrorMessage
                         [ArgString (errText err)])) ;;;
              return_ (emptyResult, Some err)
          | None =>
              if negb (Result_eqb ctrlResult emptyResult) then
                setCondition
                  (Some (FalseCondition AdminServiceClientReadyCondition
                           RequestedReason SeverityInfo
                           AdminServiceClientReadyWaitingMessage [])) ;;;
                return_ (ctrlResult, None)
              else
                markTrue AdminServiceClientReadyCondition
                  AdminServiceClientReadyMessage [] ;;;
                if negb (IsZero (DeletionTimestamp i))
                then reconcileDelete cl sched helper os (Some keystoneAPI)
                else reconcileNormal cl sched helper os keystoneAPI
          end
    end.

(** The roll-up of the deferred function: [Ready] from the other
    conditions. *)
Definition aggregateReady (c : Conditions) : Conditions :=
  if AllSubConditionIsTrue c then MarkTrue c ReadyCondition ReadyMessage []
  else
    let c := MarkUnknown c ReadyCondition InitReason ReadyInitMessage in
    Set_ c (Mirror c ReadyCondition).

(** How a pass ends. *)
Inductive Exit : Type :=
| Returned (result : Result) (err : option error)
| Panicked.

(** The deferred function, run on the way out of the body: after a panic
    it panics again and nothing is saved; otherwise it rolls up [Ready],
    patches the instance and replaces the returned error by the error of
    the patch, if there is one. *)
Definition deferred (cl : Cluster) (out : flow RV Empty_set * St) : Exit * St :=
  match out with
  | (Return (result, err), s) =>
      let i := withConditions (instance s)
                 (aggregateReady (StatusConditions (Status (instance s)))) in
      let perr := PatchInstance cl i in
      (Returned result (match perr with Some e => Some e | None => err end),
       {| instance := i; remote := remote s;
          trace := trace s ++ [EvPatchInstance i perr] |})
  | (Panic, s) => (Panicked, s)
  | (Next e, s) => match e with end
  end.

(** A finished pass: how it ended, the instance as the pass left it in
    memory ([None] when it was never loaded), the identity service and
    the calls made. *)
Record Pass : Type := mkPass {
  passExit : Exit;
  passInstance : option KeystoneEndpoint;
  passRemote : RemoteState;
  passTrace : list Event
}.

Definition Reconcile (cl : Cluster) (sched : Schedule) (r : RemoteState) : Pass :=
  match Get cl with
  | inl err =>
      {| passExit :=
           if errIsNotFound err then Returned emptyResult None
           else Returned emptyResult (Some err);
         passInstance := None; passRemote := r; passTrace := [] |}
  | inr i =>
      match NewHelper cl i with
      | inl err =>
          {| passExit := Returned emptyResult (Some err);
             passInstance := Some i; passRemote := r; passTrace := [] |}
      | inr helper =>
          let '(e, s) :=
            deferred cl
              (reconcileBody cl sched helper
                 {| instance := i; remote := r; trace := [] |}) in
          {| passExit := e; passInstance := Some (instance s);
             passRemote := remote s; passTrace := trace s |}
      end
  end.

(** What the Go runtime may choose as the order of a [range] over a
    map: any enumeration of it, each key once. *)
Definition rangeOf (m : gmap string string) (order : list (string * string))
  : Prop :=
  order ≡ₚ map_to_list m.

Definition keyRangeOf (m : gmap string string) (order : list string) : Prop :=
  order ≡ₚ (map_to_list m).*1.

End Controller.

(** * What the properties are stated with *)

Section Observations.
Context `{LibCommon}.

(** The recorded identifiers and the status entries of one type. *)
Definition idsOf (s : St) : gmap string string :=
  idsMap (EndpointIDs (Status (instance s))).

Definition entriesOf (ty : string) (s : St) : list Endpoint :=
  filter (λ e, Interface e = ty) (Endpoints (Status (instance s))).

(** The status upsert of the converge loop on the [Endpoints] list. *)
Definition upsertEndpoint (eps : list Endpoint) (ty url id : string)
  : list Endpoint :=
  let idx := getEndpointIdx ty eps in
  if (idx >=? 0)%Z then setIDAndURL eps idx id url
  else eps ++ [{| Interface := ty; URL := url; ID := id |}].

(** [s] with its log extended by [new]. *)
Definition logged (s : St) (new : list Event) : St :=
  {| instance := instance s; remote := remote s; trace := trace s ++ new |}.

(** A step from [s] to [s'] that stays within the endpoint types in [P]:
    it changes nothing of the instance but [EndpointIDs] and
    [Endpoints], keeps a nil map nil, logs only identity-service calls
    made for types in [P] and leaves what is recorded for every other
    type as it was. *)
Definition touches (P : string → Prop) (s s' : St) : Prop :=
  (∃ ids eps,
     instance s' = withEndpoints (withEndpointIDs (instance s) ids) eps) ∧
  (is_Some (EndpointIDs (Status (instance s'))) ↔
   is_Some (EndpointIDs (Status (instance s)))) ∧
  (∃ new, trace s' = trace s ++ new ∧
          Forall (λ e, ∃ ty, evType e = Some ty ∧ P ty) new) ∧
  (∀ ty, ¬ P ty →
     idsOf s' !! ty = idsOf s !! ty ∧ entriesOf ty s' = entriesOf ty s).

(** The endpoint types queried, in the order of the queries. *)
Definition queriedTypes (tr : list Event) : list string :=
  omap (λ e, match e with
             | EvGetEndpoints _ ty _ => Some ty
             | _ => None
             end) tr.

(** The only calls of a marker-only cleanup of instance [i]: the write
    of its service registration without the marker of [i], and the
    closing patch of [i] itself. *)
Definition isMarkerCleanup (cl : Cluster) (helper : Helper)
    (i : KeystoneEndpoint) (e : Event) : Prop :=
  match e with
  | EvUpdateKeystoneService svc _ =>
      ∃ ksSvc,
        GetKeystoneServiceWithName cl (ServiceName (Spec i)) (Namespace i)
          = inr ksSvc ∧
        svc = svcWithFinalizers ksSvc
                (RemoveFinalizer (svcFinalizers ksSvc)
                   (endpointFinalizer helper i)).1
  | EvPatchInstance _ _ => True
  | _ => False
  end.

(** The lookup of the service registration does not stand in the way of
    the cleanup: the registration is gone, or it is there and the write
    that removes the marker, if one is needed, succeeds. *)
Definition serviceReleasable (cl : Cluster) (helper : Helper)
    (i : KeystoneEndpoint) : Prop :=
  match GetKeystoneServiceWithName cl (ServiceName (Spec i)) (Namespace i) with
  | inr ksSvc =>
      let '(f, changed) :=
        RemoveFinalizer (svcFinalizers ksSvc) (endpointFinalizer helper i) in
      changed = true →
      UpdateKeystoneService cl (svcWithFinalizers ksSvc f) = None
  | inl err => errIsNotFound err = true
  end.

(** What justifies a call of the converge loop made for the entry
    [(ty, url)] of the spec, among the calls [new] of the pass: a query
    is made under the service identifier of the status; a create call
    follows a query of that type answered with no endpoint, and asks for
    the declared URL under the service name, the service identifier and
    the availability of the type; an update call follows a query of that
    type answered with exactly one endpoint whose URL is not the
    declared one, addresses that endpoint and asks for the declared
    URL. *)
Definition convergeCallFor (spec : KeystoneEndpointSpec) (sid : string)
    (ty url : string) (new : list Event) (e : Event) : Prop :=
  match e with
  | EvGetEndpoints sid' t _ => t = ty ∧ sid' = sid
  | EvCreateEndpoint t ep _ =>
      t = ty ∧
      osName ep = ServiceName spec ∧ osServiceID ep = sid ∧ osURL ep = url ∧
      GetAvailability ty = inr (osAvailability ep) ∧
      EvGetEndpoints sid ty (inr []) ∈ new
  | EvUpdateEndpoint t ep id _ =>
      t = ty ∧ osURL ep = url ∧
      GetAvailability ty = inr (osAvailability ep) ∧
      ∃ listed,
        EvGetEndpoints sid ty (inr [listed]) ∈ new ∧
        id = reID listed ∧ osName ep = reName listed ∧
        osServiceID ep = reServiceID listed ∧ reURL listed ≠ url
  | _ => False
  end.

(** What justifies a delete call of the retire loop for type [ty]. *)
Definition retireCallFor (spec : KeystoneEndpointSpec) (sid : string)
    (ty : string) (e : Event) : Prop :=
  match e with
  | EvDeleteEndpoint t ep _ =>
      t = ty ∧ SpecEndpoints spec !! ty = None ∧
      osName ep = ServiceName spec ∧ osServiceID ep = sid ∧
      GetAvailability ty = inr (osAvailability ep)
  | _ => False
  end.

(** What justifies a call of a pass of the sync engine: a delete call is
    made for a recorded type the spec no longer has; every other call is
    made for an entry of the spec. *)
Definition justifiedCall (spec : KeystoneEndpointSpec) (sid : string)
    (ro : list string) (new : list Event) (e : Event) : Prop :=
  match e with
  | EvDeleteEndpoint ty _ _ => ty ∈ ro ∧ retireCallFor spec sid ty e
  | _ => ∃ ty url, SpecEndpoints spec !! ty = Some url ∧
                   convergeCallFor spec sid ty url new e
  end.

(** The identifier the identity service answered for the entry
    [(ty, url)] of the spec during the calls [new]: the one a create or
    an update call for the type returned, or the one of the single
    endpoint a query for the type listed, when that endpoint already has
    the declared URL. *)
Definition answeredIdentifier (sid ty url : string) (new : list Event)
    (id : string) : Prop :=
  (∃ ep, EvCreateEndpoint ty ep (inr id) ∈ new) ∨
  (∃ ep old, EvUpdateEndpoint ty ep old (inr id) ∈ new) ∨
  (∃ listed, EvGetEndpoints sid ty (inr [listed]) ∈ new ∧
             reURL listed = url ∧ reID listed = id).

(** ** Invariants of a pass

    The computation [m], started on an instance that satisfies [J] after
    calls that all satisfy [E], ends on an instance that satisfies [J]
    after calls that all satisfy [E], however it ends. *)
Definition keeps {V A} (J : KeystoneEndpoint → Prop) (E : Event → Prop)
    (m : M St V A) : Prop :=
  ∀ s, J (instance s) → Forall E (trace s) →
       J (instance (m s).2) ∧ Forall E (trace (m s).2).

(** The computation [m], started on an instance that satisfies [J], does
    not panic and ends on an instance that satisfies [J]. *)
Definition safe {V A} (J : KeystoneEndpoint → Prop) (m : M St V A) : Prop :=
  ∀ s, J (instance s) → (m s).1 ≠ Panic ∧ J (instance (m s).2).

(** [i'] is the object [i] with, possibly, another status and other
    finalizers. *)
Definition sameObject (i i' : KeystoneEndpoint) : Prop :=
  Name i' = Name i ∧ Namespace i' = Namespace i ∧
  Generation i' = Generation i ∧
  DeletionTimestamp i' = DeletionTimestamp i ∧ Spec i' = Spec i.

(** The calls of a pass that holds on to its dependencies: a write of
    a registration carries the marker of the instance. *)
Definition holdCall (marker : string) (e : Event) : Prop :=
  match e with
  | EvUpdateKeystoneService svc _ => marker ∈ svcFinalizers svc
  | EvUpdateKeystoneAPI api _ => marker ∈ apiFinalizers api
  | _ => True
  end.

(** The calls of a pass that lets go: no query, no create and no update
    call to the identity service, and a write of a registration does not
    carry the marker of the instance. *)
Definition releaseCall (marker : string) (e : Event) : Prop :=
  match e with
  | EvGetEndpoints _ _ _ | EvCreateEndpoint _ _ _
  | EvUpdateEndpoint _ _ _ _ => False
  | EvUpdateKeystoneService svc _ => marker ∉ svcFinalizers svc
  | EvUpdateKeystoneAPI api _ => marker ∉ apiFinalizers api
  | _ => True
  end.

(** The identity-API registration does not stand in the way of the
    cleanup: the write that removes the marker, if one is needed,
    succeeds. *)
Definition apiReleasable (cl : Cluster) (helper : Helper)
    (i : KeystoneEndpoint) (keystoneAPI : KeystoneAPI) : Prop :=
  let '(f, changed) :=
    RemoveFinalizer (apiFinalizers keystoneAPI) (endpointFinalizer helper i) in
  changed = true →
  UpdateKeystoneAPI cl (apiWithFinalizers keystoneAPI f) = None.

(** The writes of the two registrations, and the error of such a
    write. *)
Definition isRegistrationWrite (e : Event) : bool :=
  match e with
  | EvUpdateKeystoneService _ _ | EvUpdateKeystoneAPI _ _ => true
  | _ => false
  end.


(** A call that was answered with an error. *)
Definition failed (e : Event) : bool :=
  match e with
  | EvGetEndpoints _ _ (inl _) | EvCreateEndpoint _ _ (inl _)
  | EvUpdateEndpoint _ _ _ (inl _) | EvDeleteEndpoint _ _ (Some _)
  | EvUpdateKeystoneService _ (Some _) | EvUpdateKeystoneAPI _ (Some _)
  | EvPatchInstance _ (Some _) => true
  | _ => false
  end.

(** A call to the identity service that is made on behalf of the
    service [name] registered under the identifier [sid]. *)
Definition servesUnder (name sid : string) (e : Event) : Prop :=
  match e with
  | EvGetEndpoints sid' _ _ => sid' = sid
  | EvCreateEndpoint _ ep _ | EvDeleteEndpoint _ ep _ =>
      osName ep = name ∧ osServiceID ep = sid
  | _ => True
  end.

(** The writes to the identity service made for one endpoint type. *)
Definition mutationsFor (ty : string) (new : list Event) : list Event :=
  filter (λ e, isMutation e = true ∧ evType e = Some ty) new.

(** The write that releases the service registration during the
    cleanup of instance [i]: if the registration is found and carries
    the marker of [i], it is written once, with the marker taken off and
    nothing else changed; otherwise nothing is written. *)
Definition withoutMarker (ksSvc : KeystoneService) (marker : string)
  : KeystoneService :=
  svcWithFinalizers ksSvc (filter (λ f, f ≠ marker) (svcFinalizers ksSvc)).

Definition serviceRelease (cl : Cluster) (helper : Helper)
    (i : KeystoneEndpoint) : list Event :=
  let marker := endpointFinalizer helper i in
  match GetKeystoneServiceWithName cl (ServiceName (Spec i)) (Namespace i) with
  | inr ksSvc =>
      if bool_decide (marker ∈ svcFinalizers ksSvc)
      then [EvUpdateKeystoneService (withoutMarker ksSvc marker)
              (UpdateKeystoneService cl (withoutMarker ksSvc marker))]
      else []
  | inl _ => []
  end.

End Observations.

(** * An in-memory implementation of the interface

    A small implementation of [LibCommon] and of the admin client, used
    to run the controller on concrete inputs: conditions are a list with
    one entry per type, the identity service is a list of endpoints with
    their availability. *)
Module Fake.

Inductive Tri : Type := TriTrue | TriFalse | TriUnknown.

Record Cond : Type := mkCond {
  cType : CondType;
  cStatus : Tri;
  cReason : option Reason;
  cSeverity : option Severity;
  cMessage : MessageFormat;
  cArgs : list Arg
}.

#[global] Instance CondType_eq_dec : EqDecision CondType.
Proof. solve_decision. Defined.

#[global] Instance Tri_eq_dec : EqDecision Tri.
Proof. solve_decision. Defined.

(** Replaces the condition of the same type, or appends. *)
Fixpoint upsert (c : Cond) (l : list Cond) : list Cond :=
  match l with
  | [] => [c]
  | d :: l' => if decide (cType d = cType c) then c :: l' else d :: upsert c l'
  end.

Definition set (cs : option (list Cond)) (c : option Cond)
  : option (list Cond) :=
  match c with
  | None => cs
  | Some c => Some (upsert c (default [] cs))
  end.

Definition trueCondition (t : CondType) (m : MessageFormat) (args : list Arg)
  : Cond :=
  {| cType := t; cStatus := TriTrue; cReason := None; cSeverity := None;
     cMessage := m; cArgs := args |}.

Definition unknownCondition (t : CondType) (r : Reason) (m : MessageFormat)
  : Cond :=
  {| cType := t; cStatus := TriUnknown; cReason := Some r; cSeverity := None;
     cMessage := m; cArgs := [] |}.

Definition falseCondition (t : CondType) (r : Reason) (sev : Severity)
    (m : MessageFormat) (args : list Arg) : Cond :=
  {| cType := t; cStatus := TriFalse; cReason := Some r; cSeverity := Some sev;
     cMessage := m; cArgs := args |}.

Definition allSubConditionIsTrue (cs : option (list Cond)) : bool :=
  forallb (λ c, bool_decide (cType c = ReadyCondition)
                || bool_decide (cStatus c = TriTrue))
          (default [] cs).

(** The first [False] condition, else the first [Unknown] one, else the
    first [True] one, relabelled with the target type. *)
Definition mirror (cs : option (list Cond)) (t : CondType) : option Cond :=
  let l := default [] cs in
  let pick st := filter (λ c, cStatus c = st) l in
  match pick TriFalse ++ pick TriUnknown ++ pick TriTrue with
  | [] => None
  | c :: _ =>
      Some {| cType := t; cStatus := cStatus c; cReason := cReason c;
              cSeverity := cSeverity c; cMessage := cMessage c;
              cArgs := cArgs c |}
  end.

Inductive Avail : Type := AvailabilityAdmin | AvailabilityInternal | AvailabilityPublic.

#[global] Instance Avail_eq_dec : EqDecision Avail.
Proof. solve_decision. Defined.

Definition getAvailability (endpointInterface : string) : error + Avail :=
  if bool_decide (endpointInterface = "admin") then inr AvailabilityAdmin
  else if bool_decide (endpointInterface = "internal") then inr AvailabilityInternal
  else if bool_decide (endpointInterface = "public") then inr AvailabilityPublic
  else inl {| errIsNotFound := false;
              errText := "endpoint interface is not valid" |}.

Definition availName (a : Avail) : string :=
  match a with
  | AvailabilityAdmin => "admin"
  | AvailabilityInternal => "internal"
  | AvailabilityPublic => "public"
  end.

Definition lib : LibCommon :=
  {| Condition := Cond;
     Conditions := option (list Cond);
     conditionsIsNil := λ cs, match cs with None => true | Some _ => false end;
     emptyConditions := Some [];
     UnknownCondition := unknownCondition;
     FalseCondition := falseCondition;
     CreateList := λ l, Some l;
     Init := λ _ cl,
       Some (unknownCondition ReadyCondition InitReason ReadyInitMessage
               :: default [] cl);
     Set_ := set;
     MarkTrue := λ cs t m args, set cs (Some (trueCondition t m args));
     MarkUnknown := λ cs t r m, set cs (Some (unknownCondition t r m));
     Mirror := mirror;
     AllSubConditionIsTrue := allSubConditionIsTrue;
     Availability := Avail;
     GetAvailability := getAvailability;
     RemoteState := list (Avail * RemoteEndpoint);
     WrapErrorForObject := λ _ msg _ _,
       {| errIsNotFound := false; errText := msg |} |}.

#[local] Existing Instance lib.

(** The registry entries of a service under an availability. *)
Definition matching (r : list (Avail * RemoteEndpoint)) (serviceID : string)
    (a : Avail) : list (Avail * RemoteEndpoint) :=
  filter (λ p, p.1 = a ∧ reServiceID p.2 = serviceID) r.

Definition client : @OpenStack lib :=
  {| osGetEndpoints := λ (r : @RemoteState lib) serviceID ty,
       match getAvailability ty with
       | inl err => inl err
       | inr a => inr ((matching r serviceID a).*2)
       end;
     osCreateEndpoint := λ (r : @RemoteState lib) (e : @OSEndpoint lib),
       let id := "ep-" +:+ availName (osAvailability e) in
       (inr id,
        r ++ [(osAvailability e,
               {| reID := id; reName := osName e;
                  reServiceID := osServiceID e; reURL := osURL e |})]);
     osUpdateEndpoint := λ (r : @RemoteState lib) (e : @OSEndpoint lib) id,
       (inr id,
        (λ p : Avail * RemoteEndpoint,
           if bool_decide (reID p.2 = id)
           then (p.1, {| reID := id; reName := osName e;
                         reServiceID := osServiceID e; reURL := osURL e |})
           else p) <$> r);
     osDeleteEndpoint := λ (r : @RemoteState lib) (e : @OSEndpoint lib),
       (None,
        filter (λ p, ¬ (p.1 = osAvailability e
                        ∧ reServiceID p.2 = osServiceID e)) r) |}.

(** An initialised instance of service ["svc-1"] that carries its own
    finalizer, with the given spec and recorded endpoints. *)
Definition initialised : option (list Cond) :=
  Some [unknownCondition ReadyCondition InitReason ReadyInitMessage;
        unknownCondition KeystoneAPIReadyCondition InitReason
          KeystoneAPIReadyInitMessage;
        unknownCondition AdminServiceClientReadyCondition InitReason
          AdminServiceClientReadyInitMessage;
        unknownCondition KeystoneServiceOSEndpointsReadyCondition InitReason
          KeystoneServiceOSEndpointsReadyInitMessage;
        unknownCondition KeystoneServiceReadyCondition InitReason EmptyMessage].

Definition mkInstance (deletion : option Z) (spec : gmap string string)
    (ids : option (gmap string string)) (eps : list Endpoint)
  : @KeystoneEndpoint lib :=
  {| Name := "placement"; Namespace := "openstack"; Generation := 1;
     DeletionTimestamp := deletion; Finalizers := ["KeystoneEndpoint"];
     Spec := {| ServiceName := "placement"; SpecEndpoints := spec |};
     Status := {| StatusConditions := initialised; ServiceID := "svc-1";
                  EndpointIDs := ids; Endpoints := eps;
                  ObservedGeneration := 0 |} |}.

Definition start (i : @KeystoneEndpoint lib) (r : @RemoteState lib) : @St lib :=
  {| instance := i; remote := r; trace := [] |}.

Definition remoteEndpoint (id url : string) : RemoteEndpoint :=
  {| reID := id; reName := "placement"; reServiceID := "svc-1"; reURL := url |}.

(** The spec lost its admin endpoint and gained two others. *)
Definition retiring : @St lib :=
  start (mkInstance None
           {[ "public" := "http://a"; "internal" := "http://b" ]}
           (Some {[ "admin" := "id-old" ]})
           [{| Interface := "admin"; URL := "http://old"; ID := "id-old" |}])
        [(AvailabilityAdmin, remoteEndpoint "id-old" "http://old")].

(** The instance is in sync with the identity service. *)
Definition inSync : @St lib :=
  start (mkInstance None
           {[ "public" := "http://a" ]}
           (Some {[ "public" := "ep-public" ]})
           [{| Interface := "public"; URL := "http://a"; ID := "ep-public" |}])
        [(AvailabilityPublic, remoteEndpoint "ep-public" "http://a")].

(** The identity service lists two public endpoints for the service. *)
Definition ambiguous : @St lib :=
  start (mkInstance None
           {[ "admin" := "http://c"; "public" := "http://a";
              "internal" := "http://b" ]}
           (Some {[ "public" := "ep-public" ]})
           [{| Interface := "public"; URL := "http://a"; ID := "ep-public" |}])
        [(AvailabilityPublic, remoteEndpoint "ep-public" "http://a");
         (AvailabilityPublic, remoteEndpoint "ep-stray" "http://z")].

(** Nothing is registered yet for a spec with two endpoints. *)
Definition fresh : @St lib :=
  start (mkInstance None
           {[ "public" := "http://a"; "internal" := "http://b" ]}
           (Some ∅) [])
        [].

(** A resource store whose writes all succeed, with the given answers to
    the lookups of a pass. *)
Definition cluster (get : error + @KeystoneEndpoint lib)
    (newHelper : error + Helper) (getAPI : error + KeystoneAPI)
    (getSvc : error + @KeystoneService lib) : @Cluster lib :=
  {| Get := get;
     NewHelper := λ _, newHelper;
     GetKeystoneAPI := λ _, getAPI;
     GetAdminServiceClient := λ _, (Some client, emptyResult, None);
     GetKeystoneServiceWithName := λ _ _, getSvc;
     UpdateKeystoneService := λ _, None;
     UpdateKeystoneAPI := λ _, None;
     PatchInstance := λ _, None |}.

Definition helper : Helper := {| GetFinalizer := "KeystoneEndpoint" |}.

Definition notFound : error :=
  {| errIsNotFound := true; errText := "not found" |}.

Definition unavailable : error :=
  {| errIsNotFound := false; errText := "the server is currently unable to handle the request" |}.

Definition readyAPI : KeystoneAPI :=
  {| apiDeletionTimestamp := None;
     apiFinalizers := ["KeystoneEndpoint-placement"];
     apiIsReady := true |}.

Definition readyService : @KeystoneService lib :=
  {| svcFinalizers := ["KeystoneEndpoint-placement"];
     svcConditions :=
       Some [trueCondition ReadyCondition ReadyMessage []];
     svcServiceID := "svc-1";
     svcIsReady := true |}.

Definition schedule (retire : list string) (converge : list (string * string))
    (delete : list string) : Schedule :=
  {| retireOrder := retire; convergeOrder := converge; deleteOrder := delete |}.

(** An instance whose sub-conditions are all true while its stored
    [Ready] condition is not. *)
Definition allSubTrue : option (list Cond) :=
  Some [unknownCondition ReadyCondition InitReason ReadyInitMessage;
        trueCondition KeystoneAPIReadyCondition KeystoneAPIReadyMessage [];
        trueCondition AdminServiceClientReadyCondition
          AdminServiceClientReadyMessage [];
        trueCondition KeystoneServiceOSEndpointsReadyCondition
          KeystoneServiceOSEndpointsReadyMessage [];
        trueCondition KeystoneServiceReadyCondition ReadyMessage []].

Definition staleReady : @KeystoneEndpoint lib :=
  withConditions (instance inSync) allSubTrue.

(** The instance is being deleted and never registered anything. *)
Definition deletingEmpty : @KeystoneEndpoint lib :=
  mkInstance (Some 1700000000) {[ "public" := "http://a" ]} None [].

(** The instance is being deleted after it registered its endpoint. *)
Definition deletingRegistered : @St lib :=
  start (mkInstance (Some 1700000000)
           {[ "public" := "http://a"; "internal" := "http://b" ]}
           (Some {[ "public" := "ep-public" ]})
           [{| Interface := "public"; URL := "http://a"; ID := "ep-public" |}])
        [(AvailabilityPublic, remoteEndpoint "ep-public" "http://a")].

(** One public endpoint is declared and nothing is registered. *)
Definition unregistered : @St lib :=
  start (mkInstance None {[ "public" := "http://a" ]} (Some ∅) []) [].

(** The identity API is being deleted as well. *)
Definition deletingAPI : KeystoneAPI :=
  {| apiDeletionTimestamp := Some 1700000100;
     apiFinalizers := ["KeystoneEndpoint-placement"];
     apiIsReady := true |}.

(** The identity API and the service registration while they come up. *)
Definition unreadyAPI : KeystoneAPI :=
  {| apiDeletionTimestamp := None; apiFinalizers := []; apiIsReady := false |}.

Definition unreadyService : @KeystoneService lib :=
  {| svcFinalizers := [];
     svcConditions :=
       Some [unknownCondition ReadyCondition InitReason ReadyInitMessage];
     svcServiceID := "";
     svcIsReady := false |}.

(** A new instance: no conditions, no finalizer, nothing recorded. *)
Definition created : @KeystoneEndpoint lib :=
  {| Name := "placement"; Namespace := "openstack"; Generation := 1;
     DeletionTimestamp := None; Finalizers := [];
     Spec := {| ServiceName := "placement";
                SpecEndpoints := {[ "public" := "http://a" ]} |};
     Status := {| StatusConditions := None; ServiceID := "";
                  EndpointIDs := None; Endpoints := [];
                  ObservedGeneration := 0 |} |}.

(** The status of the service registration is known under a new
    identifier, while the status of the instance still has the old
    one. *)
Definition reregisteredService : @KeystoneService lib :=
  {| svcFinalizers := [];
     svcConditions :=
       Some [trueCondition ReadyCondition ReadyMessage []];
     svcServiceID := "svc-2";
     svcIsReady := true |}.

End Fake.

(** * Properties *)

(** ** The monad and the loops *)

Lemma forRange_app {S V X} (l1 l2 : list X) (body : X → M S V unit) (s : S) :
  forRange (l1 ++ l2) body s =
  match forRange l1 body s with
  | (Next _, s') => forRange l2 body s'
  | (Return v, s') => (Return v, s')
  | (Panic, s') => (Panic, s')
  end.
Proof.
  revert s. induction l1 as [|x l1 IH]; intros s; simpl.
  - reflexivity.
  - unfold bind. destruct (body x s) as [[[]|v|] s1]; auto.
Qed.

Lemma forRange_cons_inv {S V X} (x : X) l (body : X → M S V unit) s out s' :
  forRange (x :: l) body s = (out, s') →
  (∃ s1, body x s = (Next tt, s1) ∧ forRange l body s1 = (out, s')) ∨
  (body x s = (out, s') ∧ out ≠ Next tt).
Proof.
  simpl. unfold bind. destruct (body x s) as [[[]|v|] s1] eqn:E; intros Hr.
  - left. eauto.
  - right. inversion Hr; subst. split; [done|discriminate].
  - right. inversion Hr; subst. split; [done|discriminate].
Qed.

(** ** [slices.IndexFunc] *)

Lemma IndexFunc_range {A} (l : list A) f :
  IndexFunc l f = -1 ∨ (0 ≤ IndexFunc l f < Z.of_nat (length l)).
Proof.
  induction l as [|x l IH]; simpl; [by left|].
  destruct (f x); [right; lia|].
  destruct (Z.ltb_spec (IndexFunc l f) 0); [by left|right; lia].
Qed.

Lemma IndexFunc_found {A} (l : list A) f :
  0 ≤ IndexFunc l f →
  ∃ x, l !! Z.to_nat (IndexFunc l f) = Some x ∧ f x = true.
Proof.
  induction l as [|x l IH]; simpl; [lia|].
  destruct (f x) eqn:Ef; [intros _; exists x; done|].
  destruct (Z.ltb_spec (IndexFunc l f) 0) as [|Hge]; [lia|].
  intros _. destruct (IH Hge) as (y & Hy & Hfy). exists y. split; [|done].
  replace (Z.to_nat (IndexFunc l f + 1)) with (S (Z.to_nat (IndexFunc l f)))
    by lia.
  done.
Qed.

Lemma IndexFunc_first {A} (l : list A) f (j : nat) x :
  0 ≤ IndexFunc l f → (j < Z.to_nat (IndexFunc l f))%nat →
  l !! j = Some x → f x = false.
Proof.
  revert j. induction l as [|y l IH]; intros j; simpl; [lia|].
  destruct (f y) eqn:Ef; [simpl; lia|].
  destruct (Z.ltb_spec (IndexFunc l f) 0) as [|Hge]; [lia|].
  intros _ Hj Hl. destruct j as [|j]; simpl in Hl.
  - by inversion Hl; subst.
  - apply (IH j); [done|lia|done].
Qed.

Lemma IndexFunc_none {A} (l : list A) f :
  IndexFunc l f < 0 → Forall (λ x, f x = false) l.
Proof.
  induction l as [|x l IH]; simpl; [constructor|].
  destruct (f x) eqn:Ef; [lia|].
  destruct (Z.ltb_spec (IndexFunc l f) 0); [|lia].
  intros _. constructor; auto.
Qed.

Lemma filter_delete_other {A} (P : A → Prop) `{∀ x, Decision (P x)}
    (l : list A) (n : nat) x :
  l !! n = Some x → ¬ P x →
  filter P (take n l ++ drop (S n) l) = filter P l.
Proof.
  intros Hl HP.
  rewrite <- (take_drop_middle l n x Hl) at 3.
  rewrite !filter_app, filter_cons_False; done.
Qed.

Lemma filter_alter_other {A} (P : A → Prop) `{∀ x, Decision (P x)}
    (g : A → A) (l : list A) (n : nat) x :
  l !! n = Some x → ¬ P x → ¬ P (g x) →
  filter P (alter g n l) = filter P l.
Proof.
  revert n. induction l as [|y l IH]; intros n Hl HP HPg; [done|].
  destruct n as [|n]; simpl in *.
  - inversion Hl; subst. rewrite !filter_cons_False; done.
  - rewrite !filter_cons. destruct (decide (P y)); [f_equal|]; by apply (IH n).
Qed.

(** Runs the monadic plumbing in a hypothesis as far as it goes. *)
Ltac mrun H :=
  repeat (progress (unfold bind, getInstance, setInstance, emit, ret, return_,
                    panic in H; simpl in H)).

Section EngineSteps.
Context `{LibCommon}.

(** What one iteration of the retire loop can do. *)
Lemma retireStep_inv os ty s out s' :
  retireStep os ty s = (out, s') →
  let i := instance s in
  let ep a := {| osName := ServiceName (Spec i);
                 osServiceID := ServiceID (Status i);
                 osAvailability := a; osURL := "" |} in
  (is_Some (SpecEndpoints (Spec i) !! ty) ∧ out = Next tt ∧ s' = s) ∨
  (SpecEndpoints (Spec i) !! ty = None ∧
   ((∃ err, GetAvailability ty = inl err ∧ out = Return err ∧ s' = s) ∨
    (os = None ∧ out = Panic ∧ s' = s) ∨
    (∃ c a res r',
       os = Some c ∧ GetAvailability ty = inr a ∧
       osDeleteEndpoint c (remote s) (ep a) = (res, r') ∧
       match res with
       | Some err =>
           out = Return err ∧
           s' = {| instance := i; remote := r';
                   trace := trace s ++ [EvDeleteEndpoint ty (ep a) res] |}
       | None =>
           out = Next tt ∧
           s' = {| instance :=
                     withEndpoints
                       (withEndpointIDs i (delete ty <$> EndpointIDs (Status i)))
                       (let idx := getEndpointIdx ty (Endpoints (Status i)) in
                        if (idx >=? 0)%Z
                        then removeAt (Endpoints (Status i)) idx
                        else Endpoints (Status i));
                   remote := r';
                   trace := trace s ++ [EvDeleteEndpoint ty (ep a) res] |}
       end))).
Proof.
  intros Hr i ep. unfold retireStep, bind, getInstance in Hr. simpl in Hr.
  fold i in Hr.
  destruct (SpecEndpoints (Spec i) !! ty) eqn:Hspec.
  { left. inversion Hr; subst. eauto. }
  right. split; [done|].
  unfold resolveOrReturn in Hr.
  destruct (GetAvailability ty) as [err|a] eqn:Ha.
  { left. inversion Hr; subst. eauto. }
  right. simpl in Hr.
  destruct os as [c|]; simpl in Hr.
  2:{ left. inversion Hr; subst. eauto. }
  right. fold (ep a) in Hr.
  destruct (osDeleteEndpoint c (remote s) (ep a)) as [res r'] eqn:Hd.
  exists c, a, res, r'. split; [done|]. split; [done|]. split; [done|].
  destruct res as [err|]; simpl in Hr.
  - inversion Hr; subst. done.
  - unfold setInstance in Hr. subst i. simpl in *.
    destruct (getEndpointIdx ty (Endpoints (Status (instance s))) >=? 0)%Z;
      simpl in Hr; inversion Hr; subst; done.
Qed.


(** What the status upsert at the end of a converge iteration can do. *)
Lemma recordEndpoint_inv ty url id s out s' :
  recordEndpoint ty url id s = (out, s') →
  let i := instance s in
  (id = "" ∧ out = Next tt ∧ s' = s) ∨
  (id ≠ "" ∧
   ((is_Some (SpecEndpoints (Spec i) !! ty) ∧ EndpointIDs (Status i) = None ∧
     out = Panic ∧ s' = s) ∨
    (out = Next tt ∧
     ∃ ids,
       ((SpecEndpoints (Spec i) !! ty = None ∧ ids = EndpointIDs (Status i)) ∨
        (is_Some (SpecEndpoints (Spec i) !! ty) ∧
         ∃ m, EndpointIDs (Status i) = Some m ∧ ids = Some (<[ty := id]> m))) ∧
       s' = {| instance :=
                 withEndpoints (withEndpointIDs i ids)
                   (upsertEndpoint (Endpoints (Status i)) ty url id);
               remote := remote s; trace := trace s |}))).
Proof.
  intros Hr i. unfold recordEndpoint in Hr.
  case_bool_decide as Hid.
  2:{ left. inversion Hr; subst. done. }
  right. split; [done|]. subst i. unfold storeEndpointID in Hr. mrun Hr.
  destruct (SpecEndpoints (Spec (instance s)) !! ty) as [u|] eqn:Hspec;
    mrun Hr.
  - destruct (EndpointIDs (Status (instance s))) as [m|] eqn:Hm; mrun Hr.
    + right. unfold upsertEndpoint.
      destruct (getEndpointIdx ty (Endpoints (Status (instance s))) >=? 0)%Z;
        mrun Hr; inversion Hr; subst; (split; [done|]);
        exists (Some (<[ty:=id]> m)); (split; [right; eauto|done]).
    + left. inversion Hr; subst. eauto.
  - right. unfold upsertEndpoint.
    destruct (getEndpointIdx ty (Endpoints (Status (instance s))) >=? 0)%Z;
      mrun Hr; inversion Hr; subst; (split; [done|]);
      exists (EndpointIDs (Status (instance s)));
      (split; [left; done|]); destruct s as [[? ? ? ? ? ? []] ? ?]; done.
Qed.

(** What one iteration of the converge loop can do. *)
Lemma convergeStep_inv os ty url s out s' :
  convergeStep os (ty, url) s = (out, s') →
  let i := instance s in
  let sid := ServiceID (Status i) in
  (∃ err, GetAvailability ty = inl err ∧ out = Return err ∧ s' = s) ∨
  (os = None ∧ out = Panic ∧ s' = s) ∨
  (∃ c a res s1,
     os = Some c ∧ GetAvailability ty = inr a ∧
     res = osGetEndpoints c (remote s) sid ty ∧
     s1 = logged s [EvGetEndpoints sid ty res] ∧
     match res with
     | inl err => out = Return err ∧ s' = s1
     | inr [] =>
         let ep := {| osName := ServiceName (Spec i); osServiceID := sid;
                      osAvailability := a; osURL := url |} in
         ∃ cres r',
           osCreateEndpoint c (remote s) ep = (cres, r') ∧
           let s2 := {| instance := i; remote := r';
                        trace := trace s1 ++ [EvCreateEndpoint ty ep cres] |} in
           match cres with
           | inl err => out = Return err ∧ s' = s2
           | inr id => recordEndpoint ty url id s2 = (out, s')
           end
     | inr [e] =>
         if bool_decide (url ≠ reURL e) then
           let ep := {| osName := reName e; osServiceID := reServiceID e;
                        osAvailability := a; osURL := url |} in
           ∃ ures r',
             osUpdateEndpoint c (remote s) ep (reID e) = (ures, r') ∧
             let s2 := {| instance := i; remote := r';
                          trace := trace s1 ++
                                   [EvUpdateEndpoint ty ep (reID e) ures] |} in
             match ures with
             | inl err => out = Return err ∧ s' = s2
             | inr id => recordEndpoint ty url id s2 = (out, s')
             end
         else recordEndpoint ty url (reID e) s1 = (out, s')
     | inr (_ :: _ :: _) =>
         out = Return
                 (WrapErrorForObject
                    ("multiple endpoints registered for service:"
                       +:+ ServiceName (Spec i) +:+ " type: " +:+ ty)
                    i None) ∧
         s' = s1
     end).
Proof.
  intros Hr i sid. unfold convergeStep in Hr.
  unfold bind at 1 in Hr. unfold getInstance at 1 in Hr. simpl in Hr.
  unfold bind at 1 in Hr. unfold resolveOrReturn in Hr.
  destruct (GetAvailability ty) as [err|a] eqn:Ha.
  { left. inversion Hr; subst. eauto. }
  right. simpl in Hr. unfold bind at 1 in Hr.
  destruct os as [c|]; simpl in Hr.
  2:{ left. inversion Hr; subst. eauto. }
  right. fold i in Hr. fold sid in Hr.
  exists c, a, (osGetEndpoints c (remote s) sid ty),
    (logged s [EvGetEndpoints sid ty (osGetEndpoints c (remote s) sid ty)]).
  do 4 (split; [done|]).
  destruct (osGetEndpoints c (remote s) sid ty) as [err|l]; simpl in Hr.
  { inversion Hr; subst. done. }
  destruct l as [|e [|e2 l]].
  - unfold bind at 1 2 in Hr. simpl in Hr. fold i in Hr. fold sid in Hr.
    destruct (osCreateEndpoint c (remote s) _) as [cres r'] eqn:Hc.
    exists cres, r'. split; [done|]. simpl.
    destruct cres as [err|id]; simpl in Hr; [inversion Hr; subst; done|].
    exact Hr.
  - unfold bind at 1 in Hr. case_bool_decide as Hu.
    + unfold bind at 1 in Hr. simpl in Hr.
      destruct (osUpdateEndpoint c (remote s) _ (reID e)) as [ures r'] eqn:Hc.
      exists ures, r'. split; [done|]. simpl.
      destruct ures as [err|id]; simpl in Hr; [inversion Hr; subst; done|].
      exact Hr.
    + simpl in Hr. exact Hr.
  - unfold bind in Hr. simpl in Hr. inversion Hr; subst. done.
Qed.

(** *** Steps stay within their endpoint type *)

Lemma withEndpoints_eta (i : KeystoneEndpoint) :
  i = withEndpoints (withEndpointIDs i (EndpointIDs (Status i)))
        (Endpoints (Status i)).
Proof. by destruct i as [? ? ? ? ? ? []]. Qed.

Lemma touches_refl P s : touches P s s.
Proof.
  split; [|split; [done|split]].
  - eexists _, _. apply withEndpoints_eta.
  - exists []. by rewrite app_nil_r.
  - done.
Qed.

Lemma touches_trans P s1 s2 s3 :
  touches P s1 s2 → touches P s2 s3 → touches P s1 s3.
Proof.
  intros ((ids & eps & Hi) & Hn & (new & Ht & Hf) & Ho)
         ((ids' & eps' & Hi') & Hn' & (new' & Ht' & Hf') & Ho').
  split; [|split; [|split]].
  - exists ids', eps'. rewrite Hi', Hi. done.
  - by rewrite Hn'.
  - exists (new ++ new'). rewrite Ht', Ht, app_assoc. split; [done|].
    by apply Forall_app.
  - intros ty Hty. destruct (Ho ty Hty) as [<- <-]. by apply Ho'.
Qed.

Lemma touches_mono (P Q : string → Prop) s s' :
  (∀ ty, P ty → Q ty) → touches P s s' → touches Q s s'.
Proof.
  intros HPQ (Hi & Hn & (new & Ht & Hf) & Ho).
  split; [done|split; [done|split]].
  - exists new. split; [done|]. eapply Forall_impl; [exact Hf|].
    intros e (ty & ? & ?). eauto.
  - intros ty Hty. apply Ho. auto.
Qed.

Lemma touches_spec P s s' :
  touches P s s' →
  Spec (instance s') = Spec (instance s) ∧
  ServiceID (Status (instance s')) = ServiceID (Status (instance s)).
Proof. intros ((ids & eps & ->) & _). done. Qed.

Lemma entries_removeAt (eps : list Endpoint) ty ty' :
  ty' ≠ ty → 0 ≤ getEndpointIdx ty eps →
  filter (λ e, Interface e = ty') (removeAt eps (getEndpointIdx ty eps)) =
  filter (λ e, Interface e = ty') eps.
Proof.
  intros Hne Hidx. unfold getEndpointIdx in *.
  destruct (IndexFunc_found _ _ Hidx) as (x & Hx & Hfx).
  apply bool_decide_eq_true in Hfx. unfold removeAt.
  replace (Z.to_nat (IndexFunc eps _ + 1)) with
    (S (Z.to_nat (IndexFunc eps
                    (λ e : Endpoint, bool_decide (Interface e = ty))))) by lia.
  eapply filter_delete_other; [exact Hx|congruence].
Qed.

Lemma entries_upsert (eps : list Endpoint) ty ty' url id :
  ty' ≠ ty →
  filter (λ e, Interface e = ty') (upsertEndpoint eps ty url id) =
  filter (λ e, Interface e = ty') eps.
Proof.
  intros Hne. unfold upsertEndpoint.
  destruct (Z.geb_spec (getEndpointIdx ty eps) 0) as [Hidx|Hidx].
  - unfold getEndpointIdx in *.
    destruct (IndexFunc_found _ _ Hidx) as (x & Hx & Hfx).
    apply bool_decide_eq_true in Hfx. unfold setIDAndURL.
    eapply filter_alter_other; [exact Hx|congruence|simpl; congruence].
  - rewrite filter_app, filter_cons_False, filter_nil, app_nil_r;
      [done|simpl; congruence].
Qed.

Lemma retireStep_touches os ty s out s' :
  retireStep os ty s = (out, s') →
  touches (λ t, t = ty ∧ SpecEndpoints (Spec (instance s)) !! t = None) s s'.
Proof.
  intros Hr. apply retireStep_inv in Hr. simpl in Hr.
  destruct Hr as [(_ & _ & ->)|(Hspec & [(err & _ & _ & ->)|[(_ & _ & ->)|Hr]])];
    try apply touches_refl.
  destruct Hr as (c & a & res & r' & _ & _ & _ & Hr).
  destruct res as [err|]; destruct Hr as [_ ->].
  - split; [|split; [done|split]]; simpl.
    + eexists _, _. apply withEndpoints_eta.
    + eexists. split; [done|]. repeat constructor. eauto.
    + done.
  - split; [|split; [|split]]; simpl.
    + eexists _, _. done.
    + by rewrite fmap_is_Some.
    + eexists. split; [done|]. repeat constructor. eauto.
    + intros ty' Hty'. assert (ty' ≠ ty) as Hne by (intros ->; auto).
      unfold idsOf, entriesOf. simpl. split.
      * destruct (EndpointIDs (Status (instance s))); simpl; [|done].
        by rewrite lookup_delete_ne.
      * destruct (Z.geb_spec (getEndpointIdx ty
                    (Endpoints (Status (instance s)))) 0); [|done].
        by apply entries_removeAt.
Qed.

Lemma recordEndpoint_touches ty url id s out s' :
  recordEndpoint ty url id s = (out, s') → touches (λ t, t = ty) s s'.
Proof.
  intros Hr. apply recordEndpoint_inv in Hr. simpl in Hr.
  destruct Hr as [(_ & _ & ->)|(_ & [(_ & _ & _ & ->)|(_ & ids & Hids & ->)])];
    try apply touches_refl.
  split; [|split; [|split]]; simpl.
  - eexists _, _. done.
  - destruct Hids as [[_ ->]|(_ & m & -> & ->)]; done.
  - exists []. by rewrite app_nil_r.
  - intros ty' Hne. unfold idsOf, entriesOf. simpl. split.
    + destruct Hids as [[_ ->]|(_ & m & -> & ->)]; [done|]. simpl.
      rewrite lookup_insert_ne; [done|congruence].
    + apply entries_upsert. congruence.
Qed.

Lemma logged_touches (P : string → Prop) s new :
  Forall (λ e, ∃ ty, evType e = Some ty ∧ P ty) new →
  touches P s (logged s new).
Proof.
  intros Hf. split; [|split; [done|split]]; simpl.
  - eexists _, _. apply withEndpoints_eta.
  - eauto.
  - done.
Qed.

Lemma call_touches (P : string → Prop) s r' new :
  Forall (λ e, ∃ ty, evType e = Some ty ∧ P ty) new →
  touches P s {| instance := instance s; remote := r';
                 trace := trace s ++ new |}.
Proof.
  intros Hf. split; [|split; [done|split]]; simpl.
  - eexists _, _. apply withEndpoints_eta.
  - eauto.
  - done.
Qed.

Lemma convergeStep_touches os ty url s out s' :
  convergeStep os (ty, url) s = (out, s') → touches (λ t, t = ty) s s'.
Proof.
  intros Hr. apply convergeStep_inv in Hr. simpl in Hr.
  destruct Hr as [(err & _ & _ & ->)|[(_ & _ & ->)|Hr]];
    try apply touches_refl.
  destruct Hr as (c & a & res & s1 & _ & _ & _ & Hs1 & Hr).
  assert (touches (λ t, t = ty) s s1) as H1.
  { subst s1. apply logged_touches. repeat constructor. eauto. }
  destruct res as [err|[|e [|e2 l]]].
  - destruct Hr as [_ ->]. done.
  - destruct Hr as (cres & r' & _ & Hr). simpl in Hr.
    match type of Hr with
    | context [recordEndpoint _ _ _ ?s2] =>
        assert (touches (λ t, t = ty) s s2) as H2
    end.
    { subst s1. simpl. rewrite <- app_assoc.
      apply call_touches. repeat constructor; eauto. }
    destruct cres as [err|id].
    + destruct Hr as [_ ->]. done.
    + eapply touches_trans; [exact H2|]. eapply recordEndpoint_touches, Hr.
  - case_bool_decide.
    + destruct Hr as (ures & r' & _ & Hr). simpl in Hr.
      match type of Hr with
      | context [recordEndpoint _ _ _ ?s2] =>
          assert (touches (λ t, t = ty) s s2) as H2
      end.
      { subst s1. simpl. rewrite <- app_assoc.
        apply call_touches. repeat constructor; eauto. }
      destruct ures as [err|id].
      * destruct Hr as [_ ->]. done.
      * eapply touches_trans; [exact H2|]. eapply recordEndpoint_touches, Hr.
    + eapply touches_trans; [exact H1|]. eapply recordEndpoint_touches, Hr.
  - destruct Hr as [_ ->]. done.
Qed.

(** A loop whose iterations stay within their own type stays within the
    types it iterates over. *)
Lemma forRange_touches {X V} (key : X → string) (Q : string → Prop)
    (body : X → M St V unit) (l : list X) :
  (∀ x s out s', body x s = (out, s') → touches (λ t, t = key x ∧ Q t) s s') →
  ∀ s out s', forRange l body s = (out, s') →
              touches (λ t, t ∈ key <$> l ∧ Q t) s s'.
Proof.
  intros Hbody. induction l as [|x l IH]; intros s out s' Hr.
  - inversion Hr; subst. apply touches_refl.
  - apply forRange_cons_inv in Hr.
    destruct Hr as [(s1 & Hx & Hl)|[Hx _]].
    + eapply touches_trans.
      * eapply touches_mono; [|eapply Hbody, Hx].
        intros t [-> ?]. split; [|done]. rewrite fmap_cons. left.
      * eapply touches_mono; [|eapply IH, Hl].
        intros t [? ?]. split; [|done]. rewrite fmap_cons. by right.
    + eapply touches_mono; [|eapply Hbody, Hx].
      intros t [-> ?]. split; [|done]. rewrite fmap_cons. left.
Qed.

End EngineSteps.

Section EnginePasses.
Context `{LibCommon}.

(** The sync engine is its retire loop followed, if that loop ran to its
    end, by its converge loop. *)
Lemma reconcileEndpoints_inv os ro co s out s' :
  reconcileEndpoints os ro co s = (out, s') →
  ∃ outr sr,
    (match EndpointIDs (Status (instance s)) with
     | Some _ => forRange ro (retireStep os) s
     | None => (Next tt, s)
     end) = (outr, sr) ∧
    ((outr = Next tt ∧ forRange co (convergeStep os) sr = (out, s')) ∨
     (outr ≠ Next tt ∧ out = outr ∧ s' = sr)).
Proof.
  unfold reconcileEndpoints. unfold bind at 1 2. unfold getInstance. simpl.
  destruct (EndpointIDs (Status (instance s))) as [m|].
  - destruct (forRange ro (retireStep os) s) as [[[]|v|] sr]; intros Hr.
    + exists (Next tt), sr. eauto.
    + inversion Hr; subst. eexists _, _. split; [done|]. right. done.
    + inversion Hr; subst. eexists _, _. split; [done|]. right. done.
  - unfold ret. intros Hr. exists (Next tt), s. eauto.
Qed.

Lemma retireLoop_touches os ro s out s' :
  forRange ro (retireStep os) s = (out, s') →
  touches (λ t, t ∈ ro ∧ SpecEndpoints (Spec (instance s)) !! t = None) s s'.
Proof.
  revert s. induction ro as [|x l IH]; intros s Hr.
  - inversion Hr; subst. apply touches_refl.
  - apply forRange_cons_inv in Hr.
    destruct Hr as [(s1 & Hx & Hl)|[Hx _]].
    + pose proof (retireStep_touches _ _ _ _ _ Hx) as Hs.
      eapply touches_trans.
      * eapply touches_mono; [|exact Hs]. intros t [-> ?]. split; [left|done].
      * eapply touches_mono; [|eapply IH, Hl].
        destruct (touches_spec _ _ _ Hs) as [-> _].
        intros t [? ?]. split; [by right|done].
    + eapply touches_mono; [|eapply retireStep_touches, Hx].
      intros t [-> ?]. split; [left|done].
Qed.

Lemma convergeLoop_touches os (co : list (string * string)) s out s' :
  forRange co (convergeStep os) s = (out, s') →
  touches (λ t, t ∈ co.*1) s s'.
Proof.
  intros Hr.
  eapply touches_mono;
    [|eapply (forRange_touches fst (λ _, True) (convergeStep os) co), Hr].
  - intros t [? _]. done.
  - intros [ty url] s0 out0 s0' Hs.
    eapply touches_mono; [|eapply convergeStep_touches, Hs]. simpl. done.
Qed.

(** *** Recorded identifiers *)

Lemma retireStep_ids os ty s out s' :
  retireStep os ty s = (out, s') →
  (∀ k v, idsOf s' !! k = Some v → idsOf s !! k = Some v) ∧
  (out = Next tt → SpecEndpoints (Spec (instance s)) !! ty = None →
   idsOf s' !! ty = None).
Proof.
  intros Hr. apply retireStep_inv in Hr. simpl in Hr.
  destruct Hr as [(Hs & _ & ->)|(Hspec & [(err & _ & -> & ->)|[(_ & -> & ->)|Hr]])].
  - split; [done|]. intros _ Hn. rewrite Hn in Hs. by destruct Hs.
  - done.
  - done.
  - destruct Hr as (c & a & res & r' & _ & _ & _ & Hr).
    destruct res as [err|]; destruct Hr as [-> ->]; unfold idsOf; simpl.
    + done.
    + destruct (EndpointIDs (Status (instance s))) as [m|]; simpl.
      * split; [|intros; apply lookup_delete_eq].
        intros k v Hk. apply lookup_delete_Some in Hk. tauto.
      * done.
Qed.

Lemma retireLoop_ids os ro s s' :
  forRange ro (retireStep os) s = (Next tt, s') →
  (∀ k v, idsOf s' !! k = Some v → idsOf s !! k = Some v) ∧
  (∀ k, k ∈ ro → SpecEndpoints (Spec (instance s)) !! k = None →
        idsOf s' !! k = None).
Proof.
  revert s. induction ro as [|x l IH]; intros s Hr.
  - inversion Hr; subst. split; [done|]. intros k Hk. by apply elem_of_nil in Hk.
  - apply forRange_cons_inv in Hr.
    destruct Hr as [(s1 & Hx & Hl)|[_ Hne]]; [|done].
    destruct (retireStep_ids _ _ _ _ _ Hx) as [Hsub Hgone].
    destruct (touches_spec _ _ _ (retireStep_touches _ _ _ _ _ Hx)) as [Hsp _].
    destruct (IH _ Hl) as [Hsub' Hgone']. rewrite Hsp in Hgone'.
    split; [by eauto|].
    intros k Hk Hspec. destruct (decide (k ∈ l)) as [Hin|Hin]; [by auto|].
    apply elem_of_cons in Hk as [->|?]; [|done].
    specialize (Hgone eq_refl Hspec).
    destruct (idsOf s' !! x) as [v|] eqn:E; [|done].
    apply Hsub' in E. congruence.
Qed.

Lemma recordEndpoint_ids ty url id s out s' :
  recordEndpoint ty url id s = (out, s') →
  ∀ k, is_Some (idsOf s' !! k) →
       is_Some (idsOf s !! k) ∨
       is_Some (SpecEndpoints (Spec (instance s)) !! k).
Proof.
  intros Hr. apply recordEndpoint_inv in Hr. simpl in Hr.
  destruct Hr as [(_ & _ & ->)|(_ & [(_ & _ & _ & ->)|(_ & ids & Hids & ->)])];
    try by left.
  intros k. unfold idsOf. simpl.
  destruct Hids as [[_ ->]|(Hs & m & -> & ->)]; [by left|]. simpl.
  destruct (decide (k = ty)) as [->|Hne]; [by right|].
  rewrite lookup_insert_ne; [by left|done].
Qed.

Lemma convergeStep_ids os ty url s out s' :
  convergeStep os (ty, url) s = (out, s') →
  ∀ k, is_Some (idsOf s' !! k) →
       is_Some (idsOf s !! k) ∨
       is_Some (SpecEndpoints (Spec (instance s)) !! k).
Proof.
  intros Hr. apply convergeStep_inv in Hr. simpl in Hr.
  destruct Hr as [(err & _ & _ & ->)|[(_ & _ & ->)|Hr]]; try by left.
  destruct Hr as (c & a & res & s1 & _ & _ & _ & -> & Hr).
  destruct res as [err|[|e [|e2 l]]].
  - destruct Hr as [_ ->]. by left.
  - destruct Hr as (cres & r' & _ & Hr). simpl in Hr.
    destruct cres as [err|id]; [destruct Hr as [_ ->]; by left|].
    exact (recordEndpoint_ids _ _ _ _ _ _ Hr).
  - case_bool_decide.
    + destruct Hr as (ures & r' & _ & Hr). simpl in Hr.
      destruct ures as [err|id]; [destruct Hr as [_ ->]; by left|].
      exact (recordEndpoint_ids _ _ _ _ _ _ Hr).
    + exact (recordEndpoint_ids _ _ _ _ _ _ Hr).
  - destruct Hr as [_ ->]. by left.
Qed.

Lemma convergeLoop_ids os co s out s' :
  forRange co (convergeStep os) s = (out, s') →
  ∀ k, is_Some (idsOf s' !! k) →
       is_Some (idsOf s !! k) ∨
       is_Some (SpecEndpoints (Spec (instance s)) !! k).
Proof.
  revert s. induction co as [|[ty url] l IH]; intros s Hr k Hk.
  - inversion Hr; subst. by left.
  - apply forRange_cons_inv in Hr.
    destruct Hr as [(s1 & Hx & Hl)|[Hx _]].
    + destruct (touches_spec _ _ _ (convergeStep_touches _ _ _ _ _ _ Hx))
        as [Hsp _].
      destruct (IH _ Hl k Hk) as [Hk1|Hk1].
      * eapply convergeStep_ids; eauto.
      * right. by rewrite <- Hsp.
    + eapply convergeStep_ids; eauto.
Qed.

(** C9.  After a sync pass that returned without error, every key of
    [Status.EndpointIDs] is a key of [Spec.Endpoints]: the retire loop,
    which visits every recorded key, has dropped the keys the spec no
    longer has, and the converge loop records only keys of the spec. *)
Theorem EndpointIDs_subset_of_spec_after_sync os ro co s s' :
  keyRangeOf (idsOf s) ro →
  reconcileEndpoints os ro co s = (Next tt, s') →
  dom (idsOf s') ⊆ dom (SpecEndpoints (Spec (instance s'))).
Proof.
  intros Hro Hr. apply reconcileEndpoints_inv in Hr.
  destruct Hr as (outr & sr & Hret & [[-> Hconv]|(Hne & <- & _)]); [|done].
  destruct (touches_spec _ _ _ (convergeLoop_touches _ _ _ _ _ Hconv))
    as [Hsp2 _].
  assert (Spec (instance sr) = Spec (instance s) ∧
          ∀ k, is_Some (idsOf sr !! k) →
               is_Some (SpecEndpoints (Spec (instance s)) !! k)) as [Hsp1 Hsr].
  { unfold idsOf in *.
    destruct (EndpointIDs (Status (instance s))) as [m|] eqn:Hm.
    - destruct (touches_spec _ _ _ (retireLoop_touches _ _ _ _ _ Hret))
        as [Hsp _].
      split; [done|]. intros k [v Hk].
      destruct (retireLoop_ids _ _ _ _ Hret) as [Hsub Hgone].
      unfold idsOf in *. rewrite Hm in *. simpl in *.
      destruct (SpecEndpoints (Spec (instance s)) !! k) eqn:Hspec; [done|].
      assert (k ∈ ro) as Hin.
      { apply Hsub in Hk. unfold keyRangeOf in Hro. rewrite Hro.
        apply list_elem_of_fmap. exists (k, v). split; [done|].
        by apply elem_of_map_to_list. }
      rewrite (Hgone k Hin Hspec) in Hk. done.
    - inversion Hret; subst. split; [done|]. rewrite Hm. simpl.
      intros k [v Hk]. by rewrite lookup_empty in Hk. }
  intros k Hk. apply elem_of_dom in Hk. apply elem_of_dom.
  rewrite Hsp2, Hsp1.
  destruct (convergeLoop_ids _ _ _ _ _ Hconv k Hk) as [Hk'|Hk'].
  - by apply Hsr.
  - by rewrite <- Hsp1.
Qed.

(** *** Calls of the two loops *)

Lemma retireStep_trace os ty s out s' :
  retireStep os ty s = (out, s') →
  ∃ new, trace s' = trace s ++ new ∧
         Forall (λ e, isDelete e = true ∧ evType e = Some ty) new ∧
         (out = Next tt →
          length new =
          match SpecEndpoints (Spec (instance s)) !! ty with
          | Some _ => 0%nat
          | None => 1%nat
          end).
Proof.
  intros Hr. apply retireStep_inv in Hr. simpl in Hr.
  destruct Hr as [(Hs & -> & ->)|(Hspec & [(err & _ & -> & ->)|[(_ & -> & ->)|Hr]])].
  - exists []. rewrite app_nil_r. destruct Hs as [u ->]. done.
  - exists []. rewrite app_nil_r. done.
  - exists []. rewrite app_nil_r. done.
  - destruct Hr as (c & a & res & r' & _ & _ & _ & Hr).
    destruct res as [err|]; destruct Hr as [-> ->]; simpl;
      (eexists; split; [done|]); (split; [by repeat constructor|]).
    + done.
    + by rewrite Hspec.
Qed.

Lemma retireLoop_trace os ro s out s' :
  forRange ro (retireStep os) s = (out, s') →
  ∃ new, trace s' = trace s ++ new ∧
         Forall (λ e, isDelete e = true) new ∧
         (out = Next tt → NoDup ro →
          ∀ ty, length (filter (λ e, evType e = Some ty) new) =
                if decide (ty ∈ ro ∧
                           SpecEndpoints (Spec (instance s)) !! ty = None)
                then 1%nat else 0%nat).
Proof.
  revert s. induction ro as [|x l IH]; intros s Hr.
  - inversion Hr; subst. exists []. rewrite app_nil_r.
    split; [done|]. split; [done|]. intros _ _ ty. done.
  - apply forRange_cons_inv in Hr.
    destruct Hr as [(s1 & Hx & Hl)|[Hx Hne]].
    + destruct (retireStep_trace _ _ _ _ _ Hx) as (n1 & Ht1 & Hf1 & Hlen).
      destruct (touches_spec _ _ _ (retireStep_touches _ _ _ _ _ Hx)) as [Hsp _].
      destruct (IH _ Hl) as (n2 & Ht2 & Hf2 & Hcount).
      exists (n1 ++ n2). rewrite Ht2, Ht1, app_assoc. split; [done|].
      split.
      { apply Forall_app. split; [|done].
        eapply Forall_impl; [exact Hf1|]. by intros e [? _]. }
      intros -> Hnd ty. apply NoDup_cons in Hnd as [Hxl Hnd].
      rewrite filter_app, length_app, (Hcount eq_refl Hnd ty), Hsp.
      specialize (Hlen eq_refl).
      destruct (decide (ty = x)) as [->|Hty].
      * assert (filter (λ e, evType e = Some x) n1 = n1) as ->.
        { clear -Hf1. induction Hf1 as [|e n [_ He] _ IHn]; [done|].
          rewrite filter_cons_True; [by f_equal|done]. }
        rewrite Hlen.
        destruct (SpecEndpoints (Spec (instance s)) !! x) eqn:Hspec.
        -- rewrite !decide_False by (by intros [_ ?]). done.
        -- rewrite decide_False by (by intros [? _]).
           rewrite decide_True by (split; [left|done]). done.
      * assert (filter (λ e, evType e = Some ty) n1 = []) as ->.
        { clear -Hf1 Hty. induction Hf1 as [|e n [_ He] _ IHn]; [done|].
          rewrite filter_cons_False; [done|]. rewrite He. congruence. }
        simpl. apply decide_ext. rewrite elem_of_cons.
        split; [intros [? ?]; split; [by right|done]|].
        intros [[?|?] ?]; [done|by split].
    + destruct (retireStep_trace _ _ _ _ _ Hx) as (n1 & Ht1 & Hf1 & _).
      exists n1. split; [done|]. split.
      { eapply Forall_impl; [exact Hf1|]. by intros e [? _]. }
      intros ->. done.
Qed.

Lemma convergeStep_trace os ty url s out s' :
  convergeStep os (ty, url) s = (out, s') →
  ∃ new, trace s' = trace s ++ new ∧ Forall (λ e, isDelete e = false) new.
Proof.
  intros Hr. apply convergeStep_inv in Hr. simpl in Hr.
  destruct Hr as [(err & _ & _ & ->)|[(_ & _ & ->)|Hr]];
    try (exists []; by rewrite app_nil_r).
  destruct Hr as (c & a & res & s1 & _ & _ & _ & -> & Hr).
  assert (∀ id s2 new, trace s2 = trace s ++ new →
            Forall (λ e, isDelete e = false) new →
            recordEndpoint ty url id s2 = (out, s') →
            ∃ new, trace s' = trace s ++ new ∧
                   Forall (λ e, isDelete e = false) new) as Hrec.
  { intros id s2 new Ht Hf Hq. exists new. split; [|done].
    apply recordEndpoint_inv in Hq. simpl in Hq.
    destruct Hq as [(_ & _ & ->)|(_ & [(_ & _ & _ & ->)|(_ & ids & _ & ->)])];
      done. }
  destruct res as [err|[|e [|e2 l]]].
  - destruct Hr as [_ ->]. eexists. split; [done|]. by repeat constructor.
  - destruct Hr as (cres & r' & _ & Hr). simpl in Hr.
    destruct cres as [err|id].
    + destruct Hr as [_ ->]. simpl. rewrite <- app_assoc.
      eexists. split; [done|]. by repeat constructor.
    + eapply Hrec; [| |exact Hr]; simpl; [by rewrite <- app_assoc|].
      by repeat constructor.
  - case_bool_decide.
    + destruct Hr as (ures & r' & _ & Hr). simpl in Hr.
      destruct ures as [err|id].
      * destruct Hr as [_ ->]. simpl. rewrite <- app_assoc.
        eexists. split; [done|]. by repeat constructor.
      * eapply Hrec; [| |exact Hr]; simpl; [by rewrite <- app_assoc|].
        by repeat constructor.
    + eapply Hrec; [| |exact Hr]; simpl; [done|]. by repeat constructor.
  - destruct Hr as [_ ->]. eexists. split; [done|]. by repeat constructor.
Qed.

Lemma convergeLoop_trace os co s out s' :
  forRange co (convergeStep os) s = (out, s') →
  ∃ new, trace s' = trace s ++ new ∧ Forall (λ e, isDelete e = false) new.
Proof.
  revert s. induction co as [|[ty url] l IH]; intros s Hr.
  - inversion Hr; subst. exists []. by rewrite app_nil_r.
  - apply forRange_cons_inv in Hr.
    destruct Hr as [(s1 & Hx & Hl)|[Hx _]].
    + destruct (convergeStep_trace _ _ _ _ _ _ Hx) as (n1 & Ht1 & Hf1).
      destruct (IH _ Hl) as (n2 & Ht2 & Hf2).
      exists (n1 ++ n2). rewrite Ht2, Ht1, app_assoc. split; [done|].
      by apply Forall_app.
    + eapply convergeStep_trace, Hx.
Qed.

(** *** The status entry of a retired type *)

Lemma filter_removeAt_first (eps : list Endpoint) ty :
  filter (λ e, Interface e = ty)
    (let idx := getEndpointIdx ty eps in
     if (idx >=? 0)%Z then removeAt eps idx else eps) =
  tail (filter (λ e, Interface e = ty) eps).
Proof.
  unfold getEndpointIdx, removeAt. simpl.
  induction eps as [|x l IH]; [done|]. simpl.
  case_bool_decide as Hx.
  - simpl. rewrite drop_0. by rewrite filter_cons_True.
  - rewrite filter_cons_False by done. rewrite <- IH.
    destruct (IndexFunc_range l (λ e : Endpoint, bool_decide (Interface e = ty)))
      as [Hm|Hr].
    + rewrite Hm. simpl. rewrite filter_cons_False; done.
    + destruct (Z.ltb_spec (IndexFunc l
                  (λ e : Endpoint, bool_decide (Interface e = ty))) 0); [lia|].
      destruct (Z.geb_spec (IndexFunc l
                  (λ e : Endpoint, bool_decide (Interface e = ty)) + 1) 0);
        [|lia].
      destruct (Z.geb_spec (IndexFunc l
                  (λ e : Endpoint, bool_decide (Interface e = ty))) 0); [|lia].
      replace (Z.to_nat (IndexFunc l _ + 1)) with
        (S (Z.to_nat (IndexFunc l
                        (λ e : Endpoint, bool_decide (Interface e = ty)))))
        by lia.
      replace (Z.to_nat (IndexFunc l _ + 1 + 1)) with
        (S (S (Z.to_nat (IndexFunc l
                        (λ e : Endpoint, bool_decide (Interface e = ty))))))
        by lia.
      simpl. rewrite filter_cons_False; done.
Qed.

Lemma NoDup_entries (eps : list Endpoint) ty :
  NoDup (Interface <$> eps) →
  tail (filter (λ e, Interface e = ty) eps) = [].
Proof.
  induction eps as [|x l IH]; [done|]. rewrite fmap_cons.
  intros [Hx Hl]%NoDup_cons.
  destruct (decide (Interface x = ty)) as [<-|Hne].
  - rewrite filter_cons_True by done. simpl.
    clear -Hx. induction l as [|y l IH]; [done|].
    rewrite fmap_cons in Hx. apply not_elem_of_cons in Hx as [Hy Hl].
    rewrite filter_cons_False by done. auto.
  - rewrite filter_cons_False by done. auto.
Qed.

Lemma retireStep_entries os ty s s' :
  retireStep os ty s = (Next tt, s') →
  SpecEndpoints (Spec (instance s)) !! ty = None →
  entriesOf ty s' = tail (entriesOf ty s).
Proof.
  intros Hr Hspec. apply retireStep_inv in Hr. simpl in Hr.
  destruct Hr as [(Hs & _ & _)|(_ & [(err & _ & ? & _)|[(_ & ? & _)|Hr]])];
    try done.
  { rewrite Hspec in Hs. by destruct Hs. }
  destruct Hr as (c & a & res & r' & _ & _ & _ & Hr).
  destruct res as [err|]; destruct Hr as [? ->]; [done|].
  unfold entriesOf. simpl. apply filter_removeAt_first.
Qed.

(** C4.  A type that has a recorded identifier but is no longer in the
    spec is retired by a sync pass that returns without error: the pass
    makes exactly one delete call for it, drops it from
    [Status.EndpointIDs] and removes its entry from [Status.Endpoints]
    (the first entry of that interface, hence every entry when the list
    has one entry per interface).  All the delete calls of the pass come
    before all its other calls: the retire loop runs before the converge
    loop. *)
Theorem retire_removed_type os ro co s s' ty :
  keyRangeOf (idsOf s) ro →
  rangeOf (SpecEndpoints (Spec (instance s))) co →
  is_Some (idsOf s !! ty) →
  SpecEndpoints (Spec (instance s)) !! ty = None →
  reconcileEndpoints os ro co s = (Next tt, s') →
  ∃ retired converged,
    trace s' = trace s ++ retired ++ converged ∧
    Forall (λ e, isDelete e = true) retired ∧
    Forall (λ e, isDelete e = false) converged ∧
    length (filter (λ e, isDelete e = true ∧ evType e = Some ty)
              (retired ++ converged)) = 1%nat ∧
    idsOf s' !! ty = None ∧
    entriesOf ty s' = tail (entriesOf ty s) ∧
    (NoDup (Interface <$> Endpoints (Status (instance s))) →
     entriesOf ty s' = []).
Proof.
  intros Hro Hco [v Hid] Hspec Hr. apply reconcileEndpoints_inv in Hr.
  destruct Hr as (outr & sr & Hret & [[-> Hconv]|(Hne & <- & _)]); [|done].
  assert (∃ m, EndpointIDs (Status (instance s)) = Some m) as [m Hm].
  { unfold idsOf in Hid. destruct (EndpointIDs (Status (instance s))); [eauto|].
    simpl in Hid. by rewrite lookup_empty in Hid. }
  rewrite Hm in Hret.
  assert (ty ∈ ro) as Hin.
  { unfold keyRangeOf in Hro. rewrite Hro. apply list_elem_of_fmap.
    exists (ty, v). split; [done|]. by apply elem_of_map_to_list. }
  assert (NoDup ro) as Hnd.
  { unfold keyRangeOf in Hro. rewrite Hro. apply NoDup_fst_map_to_list. }
  assert (ty ∉ co.*1) as Hnotin.
  { unfold rangeOf in Hco. rewrite Hco. intros Hc.
    apply list_elem_of_fmap in Hc as ([k u] & -> & Hc).
    apply elem_of_map_to_list in Hc. simpl in Hspec. congruence. }
  destruct (retireLoop_trace _ _ _ _ _ Hret) as (n1 & Ht1 & Hf1 & Hcount).
  destruct (convergeLoop_trace _ _ _ _ _ Hconv) as (n2 & Ht2 & Hf2).
  destruct (convergeLoop_touches _ _ _ _ _ Hconv) as (_ & _ & _ & Hframe).
  destruct (Hframe ty Hnotin) as [Hids Heps].
  assert (entriesOf ty sr = tail (entriesOf ty s)) as Hentries.
  { clear -Hret Hin Hnd Hspec.
    revert s Hret Hspec. induction ro as [|x l IH]; intros s Hret Hspec.
    - by apply elem_of_nil in Hin.
    - apply NoDup_cons in Hnd as [Hxl Hnd].
      apply forRange_cons_inv in Hret.
      destruct Hret as [(s1 & Hx & Hl)|[_ ?]]; [|done].
      pose proof (retireStep_touches _ _ _ _ _ Hx) as Hs.
      destruct (touches_spec _ _ _ Hs) as [Hsp _].
      destruct (decide (ty = x)) as [->|Hty].
      + destruct (retireLoop_touches _ _ _ _ _ Hl) as (_ & _ & _ & Hfr).
        destruct (Hfr x) as [_ ->]; [tauto|].
        by apply (retireStep_entries os).
      + destruct Hs as (_ & _ & _ & Hfr).
        destruct (Hfr ty) as [_ <-]; [tauto|].
        apply elem_of_cons in Hin as [?|Hin]; [done|].
        apply IH; [done|done|done|by rewrite Hsp]. }
  exists n1, n2. rewrite Ht2, Ht1, app_assoc.
  split; [done|]. split; [done|]. split; [done|]. split.
  { rewrite filter_app, length_app.
    assert (filter (λ e, isDelete e = true ∧ evType e = Some ty) n2 = []) as ->.
    { clear -Hf2. induction Hf2 as [|e n He _ IHn]; [done|].
      rewrite filter_cons_False; [done|]. rewrite He. by intros []. }
    assert (filter (λ e, isDelete e = true ∧ evType e = Some ty) n1 =
            filter (λ e, evType e = Some ty) n1) as ->.
    { clear -Hf1. induction Hf1 as [|e n He _ IHn]; [done|].
      rewrite !filter_cons, IHn.
      destruct (decide (evType e = Some ty)); repeat case_decide; tauto. }
    rewrite (Hcount eq_refl Hnd ty). case_decide; [done|tauto]. }
  split.
  { rewrite Hids. destruct (retireLoop_ids _ _ _ _ Hret) as [_ Hg]. by apply Hg. }
  split; [by rewrite Heps|].
  intros Hnodup. rewrite Heps, Hentries. by apply NoDup_entries.
Qed.

(** *** A pass over an instance that is already in sync *)

Lemma retireLoop_noop os ro s :
  (∀ k, k ∈ ro → is_Some (SpecEndpoints (Spec (instance s)) !! k)) →
  forRange ro (retireStep os) s = (Next tt, s).
Proof.
  induction ro as [|x l IH]; intros Hin; [done|].
  simpl. unfold bind at 1.
  assert (retireStep os x s = (Next tt, s)) as ->.
  { unfold retireStep, bind, getInstance. simpl.
    destruct (Hin x) as [u ->]; [left|done]. }
  apply IH. intros k Hk. apply Hin. by right.
Qed.

Lemma recordEndpoint_quiet ty url id s out s' :
  recordEndpoint ty url id s = (out, s') →
  remote s' = remote s ∧ trace s' = trace s.
Proof.
  intros Hr. apply recordEndpoint_inv in Hr. simpl in Hr.
  destruct Hr as [(_ & _ & ->)|(_ & [(_ & _ & _ & ->)|(_ & ids & _ & ->)])];
    done.
Qed.

Lemma convergeStep_in_sync c ty url s out s' e :
  osGetEndpoints c (remote s) (ServiceID (Status (instance s))) ty = inr [e] →
  reURL e = url →
  convergeStep (Some c) (ty, url) s = (out, s') →
  remote s' = remote s ∧
  ∃ new, trace s' = trace s ++ new ∧ Forall (λ ev, isMutation ev = false) new.
Proof.
  intros Hget Hurl Hr. apply convergeStep_inv in Hr. simpl in Hr.
  destruct Hr as [(err & _ & _ & ->)|[(? & _ & _)|Hr]]; [|done|].
  { split; [done|]. exists []. by rewrite app_nil_r. }
  destruct Hr as (c' & a & res & s1 & [= <-] & _ & -> & -> & Hr).
  rewrite Hget in Hr. rewrite bool_decide_eq_false_2 in Hr by (by intros []).
  destruct (recordEndpoint_quiet _ _ _ _ _ _ Hr) as [-> ->]. simpl.
  split; [done|]. eexists. split; [done|]. by repeat constructor.
Qed.

Lemma convergeLoop_in_sync c co s out s' r0 sid0 :
  remote s = r0 → ServiceID (Status (instance s)) = sid0 →
  (∀ kv, kv ∈ co →
         ∃ e, osGetEndpoints c r0 sid0 kv.1 = inr [e] ∧ reURL e = kv.2) →
  forRange co (convergeStep (Some c)) s = (out, s') →
  remote s' = r0 ∧
  ∃ new, trace s' = trace s ++ new ∧ Forall (λ ev, isMutation ev = false) new.
Proof.
  revert s. induction co as [|[ty url] l IH]; intros s Hr0 Hsid Hall Hconv.
  - inversion Hconv; subst. split; [done|]. exists []. by rewrite app_nil_r.
  - destruct (Hall (ty, url)) as (e & Hget & Hurl); [left|].
    simpl in Hget, Hurl. rewrite <- Hr0, <- Hsid in Hget.
    apply forRange_cons_inv in Hconv.
    destruct Hconv as [(s1 & Hx & Hl)|[Hx _]].
    + destruct (convergeStep_in_sync _ _ _ _ _ _ _ Hget Hurl Hx)
        as (Hrem & n1 & Ht1 & Hf1).
      destruct (touches_spec _ _ _ (convergeStep_touches _ _ _ _ _ _ Hx))
        as [_ Hsid1].
      destruct (IH s1) as (Hrem2 & n2 & Ht2 & Hf2); try done; try congruence.
      { intros kv Hkv. apply Hall. by right. }
      split; [done|]. exists (n1 ++ n2). rewrite Ht2, Ht1, app_assoc.
      split; [done|]. by apply Forall_app.
    + destruct (convergeStep_in_sync _ _ _ _ _ _ _ Hget Hurl Hx)
        as (Hrem & n1 & Ht1 & Hf1).
      split; [congruence|]. eauto.
Qed.

(** C1.  When the recorded state already matches the spec (the keys of
    [Status.EndpointIDs] are those of [Spec.Endpoints] and, for every
    type of the spec, the identity service lists exactly one endpoint,
    with the desired URL), a pass of the sync engine makes no create,
    update or delete call and leaves the identity service as it was,
    whatever order the runtime iterates in and however the pass ends. *)
Theorem sync_in_sync_makes_no_mutation c ro co s out s' :
  keyRangeOf (idsOf s) ro →
  rangeOf (SpecEndpoints (Spec (instance s))) co →
  dom (idsOf s) = dom (SpecEndpoints (Spec (instance s))) →
  (∀ ty url,
     SpecEndpoints (Spec (instance s)) !! ty = Some url →
     ∃ e, osGetEndpoints c (remote s) (ServiceID (Status (instance s))) ty
          = inr [e] ∧ reURL e = url) →
  reconcileEndpoints (Some c) ro co s = (out, s') →
  remote s' = remote s ∧
  ∃ new, trace s' = trace s ++ new ∧ Forall (λ e, isMutation e = false) new.
Proof.
  intros Hro Hco Hdom Hsync Hr. apply reconcileEndpoints_inv in Hr.
  assert (forRange ro (retireStep (Some c)) s = (Next tt, s)) as Hret.
  { apply retireLoop_noop. intros k Hk. apply elem_of_dom. rewrite <- Hdom.
    apply elem_of_dom. unfold keyRangeOf in Hro. rewrite Hro in Hk.
    apply list_elem_of_fmap in Hk as ([k' v] & -> & Hk).
    apply elem_of_map_to_list in Hk. eauto. }
  destruct Hr as (outr & sr & Hret' & Hr).
  assert (outr = Next tt ∧ sr = s) as [-> ->].
  { destruct (EndpointIDs (Status (instance s))); [|by inversion Hret'].
    rewrite Hret in Hret'. by inversion Hret'. }
  destruct Hr as [[_ Hconv]|[? _]]; [|done].
  eapply convergeLoop_in_sync; [done|done| |exact Hconv].
  intros [ty url] Hkv. apply Hsync. apply elem_of_map_to_list.
  unfold rangeOf in Hco. by rewrite <- Hco.
Qed.

(** *** Queries and their answers *)

(** The one query of a converge iteration: the type is queried first, at
    most once, and an answer with more than one endpoint ends the
    iteration with the error, before any other call and before any
    change of the instance. *)
Lemma convergeStep_query os ty url s out s' :
  convergeStep os (ty, url) s = (out, s') →
  ∃ new, trace s' = trace s ++ new ∧
    queriedTypes new `prefix_of` [ty] ∧
    (out = Next tt → queriedTypes new = [ty]) ∧
    (out ≠ Next tt → instance s' = instance s) ∧
    ∀ sid t l, EvGetEndpoints sid t (inr l) ∈ new → (1 < length l)%nat →
      new = [EvGetEndpoints sid t (inr l)] ∧
      instance s' = instance s ∧
      out = Return
              (WrapErrorForObject
                 ("multiple endpoints registered for service:"
                    +:+ ServiceName (Spec (instance s)) +:+ " type: " +:+ ty)
                 (instance s) None).
Proof.
  intros Hr. apply convergeStep_inv in Hr. simpl in Hr.
  destruct Hr as [(err & _ & -> & ->)|[(_ & -> & ->)|Hr]].
  1,2: exists []; rewrite app_nil_r; split; [done|]; split;
       [apply prefix_nil|]; split; [done|]; split; [done|];
       intros sid t l Hin; by apply elem_of_nil in Hin.
  destruct Hr as (c & a & res & s1 & _ & _ & Hres & -> & Hr).
  assert (∀ id s2 extra,
            instance s2 = instance s →
            trace s2 = trace s ++
              EvGetEndpoints (ServiceID (Status (instance s))) ty res :: extra →
            queriedTypes extra = [] →
            (∀ sid t l, EvGetEndpoints sid t (inr l) ∈ extra → False) →
            (match res with inr l => (length l ≤ 1)%nat | inl _ => True end) →
            recordEndpoint ty url id s2 = (out, s') →
            ∃ new, trace s' = trace s ++ new ∧
              queriedTypes new `prefix_of` [ty] ∧
              (out = Next tt → queriedTypes new = [ty]) ∧
              (out ≠ Next tt → instance s' = instance s) ∧
              ∀ sid t l, EvGetEndpoints sid t (inr l) ∈ new →
                (1 < length l)%nat →
                new = [EvGetEndpoints sid t (inr l)] ∧
                instance s' = instance s ∧
                out = Return
                        (WrapErrorForObject
                           ("multiple endpoints registered for service:"
                              +:+ ServiceName (Spec (instance s))
                              +:+ " type: " +:+ ty)
                           (instance s) None)) as Hrec.
  { clear Hres Hr. intros id s2 extra Hi Ht Hq Hno Hlen Hrq.
    destruct (recordEndpoint_quiet _ _ _ _ _ _ Hrq) as [_ Htr].
    eexists. split; [by rewrite Htr, Ht|].
    assert (queriedTypes
              (EvGetEndpoints (ServiceID (Status (instance s))) ty res :: extra)
            = [ty]) as Hqt
      by (change (ty :: queriedTypes extra = [ty]); by rewrite Hq).
    split; [by rewrite Hqt|]. split; [done|]. split.
    { intros Hne. rewrite <- Hi.
      apply recordEndpoint_inv in Hrq. simpl in Hrq.
      destruct Hrq as [(_ & ? & _)|(_ & [(_ & _ & _ & ->)|(? & _)])]; done. }
    intros sid t l Hin Hl. apply elem_of_cons in Hin as [Heq|Hin].
    - simplify_eq/=. lia.
    - by destruct (Hno _ _ _ Hin). }
  destruct res as [err|[|e [|e2 l]]].
  - destruct Hr as [-> ->]. simpl. eexists. split; [done|].
    split; [done|]. split; [done|]. split; [done|].
    intros sid t l Hin. apply list_elem_of_singleton in Hin. done.
  - destruct Hr as (cres & r' & _ & Hr). simpl in Hr.
    destruct cres as [err|id].
    + destruct Hr as [-> ->]. simpl. rewrite <- app_assoc.
      eexists. split; [done|]. split; [done|]. split; [done|]. split; [done|].
      intros sid t l Hin Hl.
      apply elem_of_cons in Hin as [Heq|Hin]; [simplify_eq/=; lia|].
      apply list_elem_of_singleton in Hin. done.
    + eapply Hrec; [| | | | |exact Hr]; simpl;
        [done|by rewrite <- app_assoc|done| |lia].
      intros sid t l Hin. apply list_elem_of_singleton in Hin. done.
  - case_bool_decide.
    + destruct Hr as (ures & r' & _ & Hr). simpl in Hr.
      destruct ures as [err|id].
      * destruct Hr as [-> ->]. simpl. rewrite <- app_assoc.
        eexists. split; [done|]. split; [done|]. split; [done|].
        split; [done|].
        intros sid t l Hin Hl.
        apply elem_of_cons in Hin as [Heq|Hin]; [simplify_eq/=; lia|].
        apply list_elem_of_singleton in Hin. done.
      * eapply Hrec; [| | | | |exact Hr]; simpl;
          [done|by rewrite <- app_assoc|done| |lia].
        intros sid t l Hin. apply list_elem_of_singleton in Hin. done.
    + eapply (Hrec _ _ []); [| | | | |exact Hr]; simpl; [done|done|done| |lia].
      intros sid t l Hin. by apply elem_of_nil in Hin.
  - destruct Hr as [-> ->]. simpl. eexists. split; [done|].
    split; [done|]. split; [done|]. split; [done|].
    intros sid t l' Hin _. apply list_elem_of_singleton in Hin.
    inversion Hin; subst. done.
Qed.

Lemma queriedTypes_app (a b : list Event) :
  queriedTypes (a ++ b) = queriedTypes a ++ queriedTypes b.
Proof. unfold queriedTypes. apply omap_app. Qed.

Lemma queriedTypes_deletes (tr : list Event) :
  Forall (λ e, isDelete e = true) tr → queriedTypes tr = [].
Proof.
  induction 1 as [|e l He _ IH]; [done|].
  destruct e; try discriminate He. exact IH.
Qed.

Lemma convergeLoop_query os co s out s' :
  forRange co (convergeStep os) s = (out, s') →
  ∃ new, trace s' = trace s ++ new ∧
    queriedTypes new `prefix_of` co.*1 ∧
    (out = Next tt → queriedTypes new = co.*1).
Proof.
  revert s. induction co as [|[ty url] l IH]; intros s Hr.
  - inversion Hr; subst. exists []. by rewrite app_nil_r.
  - apply forRange_cons_inv in Hr.
    destruct Hr as [(s1 & Hx & Hl)|[Hx Hne]].
    + destruct (convergeStep_query _ _ _ _ _ _ Hx) as (n1 & Ht1 & _ & Hq1 & _).
      destruct (IH _ Hl) as (n2 & Ht2 & Hp2 & Hq2).
      exists (n1 ++ n2). rewrite Ht2, Ht1, app_assoc. split; [done|].
      rewrite queriedTypes_app, (Hq1 eq_refl), fmap_cons. simpl.
      split; [by apply prefix_cons|]. intros Ho. by rewrite Hq2.
    + destruct (convergeStep_query _ _ _ _ _ _ Hx) as (n1 & Ht1 & Hp1 & _).
      exists n1. split; [done|]. split; [|done].
      rewrite fmap_cons. etrans; [exact Hp1|].
      by apply prefix_cons, prefix_nil.
Qed.

(** The amended C7.  The converge loop queries the endpoint types in the
    order in which the runtime hands out the entries of [Spec.Endpoints]:
    the types queried by a pass are, in this order, a prefix of that
    enumeration, and all of it when the pass returns without error.  No
    other order is imposed by the code, so the sequence of calls is fixed
    by the inputs together with the enumeration the runtime picked. *)
Theorem queries_follow_range_order os ro co s out s' :
  reconcileEndpoints os ro co s = (out, s') →
  ∃ new, trace s' = trace s ++ new ∧
    queriedTypes new `prefix_of` co.*1 ∧
    (out = Next tt → queriedTypes new = co.*1).
Proof.
  intros Hr. apply reconcileEndpoints_inv in Hr.
  destruct Hr as (outr & sr & Hret & Hr).
  assert (∃ n1, trace sr = trace s ++ n1 ∧ queriedTypes n1 = [])
    as (n1 & Ht1 & Hq1).
  { destruct (EndpointIDs (Status (instance s))).
    - destruct (retireLoop_trace _ _ _ _ _ Hret) as (n1 & Ht1 & Hf1 & _).
      exists n1. split; [done|]. by apply queriedTypes_deletes.
    - inversion Hret; subst. exists []. by rewrite app_nil_r. }
  destruct Hr as [[_ Hconv]|(Hne & -> & ->)].
  - destruct (convergeLoop_query _ _ _ _ _ Hconv) as (n2 & Ht2 & Hp2 & Hq2).
    exists (n1 ++ n2). rewrite Ht2, Ht1, app_assoc. split; [done|].
    rewrite queriedTypes_app, Hq1. done.
  - exists n1. split; [done|]. rewrite Hq1. split; [apply prefix_nil|done].
Qed.

(** *** Ambiguous answers and failing iterations *)

Lemma reconcileEndpoints_touches os ro co s out s' :
  reconcileEndpoints os ro co s = (out, s') →
  touches (λ t, (t ∈ ro ∧ SpecEndpoints (Spec (instance s)) !! t = None)
                ∨ t ∈ co.*1) s s'.
Proof.
  intros Hr. apply reconcileEndpoints_inv in Hr.
  destruct Hr as (outr & sr & Hret & Hr).
  assert (touches (λ t, t ∈ ro ∧ SpecEndpoints (Spec (instance s)) !! t = None)
            s sr) as H1.
  { destruct (EndpointIDs (Status (instance s))).
    - eapply retireLoop_touches, Hret.
    - inversion Hret; subst. apply touches_refl. }
  destruct Hr as [[_ Hconv]|(_ & _ & ->)].
  - eapply touches_trans.
    + eapply touches_mono; [|exact H1]. intros t; cbv beta; tauto.
    + eapply touches_mono; [|eapply convergeLoop_touches, Hconv]. intros t; cbv beta; tauto.
  - eapply touches_mono; [|exact H1]. intros t; cbv beta; tauto.
Qed.

Lemma reconcileEndpoints_app os ro co1 co2 s :
  reconcileEndpoints os ro (co1 ++ co2) s =
  match reconcileEndpoints os ro co1 s with
  | (Next _, s1) => forRange co2 (convergeStep os) s1
  | (Return v, s1) => (Return v, s1)
  | (Panic, s1) => (Panic, s1)
  end.
Proof.
  unfold reconcileEndpoints, bind, getInstance. simpl.
  destruct (match EndpointIDs (Status (instance s)) with
            | Some _ => forRange ro (retireStep os)
            | None => ret ()
            end s) as [[[]|v|] sr]; try done.
  apply forRange_app.
Qed.

Lemma convergeLoop_ambiguous os co s out s' new sid ty l :
  NoDup co.*1 →
  forRange co (convergeStep os) s = (out, s') →
  trace s' = trace s ++ new →
  EvGetEndpoints sid ty (inr l) ∈ new → (1 < length l)%nat →
  ty ∈ co.*1 ∧
  (∃ i : KeystoneEndpoint, out = Return
                (WrapErrorForObject
                   ("multiple endpoints registered for service:"
                      +:+ ServiceName (Spec (instance s)) +:+ " type: " +:+ ty)
                   i None)) ∧
  Forall (λ e, isMutation e = true → evType e ≠ Some ty) new ∧
  idsOf s' !! ty = idsOf s !! ty ∧ entriesOf ty s' = entriesOf ty s.
Proof.
  revert s new. induction co as [|[x u] co IH]; intros s new Hnd Hr Ht Hin Hl.
  - inversion Hr; subst.
    assert (new = []) as ->
      by (apply (app_inv_head (trace s')); by rewrite app_nil_r).
    by apply elem_of_nil in Hin.
  - rewrite fmap_cons in Hnd. apply NoDup_cons in Hnd as [Hx Hnd]. simpl in Hx.
    apply forRange_cons_inv in Hr.
    destruct Hr as [(s1 & Hstep & Hloop)|[Hstep Hne]].
    + destruct (convergeStep_query _ _ _ _ _ _ Hstep) as (n1 & Ht1 & _ & _ & _ & Hq).
      pose proof (convergeStep_touches _ _ _ _ _ _ Hstep) as Htouch.
      destruct (touches_spec _ _ _ Htouch) as [Hsp _].
      destruct Htouch as (_ & _ & (n1' & Ht1' & Htag) & Hframe).
      assert (n1' = n1) as -> by (apply (app_inv_head (trace s)); congruence).
      destruct (convergeLoop_trace _ _ _ _ _ Hloop) as (n2 & Ht2 & _).
      assert (new = n1 ++ n2) as ->.
      { apply (app_inv_head (trace s)). rewrite <- Ht, Ht2, Ht1.
        by rewrite app_assoc. }
      apply elem_of_app in Hin as [Hin|Hin].
      { destruct (Hq _ _ _ Hin Hl) as (_ & _ & ?). done. }
      destruct (IH s1 n2 Hnd Hloop Ht2 Hin Hl) as (Hty & Hout & Hmut & Hids & Heps).
      assert (ty ≠ x) as Hne by (intros ->; done).
      destruct (Hframe ty Hne) as [Hids1 Heps1].
      split; [rewrite fmap_cons; by right|]. split; [by rewrite <- Hsp|].
      split; [|split; congruence].
      apply Forall_app. split; [|done].
      eapply Forall_impl; [exact Htag|]. intros e (t & -> & ->) _. congruence.
    + destruct (convergeStep_query _ _ _ _ _ _ Hstep) as (n1 & Ht1 & _ & _ & _ & Hq).
      assert (new = n1) as -> by (apply (app_inv_head (trace s)); congruence).
      destruct (Hq _ _ _ Hin Hl) as (-> & Hinst & ->).
      destruct (convergeStep_touches _ _ _ _ _ _ Hstep)
        as (_ & _ & (n1' & Ht1' & Htag) & _).
      assert (n1' = [EvGetEndpoints sid ty (inr l)]) as ->
        by (apply (app_inv_head (trace s)); congruence).
      apply Forall_cons in Htag as [(t & [= <-] & ->) _].
      split; [rewrite fmap_cons; left|]. split; [eauto|].
      split; [by repeat constructor|].
      unfold idsOf, entriesOf. by rewrite Hinst.
Qed.

(** C3.  When the identity service answers the query for an endpoint
    type with more than one endpoint, the sync engine returns the
    "multiple endpoints registered" error, no create, update or delete
    call of the pass is made for that type, and what the status records
    for the type (its identifier and its entries in [Status.Endpoints])
    is what it was before the pass. *)
Theorem ambiguous_type_is_left_alone os ro co s out s' new sid ty l :
  rangeOf (SpecEndpoints (Spec (instance s))) co →
  reconcileEndpoints os ro co s = (out, s') →
  trace s' = trace s ++ new →
  EvGetEndpoints sid ty (inr l) ∈ new → (1 < length l)%nat →
  (∃ i : KeystoneEndpoint, out = Return
                (WrapErrorForObject
                   ("multiple endpoints registered for service:"
                      +:+ ServiceName (Spec (instance s)) +:+ " type: " +:+ ty)
                   i None)) ∧
  Forall (λ e, isMutation e = true → evType e ≠ Some ty) new ∧
  idsOf s' !! ty = idsOf s !! ty ∧
  entriesOf ty s' = entriesOf ty s.
Proof.
  intros Hco Hr Ht Hin Hl. apply reconcileEndpoints_inv in Hr.
  destruct Hr as (outr & sr & Hret & Hr).
  assert (NoDup co.*1) as Hnd.
  { unfold rangeOf in Hco. rewrite Hco. apply NoDup_fst_map_to_list. }
  assert (touches (λ t, t ∈ ro ∧ SpecEndpoints (Spec (instance s)) !! t = None)
            s sr ∧
          ∃ n1, trace sr = trace s ++ n1 ∧ Forall (λ e, isDelete e = true) n1)
    as [Htouch (n1 & Ht1 & Hdel)].
  { destruct (EndpointIDs (Status (instance s))).
    - split; [eapply retireLoop_touches, Hret|].
      destruct (retireLoop_trace _ _ _ _ _ Hret) as (n1 & ? & ? & _). eauto.
    - inversion Hret; subst. split; [apply touches_refl|].
      exists []. by rewrite app_nil_r. }
  assert (EvGetEndpoints sid ty (inr l) ∉ n1) as Hnot.
  { intros Hn. rewrite Forall_forall in Hdel. by apply Hdel in Hn. }
  destruct Hr as [[_ Hconv]|(_ & _ & ->)].
  2:{ assert (new = n1) as -> by (apply (app_inv_head (trace s)); congruence).
      done. }
  destruct (convergeLoop_trace _ _ _ _ _ Hconv) as (n2 & Ht2 & _).
  assert (new = n1 ++ n2) as ->.
  { apply (app_inv_head (trace s)). rewrite <- Ht, Ht2, Ht1.
    by rewrite app_assoc. }
  apply elem_of_app in Hin as [Hin|Hin]; [done|].
  destruct (convergeLoop_ambiguous _ _ _ _ _ _ _ _ _ Hnd Hconv Ht2 Hin Hl)
    as (Hty & Hout & Hmut & Hids & Heps).
  destruct (touches_spec _ _ _ Htouch) as [Hsp _].
  assert (is_Some (SpecEndpoints (Spec (instance s)) !! ty)) as [u Hu].
  { unfold rangeOf in Hco. rewrite Hco in Hty.
    apply list_elem_of_fmap in Hty as ([k v] & -> & Hkv).
    apply elem_of_map_to_list in Hkv. eauto. }
  destruct Htouch as (_ & _ & (n1' & Ht1' & Htag) & Hframe).
  assert (n1' = n1) as -> by (apply (app_inv_head (trace s)); congruence).
  destruct (Hframe ty) as [Hids1 Heps1]; [intros [_ ?]; congruence|].
  split; [by rewrite <- Hsp|]. split; [|split; congruence].
  apply Forall_app. split; [|done].
  eapply Forall_impl; [exact Htag|].
  intros e (t & -> & _ & Hnone) _. congruence.
Qed.

(** C10.  When an iteration of the converge loop returns an error, the
    sync engine returns that error at once: the pass over the whole
    enumeration ends in the state in which the failing iteration ended,
    that iteration has changed nothing in the instance, and for every
    type the loop had not reached yet the pass has made no call and the
    status records what it recorded before the pass. *)
Theorem converge_failure_ends_pass os ro done kv rest s s1 err s2 :
  rangeOf (SpecEndpoints (Spec (instance s))) (done ++ kv :: rest) →
  reconcileEndpoints os ro done s = (Next tt, s1) →
  convergeStep os kv s1 = (Return err, s2) →
  reconcileEndpoints os ro (done ++ kv :: rest) s = (Return err, s2) ∧
  instance s2 = instance s1 ∧
  ∀ ty, ty ∈ rest.*1 →
    (∃ new, trace s2 = trace s ++ new ∧
            Forall (λ e, evType e ≠ Some ty) new) ∧
    idsOf s2 !! ty = idsOf s !! ty ∧
    entriesOf ty s2 = entriesOf ty s.
Proof.
  intros Hco Hdone Hstep. destruct kv as [x u].
  split; [|split].
  - rewrite reconcileEndpoints_app, Hdone.
    change (forRange ((x, u) :: rest) (convergeStep os) s1) with
      ((convergeStep os (x, u) ;;; forRange rest (convergeStep os)) s1).
    unfold bind. by rewrite Hstep.
  - destruct (convergeStep_query _ _ _ _ _ _ Hstep) as (_ & _ & _ & _ & Hi & _).
    by apply Hi.
  - intros ty Hty.
    assert (NoDup (done ++ (x, u) :: rest).*1) as Hnd.
    { unfold rangeOf in Hco. rewrite Hco. apply NoDup_fst_map_to_list. }
    rewrite fmap_app, fmap_cons in Hnd. simpl in Hnd.
    apply NoDup_app in Hnd as (_ & Hdisj & Hnd2).
    apply NoDup_cons in Hnd2 as [Hx _].
    assert (is_Some (SpecEndpoints (Spec (instance s)) !! ty)) as [v Hv].
    { apply list_elem_of_fmap in Hty as ([k v] & -> & Hkv).
      exists v. apply elem_of_map_to_list. unfold rangeOf in Hco.
      rewrite <- Hco. apply elem_of_app. right. by right. }
    assert (touches
              (λ t, ((t ∈ ro ∧ SpecEndpoints (Spec (instance s)) !! t = None)
                     ∨ t ∈ done.*1) ∨ t = x) s s2) as Htouch.
    { eapply touches_trans.
      - eapply touches_mono; [|eapply reconcileEndpoints_touches, Hdone]. intros t; cbv beta; tauto.
      - eapply touches_mono; [|eapply convergeStep_touches, Hstep].
        simpl. intros t; cbv beta; tauto. }
    destruct Htouch as (_ & _ & (new & Ht & Htag) & Hframe).
    assert (¬ (((ty ∈ ro ∧ SpecEndpoints (Spec (instance s)) !! ty = None)
                ∨ ty ∈ done.*1) ∨ ty = x)) as Hnot.
    { intros [[[_ ?]|Hd]| ->]; [congruence| |done].
      apply (Hdisj ty Hd). by right. }
    split; [|by apply Hframe].
    exists new. split; [done|]. eapply Forall_impl; [exact Htag|].
    intros e (t & -> & Ht') [= <-]. done.
Qed.

End EnginePasses.

Section DeletePaths.
Context `{LibCommon}.

#[local] Arguments RemoveFinalizer : simpl never.
#[local] Arguments AddFinalizer : simpl never.
#[local] Arguments endpointFinalizer : simpl never.



End DeletePaths.

Section Orchestrator.
Context `{LibCommon}.

#[local] Arguments RemoveFinalizer : simpl never.
#[local] Arguments AddFinalizer : simpl never.
#[local] Arguments endpointFinalizer : simpl never.

(** [controllerutil.RemoveFinalizer] reports a change exactly when the
    marker was on the list. *)
Lemma RemoveFinalizer_changed (f : list string) x :
  (RemoveFinalizer f x).2 = bool_decide (x ∈ f).
Proof.
  unfold RemoveFinalizer. simpl.
  assert (∀ l : list string,
            (length (filter (λ e, e ≠ x) l) ≤ length l)%nat) as Hle
    by (intros l; apply length_filter).
  induction f as [|y l IH]; [done|].
  destruct (decide (y = x)) as [->|Hne].
  - rewrite filter_cons_False by (intros Hn; by apply Hn).
    rewrite bool_decide_eq_true_2 by left.
    apply negb_true_iff, Nat.eqb_neq. specialize (Hle l). simpl. lia.
  - rewrite filter_cons_True by done. simpl. simpl in IH. rewrite IH.
    apply bool_decide_ext. rewrite elem_of_cons.
    split; [by right|]. intros [->|Hin]; [by destruct Hne|done].
Qed.

(** [reconcileDelete] without a client and without an identity-API
    registration: no call to the identity service, and nothing but the
    marker cleanup.  The service registration, if it is found with the
    marker on it, is written without the marker; the instance loses its
    own finalizer unless the lookup or that write fails, in which case
    it keeps its finalizers and the error is returned. *)
Lemma reconcileDelete_markers_only cl sched helper s :
  let i := instance s in
  ∃ rv s' new f,
    reconcileDelete cl sched helper None None s = (Return rv, s') ∧
    remote s' = remote s ∧
    trace s' = trace s ++ new ∧
    Forall (isMarkerCleanup cl helper i) new ∧
    instance s' = withFinalizers (withEndpointIDs i (Some ∅)) f ∧
    (serviceReleasable cl helper i →
     f = (RemoveFinalizer (Finalizers i) (GetFinalizer helper)).1 ∧
     rv = (emptyResult, None)) ∧
    new = serviceRelease cl helper i ∧
    (¬ serviceReleasable cl helper i →
     f = Finalizers i ∧ ∃ e, rv = (emptyResult, Some e)).
Proof.
  intros i. unfold serviceReleasable, serviceRelease, withoutMarker.
  unfold reconcileDelete, releaseService, removeFinalizerFromService,
    removeOwnFinalizer, bind, getInstance, setInstance, emit, ret, return_.
  cbn -[RemoveFinalizer endpointFinalizer]. fold i.
  change (endpointFinalizer helper (withEndpointIDs i (Some ∅)))
    with (endpointFinalizer helper i).
  destruct (GetKeystoneServiceWithName cl (ServiceName (Spec i)) (Namespace i))
    as [err|ksSvc] eqn:Hsvc.
  - destruct (errIsNotFound err); cbn -[RemoveFinalizer endpointFinalizer].
    + eexists _, _, [], _. rewrite app_nil_r.
      split; [done|]. split; [done|]. split; [done|]. split; [done|].
      split; [done|]. split; [done|]. split; [done|]. by intros [].
    + eexists _, _, [], (Finalizers i). rewrite app_nil_r.
      split; [done|]. split; [done|]. split; [done|]. split; [done|].
      split; [by destruct i as [? ? ? ? ? ? []]|].
      split; [done|]. split; [done|]. intros _. split; [done|]. by eexists.
  - pose proof (RemoveFinalizer_changed (svcFinalizers ksSvc)
                  (endpointFinalizer helper i)) as Hch.
    destruct (RemoveFinalizer (svcFinalizers ksSvc) (endpointFinalizer helper i))
      as [f [|]] eqn:Hrm; cbn -[RemoveFinalizer endpointFinalizer];
      simpl in Hch; rewrite <- Hch.
    + assert (f = filter (λ e, e ≠ endpointFinalizer helper i)
                    (svcFinalizers ksSvc)) as Hf
        by (unfold RemoveFinalizer in Hrm; congruence).
      destruct (UpdateKeystoneService cl (svcWithFinalizers ksSvc f))
        as [uerr|] eqn:Hup; cbn -[RemoveFinalizer endpointFinalizer].
      * eexists _, _, [_], (Finalizers i).
        split; [done|]. split; [done|]. split; [done|]. split.
        { constructor; [|done]. unfold isMarkerCleanup. exists ksSvc.
          by rewrite Hrm. }
        split; [by destruct i as [? ? ? ? ? ? []]|].
        split; [intros Hok; specialize (Hok eq_refl); congruence|].
        split; [by rewrite <- Hf, Hup|].
        intros _. split; [done|]. by eexists.
      * eexists _, _, [_], _.
        split; [done|]. split; [done|]. split; [done|]. split.
        { constructor; [|done]. unfold isMarkerCleanup. exists ksSvc.
          by rewrite Hrm. }
        split; [done|]. split; [done|].
        split; [by rewrite <- Hf, Hup|].
        intros Hn. by destruct Hn.
    + eexists _, _, [], _. rewrite app_nil_r.
      split; [done|]. split; [done|]. split; [done|]. split; [done|].
      split; [done|]. split; [done|]. split; [done|].
      intros Hn. by destruct Hn.
Qed.

(** C5.  Deletion is requested, nothing was ever recorded in
    [Status.EndpointIDs] and the identity-API registration is not found:
    the pass makes no call to the identity service (it does not even ask
    for a client) and leaves the identity service alone.  Once the
    helper is built, the only write of the pass besides the closing
    status patch is that of the service registration without this
    instance's marker; the spec, the service identifier and the endpoint
    list of the instance are what they were and the identifiers stay
    empty.  On an initialised instance the pass does perform the marker
    cleanup: its calls are exactly the release of the service
    registration followed by the closing patch, where the release is
    one write of the registration with the marker of this instance
    taken off if the registration is found with the marker on it, and
    nothing otherwise.  Unless the service registration stands in the
    way, the pass ends by dropping the instance's own finalizer and
    returns no error of its own; if the lookup of the registration fails
    with anything but not-found, or the write fails, the instance keeps
    its finalizers and the pass returns an error. *)
Theorem delete_short_circuit cl sched r i err :
  Get cl = inr i →
  IsZero (DeletionTimestamp i) = false →
  idsMap (EndpointIDs (Status i)) = ∅ →
  GetKeystoneAPI cl (Namespace i) = inl err → errIsNotFound err = true →
  let p := Reconcile cl sched r in
  Forall (λ e, isIdentityServiceCall e = false) (passTrace p) ∧
  passRemote p = r ∧
  ∀ helper, NewHelper cl i = inr helper →
    Forall (isMarkerCleanup cl helper i) (passTrace p) ∧
    ∃ i', passInstance p = Some i' ∧
      Spec i' = Spec i ∧
      idsMap (EndpointIDs (Status i')) = ∅ ∧
      Endpoints (Status i') = Endpoints (Status i) ∧
      ServiceID (Status i') = ServiceID (Status i) ∧
      (conditionsIsNil (StatusConditions (Status i)) = false →
       serviceReleasable cl helper i →
       Finalizers i' =
         (RemoveFinalizer (Finalizers i) (GetFinalizer helper)).1 ∧
       passExit p = Returned emptyResult (PatchInstance cl i')) ∧
      (conditionsIsNil (StatusConditions (Status i)) = false →
       passTrace p =
         serviceRelease cl helper i ++
         [EvPatchInstance i' (PatchInstance cl i')] ∧
       (¬ serviceReleasable cl helper i →
        Finalizers i' = Finalizers i ∧
        ∃ e, passExit p = Returned emptyResult (Some e))).
Proof.
  intros Hget Hdel Hids Hapi Hnf p.
  destruct (NewHelper cl i) as [herr|helper] eqn:Hhelper.
  { subst p. unfold Reconcile. rewrite Hget, Hhelper. cbn.
    split; [done|]. split; [done|]. intros ? [=]. }
  assert (Forall (isMarkerCleanup cl helper i) (passTrace p) ∧
          passRemote p = r ∧
          ∃ i', passInstance p = Some i' ∧
            Spec i' = Spec i ∧
            idsMap (EndpointIDs (Status i')) = ∅ ∧
            Endpoints (Status i') = Endpoints (Status i) ∧
            ServiceID (Status i') = ServiceID (Status i) ∧
            (conditionsIsNil (StatusConditions (Status i)) = false →
             serviceReleasable cl helper i →
             Finalizers i' =
               (RemoveFinalizer (Finalizers i) (GetFinalizer helper)).1 ∧
             passExit p = Returned emptyResult (PatchInstance cl i')) ∧
            (conditionsIsNil (StatusConditions (Status i)) = false →
             passTrace p =
               serviceRelease cl helper i ++
               [EvPatchInstance i' (PatchInstance cl i')] ∧
             (¬ serviceReleasable cl helper i →
              Finalizers i' = Finalizers i ∧
              ∃ e, passExit p = Returned emptyResult (Some e))))
    as (Hclean & Hrem & Hrest).
  2:{ split; [|split; [done|]].
      - eapply Forall_impl; [exact Hclean|]. intros e. by destruct e.
      - intros ? [= <-]. done. }
  subst p. unfold Reconcile. rewrite Hget, Hhelper.
  unfold reconcileBody. unfold bind at 1. unfold getInstance at 1.
  cbn -[RemoveFinalizer endpointFinalizer idsMap reconcileDelete].
  destruct (conditionsIsNil (StatusConditions (Status i))) eqn:Hnil.
  { cbn -[RemoveFinalizer endpointFinalizer idsMap reconcileDelete].
    split; [by repeat constructor|]. split; [done|].
    eexists. repeat split; done. }
  unfold bind, getInstance, setInstance, ret.
  cbn -[RemoveFinalizer endpointFinalizer idsMap reconcileDelete].
  rewrite Hdel.
  cbn -[RemoveFinalizer endpointFinalizer idsMap reconcileDelete].
  rewrite Hapi, Hnf, Hdel.
  cbn -[RemoveFinalizer endpointFinalizer idsMap reconcileDelete].
  change (idsMap (Some (idsMap (EndpointIDs (Status i)))))
    with (idsMap (EndpointIDs (Status i))).
  rewrite Hids, map_size_empty.
  cbn -[RemoveFinalizer endpointFinalizer idsMap reconcileDelete].
  match goal with
  | |- context [reconcileDelete cl sched helper None None ?s0] =>
      destruct (reconcileDelete_markers_only cl sched helper s0)
        as (rv & s' & new & f & -> & Hr' & Ht' & Hcl' & Hi' & Hok' & Hnew
            & Hfail)
  end.
  destruct rv as [result rerr].
  cbn -[RemoveFinalizer endpointFinalizer serviceRelease serviceReleasable]
    in *.
  change (serviceRelease cl helper (withObservedGeneration _ _))
    with (serviceRelease cl helper i) in Hnew.
  change (serviceReleasable cl helper (withObservedGeneration _ _))
    with (serviceReleasable cl helper i) in Hok', Hfail.
  rewrite Hi', Hr', Ht'.
  cbn -[RemoveFinalizer endpointFinalizer serviceRelease serviceReleasable].
  split.
  { apply Forall_app. split; [|by repeat constructor].
    eapply Forall_impl; [exact Hcl'|]. intros e. by destruct e. }
  split; [done|]. eexists. split; [done|].
  split; [done|]. split; [done|]. split; [done|]. split; [done|].
  split.
  - intros _ Hsvc. destruct (Hok' Hsvc) as [-> [= -> ->]].
    split; [done|]. by destruct (PatchInstance cl _).
  - intros _. split; [by rewrite Hnew|].
    intros Hn. destruct (Hfail Hn) as [-> (e & [= -> ->])].
    split; [done|]. destruct (PatchInstance cl _); by eexists.
Qed.

(** The amended C2.  Every exit of a pass that has loaded the instance
    and built its helper, panics apart, goes through the roll-up: the
    conditions the pass leaves are the roll-up of the conditions the body
    ended with, which marks [Ready] true when all sub-conditions are true
    and otherwise resets [Ready] and sets it to what [Mirror] picks from
    the conditions; the instance with these conditions is what the
    closing patch, the last call of the pass, writes. *)
Theorem Ready_rolled_up_on_exit cl sched r i helper :
  Get cl = inr i → NewHelper cl i = inr helper →
  let p := Reconcile cl sched r in
  passExit p ≠ Panicked →
  ∃ rv s,
    reconcileBody cl sched helper {| instance := i; remote := r; trace := [] |}
      = (Return rv, s) ∧
    let c := StatusConditions (Status (instance s)) in
    let i' := withConditions (instance s) (aggregateReady c) in
    passInstance p = Some i' ∧
    passTrace p = trace s ++ [EvPatchInstance i' (PatchInstance cl i')] ∧
    (AllSubConditionIsTrue c = true →
     StatusConditions (Status i') = MarkTrue c ReadyCondition ReadyMessage []) ∧
    (AllSubConditionIsTrue c = false →
     StatusConditions (Status i') =
       Set_ (MarkUnknown c ReadyCondition InitReason ReadyInitMessage)
         (Mirror (MarkUnknown c ReadyCondition InitReason ReadyInitMessage)
            ReadyCondition)).
Proof.
  intros Hget Hhelper p. subst p. unfold Reconcile. rewrite Hget, Hhelper.
  destruct (reconcileBody cl sched helper _) as [[[]|[result err]|] s];
    cbn; [|done].
  intros _. eexists _, _. split; [done|]. cbn.
  split; [done|]. split; [done|]. unfold aggregateReady.
  split; intros ->; done.
Qed.

(** The amended C8.  On an initialised instance that carries its
    finalizer and is not being deleted: when the identity-API
    registration is not found, the pass records the [KeystoneAPIReady]
    condition as false with the not-found message and asks for a retry
    in five seconds; when the service registration is not found, the
    pass asks for a retry in five seconds.  In both cases the pass
    returns no error of its own: the only error it can return is that of
    the closing status patch. *)
Theorem absent_dependency_requeues cl sched r i helper :
  Get cl = inr i → NewHelper cl i = inr helper →
  conditionsIsNil (StatusConditions (Status i)) = false →
  IsZero (DeletionTimestamp i) = true →
  GetFinalizer helper ∈ Finalizers i →
  let p := Reconcile cl sched r in
  let retry := {| Requeue := false; RequeueAfter := Second * 5 |} in
  (∀ err, GetKeystoneAPI cl (Namespace i) = inl err →
          errIsNotFound err = true →
     ∃ i', passInstance p = Some i' ∧
       passExit p = Returned retry (PatchInstance cl i') ∧
       StatusConditions (Status i') =
         aggregateReady
           (Set_ (StatusConditions (Status i))
              (Some (FalseCondition KeystoneAPIReadyCondition ErrorReason
                       SeverityWarning KeystoneAPIReadyNotFoundMessage []))) ∧
       passTrace p = [EvPatchInstance i' (PatchInstance cl i')]) ∧
  (∀ api os err,
     GetKeystoneAPI cl (Namespace i) = inr api → apiIsReady api = true →
     GetAdminServiceClient cl api = (os, emptyResult, None) →
     GetKeystoneServiceWithName cl (ServiceName (Spec i)) (Namespace i)
       = inl err →
     errIsNotFound err = true →
     ∃ i', passInstance p = Some i' ∧
       passExit p = Returned retry (PatchInstance cl i') ∧
       passTrace p =
         [EvGetAdminServiceClient; EvPatchInstance i' (PatchInstance cl i')]).
Proof.
  intros Hget Hhelper Hnil Hdel Hfin p retry.
  subst p. unfold Reconcile. rewrite Hget, Hhelper.
  unfold reconcileBody, bind, getInstance, setInstance, setCondition,
    markTrue, emit, ret, return_.
  cbn -[idsMap reconcileNormal AddFinalizer IsZero]. rewrite Hnil.
  cbn -[idsMap reconcileNormal AddFinalizer IsZero]. rewrite Hdel.
  unfold AddFinalizer. rewrite bool_decide_eq_true_2 by done.
  cbn -[idsMap reconcileNormal IsZero].
  rewrite Hdel.
  split.
  - intros err Hapi Hnf. rewrite Hapi, Hnf.
    cbn -[idsMap reconcileNormal IsZero].
    eexists. split; [done|]. split; [|done].
    by destruct (PatchInstance cl _).
  - intros api os err Hapi Hready Hclient Hsvc Hnf.
    rewrite Hapi. cbn -[idsMap reconcileNormal IsZero]. rewrite Hready.
    cbn -[idsMap reconcileNormal IsZero]. rewrite Hclient.
    cbn -[idsMap reconcileNormal IsZero].
    unfold reconcileNormal, bind, getInstance, return_.
    cbn -[idsMap IsZero]. rewrite Hsvc, Hnf. cbn -[idsMap IsZero].
    eexists. split; [done|]. split; [|done].
    by destruct (PatchInstance cl _).
Qed.

End Orchestrator.

(** * Further properties of the sync engine *)

Section EngineInvariants.
Context `{LibCommon}.

(** X1.  [getEndpointIdx] answers [-1] exactly when no entry of the list
    has the interface asked for; otherwise it answers an index within
    the list, the entry there has that interface and no entry before it
    has. *)
Theorem getEndpointIdx_first_match (endpointType : string)
    (endpoints : list Endpoint) :
  let idx := getEndpointIdx endpointType endpoints in
  (idx = -1 ∧ endpointType ∉ Interface <$> endpoints) ∨
  (0 ≤ idx < Z.of_nat (length endpoints) ∧
   ∃ e, endpoints !! Z.to_nat idx = Some e ∧ Interface e = endpointType ∧
        ∀ (j : nat) e', (j < Z.to_nat idx)%nat → endpoints !! j = Some e' →
                        Interface e' ≠ endpointType).
Proof.
  intros idx. subst idx. unfold getEndpointIdx.
  set (f := λ e : Endpoint, bool_decide (Interface e = endpointType)).
  destruct (IndexFunc_range endpoints f) as [Hm|Hr].
  - left. split; [done|]. intros Hin.
    apply list_elem_of_fmap in Hin as (e & -> & He).
    assert (IndexFunc endpoints f < 0) as Hneg by lia.
    pose proof (IndexFunc_none _ _ Hneg) as Hall.
    rewrite Forall_forall in Hall. specialize (Hall _ He).
    unfold f in Hall. by apply bool_decide_eq_false in Hall.
  - right. split; [done|].
    destruct (IndexFunc_found endpoints f) as (e & He & Hfe); [lia|].
    exists e. split; [done|]. split; [by apply bool_decide_eq_true in Hfe|].
    intros j e' Hj He'.
    assert (f e' = false) as Hf by (eapply IndexFunc_first; [| |done]; lia).
    by apply bool_decide_eq_false in Hf.
Qed.

(** *** The endpoint list keeps one entry per interface *)

Lemma NoDup_removeAt (eps : list Endpoint) (idx : Z) :
  0 ≤ idx →
  NoDup (Interface <$> eps) → NoDup (Interface <$> removeAt eps idx).
Proof.
  intros Hidx Hnd. unfold removeAt.
  replace (Z.to_nat (idx + 1)) with (S (Z.to_nat idx)) by lia.
  rewrite <- delete_take_drop, list_fmap_delete.
  eapply sublist_NoDup; [exact Hnd|apply sublist_delete].
Qed.

Lemma NoDup_upsertEndpoint (eps : list Endpoint) ty url id :
  NoDup (Interface <$> eps) →
  NoDup (Interface <$> upsertEndpoint eps ty url id).
Proof.
  intros Hnd. unfold upsertEndpoint.
  destruct (Z.geb_spec (getEndpointIdx ty eps) 0) as [Hidx|Hidx].
  - unfold setIDAndURL.
    rewrite (list_fmap_alter Interface _ (λ x, x));
      [|by apply Forall_forall].
    by rewrite list_alter_id.
  - rewrite fmap_app. apply NoDup_app. split; [done|]. split.
    + intros x Hx Hin. apply list_elem_of_singleton in Hin. simpl in Hin.
      subst x. apply list_elem_of_fmap in Hx as (e & He & Hin).
      assert (IndexFunc eps (λ e : Endpoint, bool_decide (Interface e = ty))
              < 0) as Hneg by (unfold getEndpointIdx in Hidx; lia).
      pose proof (IndexFunc_none _ _ Hneg) as Hall.
      rewrite Forall_forall in Hall. specialize (Hall _ Hin). simpl in Hall.
      apply bool_decide_eq_false in Hall. congruence.
    + apply NoDup_singleton.
Qed.

Lemma retireStep_NoDup os ty s out s' :
  retireStep os ty s = (out, s') →
  NoDup (Interface <$> Endpoints (Status (instance s))) →
  NoDup (Interface <$> Endpoints (Status (instance s'))).
Proof.
  intros Hr Hnd. apply retireStep_inv in Hr. simpl in Hr.
  destruct Hr as [(_ & _ & ->)|(_ & [(err & _ & _ & ->)|[(_ & _ & ->)|Hr]])];
    try done.
  destruct Hr as (c & a & res & r' & _ & _ & _ & Hr).
  destruct res as [err|]; destruct Hr as [_ ->]; simpl; [done|].
  destruct (Z.geb_spec (getEndpointIdx ty (Endpoints (Status (instance s)))) 0);
    [by apply NoDup_removeAt|done].
Qed.

Lemma recordEndpoint_NoDup ty url id s out s' :
  recordEndpoint ty url id s = (out, s') →
  NoDup (Interface <$> Endpoints (Status (instance s))) →
  NoDup (Interface <$> Endpoints (Status (instance s'))).
Proof.
  intros Hr Hnd. apply recordEndpoint_inv in Hr. simpl in Hr.
  destruct Hr as [(_ & _ & ->)|(_ & [(_ & _ & _ & ->)|(_ & ids & _ & ->)])];
    try done.
  simpl. by apply NoDup_upsertEndpoint.
Qed.

Lemma convergeStep_NoDup os kv s out s' :
  convergeStep os kv s = (out, s') →
  NoDup (Interface <$> Endpoints (Status (instance s))) →
  NoDup (Interface <$> Endpoints (Status (instance s'))).
Proof.
  destruct kv as [ty url]. intros Hr Hnd.
  apply convergeStep_inv in Hr. simpl in Hr.
  destruct Hr as [(err & _ & _ & ->)|[(_ & _ & ->)|Hr]]; try done.
  destruct Hr as (c & a & res & s1 & _ & _ & _ & -> & Hr).
  destruct res as [err|[|e [|e2 l]]].
  - by destruct Hr as [_ ->].
  - destruct Hr as (cres & r' & _ & Hr). simpl in Hr.
    destruct cres as [err|id]; [by destruct Hr as [_ ->]|].
    by apply (recordEndpoint_NoDup _ _ _ _ _ _ Hr).
  - case_bool_decide.
    + destruct Hr as (ures & r' & _ & Hr). simpl in Hr.
      destruct ures as [err|id]; [by destruct Hr as [_ ->]|].
      by apply (recordEndpoint_NoDup _ _ _ _ _ _ Hr).
    + by apply (recordEndpoint_NoDup _ _ _ _ _ _ Hr).
  - by destruct Hr as [_ ->].
Qed.

(** A property of the state that every iteration keeps is kept by the
    loop, however the loop ends. *)
Lemma forRange_invariant {V X} (P : St → Prop) (body : X → M St V unit) l :
  (∀ x s out s', body x s = (out, s') → P s → P s') →
  ∀ s out s', forRange l body s = (out, s') → P s → P s'.
Proof.
  intros Hbody. induction l as [|x l IH]; intros s out s' Hr HP.
  - by inversion Hr; subst.
  - apply forRange_cons_inv in Hr.
    destruct Hr as [(s1 & Hx & Hl)|[Hx _]]; eauto.
Qed.

(** X2.  If [Status.Endpoints] has at most one entry per interface
    before a pass of the sync engine, it has at most one entry per
    interface after it, however the pass ends. *)
Theorem Endpoints_stay_unique os ro co s out s' :
  NoDup (Interface <$> Endpoints (Status (instance s))) →
  reconcileEndpoints os ro co s = (out, s') →
  NoDup (Interface <$> Endpoints (Status (instance s'))).
Proof.
  intros Hnd Hr. apply reconcileEndpoints_inv in Hr.
  destruct Hr as (outr & sr & Hret & Hr).
  assert (NoDup (Interface <$> Endpoints (Status (instance sr)))) as Hsr.
  { destruct (EndpointIDs (Status (instance s))).
    - eapply (forRange_invariant
                (λ s, NoDup (Interface <$> Endpoints (Status (instance s)))));
        [|exact Hret|done].
      intros x s0 out0 s0'. apply retireStep_NoDup.
    - by inversion Hret; subst. }
  destruct Hr as [[_ Hconv]|(_ & _ & ->)]; [|done].
  eapply (forRange_invariant
            (λ s, NoDup (Interface <$> Endpoints (Status (instance s)))));
    [|exact Hconv|done].
  intros x s0 out0 s0'. apply convergeStep_NoDup.
Qed.

(** X3.  Whatever a pass of the sync engine does and however it ends,
    the instance it leaves is the instance it found with other
    [Status.EndpointIDs] and [Status.Endpoints]: name, namespace,
    generation, deletion timestamp, finalizers, spec, conditions,
    service identifier and observed generation are not written; and a
    nil [EndpointIDs] map stays nil, a non-nil one non-nil. *)
Theorem sync_writes_only_endpoint_records os ro co s :
  let s' := (reconcileEndpoints os ro co s).2 in
  ∃ ids eps,
    instance s' = withEndpoints (withEndpointIDs (instance s) ids) eps ∧
    (is_Some ids ↔ is_Some (EndpointIDs (Status (instance s)))).
Proof.
  intros s'. subst s'.
  destruct (reconcileEndpoints os ro co s) as [out s'] eqn:Hr.
  destruct (reconcileEndpoints_touches _ _ _ _ _ _ Hr)
    as ((ids & eps & Hi) & Hnil & _).
  exists ids, eps. split; [done|]. simpl. by rewrite Hi in Hnil.
Qed.

(** *** Panics *)

Lemma retireStep_no_panic c ty s out s' :
  retireStep (Some c) ty s = (out, s') → out ≠ Panic.
Proof.
  intros Hr. apply retireStep_inv in Hr. simpl in Hr.
  destruct Hr as [(_ & -> & _)|(_ & [(err & _ & -> & _)|[(? & _)|Hr]])];
    try done.
  destruct Hr as (c' & a & res & r' & _ & _ & _ & Hr).
  destruct res; by destruct Hr as [-> _].
Qed.

Lemma convergeStep_no_panic c kv s out s' :
  is_Some (EndpointIDs (Status (instance s))) →
  convergeStep (Some c) kv s = (out, s') → out ≠ Panic.
Proof.
  destruct kv as [ty url]. intros [m Hm] Hr.
  apply convergeStep_inv in Hr. simpl in Hr.
  destruct Hr as [(err & _ & -> & _)|[(? & _)|Hr]]; try done.
  destruct Hr as (c' & a & res & s1 & _ & _ & _ & -> & Hr).
  assert (∀ id s2, instance s2 = instance s →
            recordEndpoint ty url id s2 = (out, s') → out ≠ Panic) as Hrec.
  { intros id s2 Hi Hq. apply recordEndpoint_inv in Hq. simpl in Hq.
    rewrite Hi in Hq.
    destruct Hq as [(_ & -> & _)|(_ & [(_ & Hn & _)|(-> & _)])];
      try done. congruence. }
  destruct res as [err|[|e [|e2 l]]].
  - by destruct Hr as [-> _].
  - destruct Hr as (cres & r' & _ & Hr). simpl in Hr.
    destruct cres as [err|id]; [by destruct Hr as [-> _]|].
    eapply Hrec; [|exact Hr]; done.
  - case_bool_decide.
    + destruct Hr as (ures & r' & _ & Hr). simpl in Hr.
      destruct ures as [err|id]; [by destruct Hr as [-> _]|].
      eapply Hrec; [|exact Hr]; done.
    + eapply Hrec; [|exact Hr]; done.
  - by destruct Hr as [-> _].
Qed.

Lemma loop_no_panic {X} (body : X → M St error unit) l :
  (∀ x s out s', is_Some (EndpointIDs (Status (instance s))) →
     body x s = (out, s') →
     out ≠ Panic ∧ is_Some (EndpointIDs (Status (instance s')))) →
  ∀ s out s', is_Some (EndpointIDs (Status (instance s))) →
    forRange l body s = (out, s') →
    out ≠ Panic ∧ is_Some (EndpointIDs (Status (instance s'))).
Proof.
  intros Hbody. induction l as [|x l IH]; intros s out s' Hs Hr.
  - by inversion Hr; subst.
  - apply forRange_cons_inv in Hr.
    destruct Hr as [(s1 & Hx & Hl)|[Hx _]]; [|eauto].
    destruct (Hbody _ _ _ _ Hs Hx) as [_ Hs1]. eauto.
Qed.

Lemma reconcileEndpoints_no_panic c ro co s out s' :
  is_Some (EndpointIDs (Status (instance s))) →
  reconcileEndpoints (Some c) ro co s = (out, s') →
  out ≠ Panic.
Proof.
  intros Hs Hr. apply reconcileEndpoints_inv in Hr.
  destruct Hr as (outr & sr & Hret & Hr).
  assert (outr ≠ Panic ∧ is_Some (EndpointIDs (Status (instance sr))))
    as [Hnp Hsr].
  { destruct Hs as [m Hm]. rewrite Hm in Hret.
    eapply (loop_no_panic (retireStep (Some c))); [|by rewrite Hm|exact Hret].
    intros x s0 out0 s0' Hs0 Hx. split; [by eapply retireStep_no_panic|].
    destruct (retireStep_touches _ _ _ _ _ Hx) as (_ & Hnil & _).
    by apply Hnil. }
  destruct Hr as [[_ Hconv]|(_ & -> & _)]; [|done].
  eapply (loop_no_panic (convergeStep (Some c))); [|exact Hsr|exact Hconv].
  intros [ty url] s0 out0 s0' Hs0 Hx.
  split; [by eapply convergeStep_no_panic|].
  destruct (convergeStep_touches _ _ _ _ _ _ Hx) as (_ & Hnil & _).
  by apply Hnil.
Qed.

(** X4.  With a client at hand and a non-nil [Status.EndpointIDs] map,
    a pass of the sync engine does not panic: it returns nil or an
    error. *)
Theorem sync_does_not_panic c ro co s out s' :
  is_Some (EndpointIDs (Status (instance s))) →
  reconcileEndpoints (Some c) ro co s = (out, s') →
  out ≠ Panic.
Proof. apply reconcileEndpoints_no_panic. Qed.

(** *** Every call has its reason *)

Lemma convergeCallFor_mono spec sid ty url new1 new2 e :
  (∀ x, x ∈ new1 → x ∈ new2) →
  convergeCallFor spec sid ty url new1 e →
  convergeCallFor spec sid ty url new2 e.
Proof.
  intros Hsub. destruct e; simpl; try done.
  - intros (? & ? & ? & ? & ? & ?). eauto 10.
  - intros (? & ? & ? & l & ? & ?). split; [done|]. split; [done|].
    split; [done|]. exists l. eauto.
Qed.

Lemma retireStep_calls os ty s out s' :
  retireStep os ty s = (out, s') →
  ∃ new, trace s' = trace s ++ new ∧
    Forall (retireCallFor (Spec (instance s))
              (ServiceID (Status (instance s))) ty) new.
Proof.
  intros Hr. apply retireStep_inv in Hr. simpl in Hr.
  destruct Hr as [(_ & _ & ->)|(Hs & [(err & _ & _ & ->)|[(_ & _ & ->)|Hr]])];
    try (exists []; by rewrite app_nil_r).
  destruct Hr as (c & a & res & r' & _ & Ha & _ & Hr).
  destruct res as [err|]; destruct Hr as [_ ->]; simpl;
    (eexists; split; [done|]); by repeat constructor.
Qed.

Lemma convergeStep_calls os ty url s out s' :
  convergeStep os (ty, url) s = (out, s') →
  ∃ new, trace s' = trace s ++ new ∧
    Forall (convergeCallFor (Spec (instance s))
              (ServiceID (Status (instance s))) ty url new) new.
Proof.
  intros Hr. apply convergeStep_inv in Hr. simpl in Hr.
  destruct Hr as [(err & _ & _ & ->)|[(_ & _ & ->)|Hr]];
    try (exists []; by rewrite app_nil_r).
  destruct Hr as (c & a & res & s1 & _ & Ha & Hres & -> & Hr).
  destruct res as [err|[|e [|e2 l]]].
  - destruct Hr as [_ ->]. eexists. split; [done|]. by repeat constructor.
  - destruct Hr as (cres & r' & _ & Hr). simpl in Hr.
    assert (∀ st, trace st = (trace s ++
                [EvGetEndpoints (ServiceID (Status (instance s))) ty (inr [])])
                ++ [EvCreateEndpoint ty
                      {| osName := ServiceName (Spec (instance s));
                         osServiceID := ServiceID (Status (instance s));
                         osAvailability := a; osURL := url |} cres] →
              ∃ new, trace st = trace s ++ new ∧
                Forall (convergeCallFor (Spec (instance s))
                          (ServiceID (Status (instance s))) ty url new) new)
      as Hshape.
    { intros st ->. rewrite <- app_assoc. eexists. split; [done|].
      repeat constructor; simpl; try done. }
    destruct cres as [err|id]; [destruct Hr as [_ ->]; by apply Hshape|].
    destruct (recordEndpoint_quiet _ _ _ _ _ _ Hr) as [_ Ht].
    by apply Hshape.
  - case_bool_decide as Hurl.
    + destruct Hr as (ures & r' & _ & Hr). simpl in Hr.
      assert (∀ st, trace st = (trace s ++
                  [EvGetEndpoints (ServiceID (Status (instance s))) ty
                     (inr [e])])
                  ++ [EvUpdateEndpoint ty
                        {| osName := reName e; osServiceID := reServiceID e;
                           osAvailability := a; osURL := url |}
                        (reID e) ures] →
                ∃ new, trace st = trace s ++ new ∧
                  Forall (convergeCallFor (Spec (instance s))
                            (ServiceID (Status (instance s))) ty url new) new)
        as Hshape.
      { intros st ->. rewrite <- app_assoc. eexists. split; [done|].
        constructor; [done|]. constructor; [|constructor]. simpl.
        split; [done|]. split; [done|]. split; [done|].
        exists e. split; [left|]. split; [done|]. split; [done|].
        split; [done|]. congruence. }
      destruct ures as [err|id]; [destruct Hr as [_ ->]; by apply Hshape|].
      destruct (recordEndpoint_quiet _ _ _ _ _ _ Hr) as [_ Ht].
      by apply Hshape.
    + destruct (recordEndpoint_quiet _ _ _ _ _ _ Hr) as [_ Ht].
      eexists. split; [exact Ht|]. by repeat constructor.
  - destruct Hr as [_ ->]. eexists. split; [done|]. by repeat constructor.
Qed.

Lemma retireLoop_calls os ro s out s' :
  forRange ro (retireStep os) s = (out, s') →
  ∃ new, trace s' = trace s ++ new ∧
    Forall (λ e, ∃ ty, ty ∈ ro ∧
                   retireCallFor (Spec (instance s))
                     (ServiceID (Status (instance s))) ty e) new.
Proof.
  revert s. induction ro as [|x l IH]; intros s Hr.
  - inversion Hr; subst. exists []. by rewrite app_nil_r.
  - apply forRange_cons_inv in Hr.
    destruct Hr as [(s1 & Hx & Hl)|[Hx _]].
    + destruct (retireStep_calls _ _ _ _ _ Hx) as (n1 & Ht1 & Hf1).
      destruct (touches_spec _ _ _ (retireStep_touches _ _ _ _ _ Hx))
        as [Hsp Hsid].
      destruct (IH _ Hl) as (n2 & Ht2 & Hf2). rewrite Hsp, Hsid in Hf2.
      exists (n1 ++ n2). rewrite Ht2, Ht1, app_assoc. split; [done|].
      apply Forall_app. split.
      * eapply Forall_impl; [exact Hf1|]. intros e He. exists x.
        split; [left|done].
      * eapply Forall_impl; [exact Hf2|]. intros e (t & Ht & He). exists t.
        split; [by right|done].
    + destruct (retireStep_calls _ _ _ _ _ Hx) as (n1 & Ht1 & Hf1).
      exists n1. split; [done|].
      eapply Forall_impl; [exact Hf1|]. intros e He. exists x.
      split; [left|done].
Qed.

Lemma convergeLoop_calls os co s out s' :
  forRange co (convergeStep os) s = (out, s') →
  ∃ new, trace s' = trace s ++ new ∧
    Forall (λ e, ∃ ty url, (ty, url) ∈ co ∧
                   convergeCallFor (Spec (instance s))
                     (ServiceID (Status (instance s))) ty url new e) new.
Proof.
  revert s. induction co as [|[x u] l IH]; intros s Hr.
  - inversion Hr; subst. exists []. by rewrite app_nil_r.
  - apply forRange_cons_inv in Hr.
    destruct Hr as [(s1 & Hx & Hl)|[Hx _]].
    + destruct (convergeStep_calls _ _ _ _ _ _ Hx) as (n1 & Ht1 & Hf1).
      destruct (touches_spec _ _ _ (convergeStep_touches _ _ _ _ _ _ Hx))
        as [Hsp Hsid].
      destruct (IH _ Hl) as (n2 & Ht2 & Hf2). rewrite Hsp, Hsid in Hf2.
      exists (n1 ++ n2). rewrite Ht2, Ht1, app_assoc. split; [done|].
      apply Forall_app. split.
      * eapply Forall_impl; [exact Hf1|]. intros e He. exists x, u.
        split; [left|].
        eapply convergeCallFor_mono; [|exact He].
        intros y Hy. apply elem_of_app. by left.
      * eapply Forall_impl; [exact Hf2|]. intros e (t & v & Ht & He).
        exists t, v. split; [by right|].
        eapply convergeCallFor_mono; [|exact He].
        intros y Hy. apply elem_of_app. by right.
    + destruct (convergeStep_calls _ _ _ _ _ _ Hx) as (n1 & Ht1 & Hf1).
      exists n1. split; [done|].
      eapply Forall_impl; [exact Hf1|]. intros e He. exists x, u.
      split; [left|done].
Qed.

(** X5.  Every call a pass of the sync engine makes has its reason in
    the spec and in what the identity service answered.  A delete call
    is made for a recorded type that the spec no longer declares, under
    the service name, the service identifier and the availability of the
    type.  Every other call is made for an entry of the spec: a query
    under the service identifier of the status; a create call only after
    the query for its type was answered with no endpoint, for the
    declared URL; an update call only after the query for its type was
    answered with exactly one endpoint whose URL is not the declared
    one, addressed to that endpoint, for the declared URL. *)
Theorem sync_calls_are_justified os ro co s out s' :
  rangeOf (SpecEndpoints (Spec (instance s))) co →
  reconcileEndpoints os ro co s = (out, s') →
  ∃ new, trace s' = trace s ++ new ∧
    Forall (justifiedCall (Spec (instance s))
              (ServiceID (Status (instance s))) ro new) new.
Proof.
  intros Hco Hr. apply reconcileEndpoints_inv in Hr.
  destruct Hr as (outr & sr & Hret & Hr).
  assert (Spec (instance sr) = Spec (instance s) ∧
          ServiceID (Status (instance sr)) = ServiceID (Status (instance s)) ∧
          ∃ n1, trace sr = trace s ++ n1 ∧
            Forall (λ e, ∃ ty, ty ∈ ro ∧
                      retireCallFor (Spec (instance s))
                        (ServiceID (Status (instance s))) ty e) n1)
    as (Hsp & Hsid & n1 & Ht1 & Hf1).
  { destruct (EndpointIDs (Status (instance s))).
    - destruct (touches_spec _ _ _ (retireLoop_touches _ _ _ _ _ Hret)).
      split; [done|]. split; [done|]. by eapply retireLoop_calls.
    - inversion Hret; subst. split; [done|]. split; [done|].
      exists []. by rewrite app_nil_r. }
  assert (∀ new, Forall (λ e, ∃ ty, ty ∈ ro ∧
                      retireCallFor (Spec (instance s))
                        (ServiceID (Status (instance s))) ty e) n1 →
            Forall (justifiedCall (Spec (instance s))
                      (ServiceID (Status (instance s))) ro new) n1) as Hlift1.
  { intros new Hf. eapply Forall_impl; [exact Hf|].
    intros e (ty & Hty & He). destruct e; try done. simpl in *.
    destruct He as (-> & ?). done. }
  destruct Hr as [[_ Hconv]|(_ & _ & ->)]; [|eauto].
  destruct (convergeLoop_calls _ _ _ _ _ Hconv) as (n2 & Ht2 & Hf2).
  rewrite Hsp, Hsid in Hf2.
  exists (n1 ++ n2). rewrite Ht2, Ht1, app_assoc. split; [done|].
  apply Forall_app. split; [by apply Hlift1|].
  eapply Forall_impl; [exact Hf2|]. intros e (ty & url & Hin & He).
  assert (SpecEndpoints (Spec (instance s)) !! ty = Some url) as Hl.
  { apply elem_of_map_to_list. unfold rangeOf in Hco. by rewrite <- Hco. }
  assert (convergeCallFor (Spec (instance s))
            (ServiceID (Status (instance s))) ty url (n1 ++ n2) e) as He'.
  { eapply convergeCallFor_mono; [|exact He].
    intros y Hy. apply elem_of_app. by right. }
  destruct e; try done; simpl; eauto.
Qed.

(** *** What a completed pass has recorded *)

Lemma entries_upsert_same (eps : list Endpoint) ty url id :
  filter (λ e, Interface e = ty) (upsertEndpoint eps ty url id) =
  {| Interface := ty; URL := url; ID := id |}
    :: tail (filter (λ e, Interface e = ty) eps).
Proof.
  unfold upsertEndpoint, getEndpointIdx, setIDAndURL. simpl.
  induction eps as [|x l IH]; simpl.
  { rewrite filter_cons_True by done. done. }
  case_bool_decide as Hx.
  - simpl. rewrite !filter_cons_True by done. simpl. by rewrite Hx.
  - rewrite (filter_cons_False _ x l) by done. rewrite <- IH.
    destruct (IndexFunc_range l (λ e : Endpoint, bool_decide (Interface e = ty)))
      as [Hm|Hr].
    + rewrite Hm. simpl. rewrite filter_cons_False; done.
    + destruct (Z.ltb_spec (IndexFunc l
                  (λ e : Endpoint, bool_decide (Interface e = ty))) 0); [lia|].
      destruct (Z.geb_spec (IndexFunc l
                  (λ e : Endpoint, bool_decide (Interface e = ty)) + 1) 0);
        [|lia].
      destruct (Z.geb_spec (IndexFunc l
                  (λ e : Endpoint, bool_decide (Interface e = ty))) 0); [|lia].
      replace (Z.to_nat (IndexFunc l _ + 1)) with
        (S (Z.to_nat (IndexFunc l
                        (λ e : Endpoint, bool_decide (Interface e = ty)))))
        by lia.
      simpl. rewrite filter_cons_False; done.
Qed.

Lemma recordEndpoint_records ty url id s s' :
  recordEndpoint ty url id s = (Next tt, s') →
  is_Some (SpecEndpoints (Spec (instance s)) !! ty) →
  trace s' = trace s ∧
  (id ≠ "" →
   idsOf s' !! ty = Some id ∧
   entriesOf ty s' =
     {| Interface := ty; URL := url; ID := id |} :: tail (entriesOf ty s)) ∧
  (id = "" → instance s' = instance s).
Proof.
  intros Hr Hspec. apply recordEndpoint_inv in Hr. simpl in Hr.
  destruct Hr as [(-> & _ & ->)|(Hid & [(_ & _ & [=] & _)|(_ & ids & Hids & ->)])];
    [done|]. simpl.
  split; [done|]. split; [|done]. intros _.
  destruct Hids as [[Hn _]|(_ & m & Hm & ->)].
  { rewrite Hn in Hspec. by destruct Hspec. }
  unfold idsOf, entriesOf. simpl. split; [by rewrite lookup_insert_eq|].
  apply entries_upsert_same.
Qed.

Lemma convergeStep_records os ty url s s' :
  convergeStep os (ty, url) s = (Next tt, s') →
  is_Some (SpecEndpoints (Spec (instance s)) !! ty) →
  ∃ id new,
    trace s' = trace s ++ new ∧
    answeredIdentifier (ServiceID (Status (instance s))) ty url new id ∧
    (id ≠ "" →
     idsOf s' !! ty = Some id ∧
     entriesOf ty s' =
       {| Interface := ty; URL := url; ID := id |} :: tail (entriesOf ty s)) ∧
    (id = "" → instance s' = instance s).
Proof.
  intros Hr Hspec. apply convergeStep_inv in Hr. simpl in Hr.
  destruct Hr as [(err & _ & [=] & _)|[(_ & [=] & _)|Hr]].
  destruct Hr as (c & a & res & s1 & _ & Ha & Hres & -> & Hr).
  destruct res as [err|[|e [|e2 l]]].
  - by destruct Hr as [[=] _].
  - destruct Hr as (cres & r' & _ & Hr). simpl in Hr.
    destruct cres as [err|id]; [by destruct Hr as [[=] _]|].
    destruct (recordEndpoint_records _ _ _ _ _ Hr Hspec) as (Ht & Hrec & Hemp).
    exists id. eexists. split.
    { rewrite Ht. simpl. rewrite <- app_assoc. done. }
    split; [|done]. left. eexists. apply list_elem_of_further, list_elem_of_here.
  - case_bool_decide as Hurl.
    + destruct Hr as (ures & r' & _ & Hr). simpl in Hr.
      destruct ures as [err|id]; [by destruct Hr as [[=] _]|].
      destruct (recordEndpoint_records _ _ _ _ _ Hr Hspec) as (Ht & Hrec & Hemp).
      exists id. eexists. split.
      { rewrite Ht. simpl. rewrite <- app_assoc. done. }
      split; [|done]. right. left. eexists _, _.
      apply list_elem_of_further, list_elem_of_here.
    + destruct (recordEndpoint_records _ _ _ _ _ Hr Hspec) as (Ht & Hrec & Hemp).
      exists (reID e). eexists. split; [rewrite Ht; done|].
      split; [|done]. right. right. exists e.
      split; [apply list_elem_of_here|]. split; [|done].
      destruct (decide (url = reURL e)); [done|by destruct Hurl].
  - by destruct Hr as [[=] _].
Qed.

Lemma answeredIdentifier_mono sid ty url new1 new2 id :
  (∀ x, x ∈ new1 → x ∈ new2) →
  answeredIdentifier sid ty url new1 id →
  answeredIdentifier sid ty url new2 id.
Proof.
  intros Hsub [(ep & ?)|[(ep & old & ?)|(l & ? & ?)]].
  - left. eauto.
  - right. left. eauto.
  - right. right. eauto.
Qed.

Lemma touches_trace P s s' :
  touches P s s' → ∃ new, trace s' = trace s ++ new.
Proof. intros (_ & _ & (new & Ht & _) & _). eauto. Qed.

Lemma touches_other (P : string → Prop) s s' ty :
  touches P s s' → ¬ P ty →
  idsOf s' !! ty = idsOf s !! ty ∧ entriesOf ty s' = entriesOf ty s.
Proof. intros (_ & _ & _ & Hother) Hty. by apply Hother. Qed.

(** X6.  What a completed pass has recorded.  When a pass of the sync
    engine returns without error, then for every endpoint type the spec
    declares the identity service has answered an identifier during the
    pass: the one returned by the create or the update call for the
    type, or the one of the single endpoint that the query listed with
    the declared URL already.  If that identifier is not empty, it is
    what [Status.EndpointIDs] holds for the type, and the first entry of
    [Status.Endpoints] for the type carries it together with the
    declared URL; if it is empty, what the status records for the type
    is left as it was. *)
Theorem sync_records_answered_identifier os ro co s s' ty url :
  rangeOf (SpecEndpoints (Spec (instance s))) co →
  reconcileEndpoints os ro co s = (Next tt, s') →
  SpecEndpoints (Spec (instance s)) !! ty = Some url →
  ∃ id new,
    trace s' = trace s ++ new ∧
    answeredIdentifier (ServiceID (Status (instance s))) ty url new id ∧
    (id ≠ "" →
     idsOf s' !! ty = Some id ∧
     head (entriesOf ty s') =
       Some {| Interface := ty; URL := url; ID := id |}) ∧
    (id = "" →
     idsOf s' !! ty = idsOf s !! ty ∧ entriesOf ty s' = entriesOf ty s).
Proof.
  intros Hco Hr Hspec. apply reconcileEndpoints_inv in Hr.
  destruct Hr as (outr & sr & Hret & [[-> Hconv]|(Hne & <- & _)]); [|done].
  assert (touches (λ t, t ∈ ro ∧ SpecEndpoints (Spec (instance s)) !! t = None)
            s sr) as Hsr.
  { destruct (EndpointIDs (Status (instance s))).
    - eapply retireLoop_touches, Hret.
    - inversion Hret; subst. apply touches_refl. }
  destruct (touches_spec _ _ _ Hsr) as [Hsp0 Hsid0].
  destruct (touches_trace _ _ _ Hsr) as [n0 Ht0].
  destruct (touches_other _ _ _ ty Hsr) as [Hids0 Hent0].
  { intros [_ Hn]. congruence. }
  assert ((ty, url) ∈ co) as Hin.
  { unfold rangeOf in Hco. rewrite Hco. by apply elem_of_map_to_list. }
  assert (NoDup co.*1) as Hnd.
  { unfold rangeOf in Hco. rewrite Hco. apply NoDup_fst_map_to_list. }
  apply list_elem_of_split in Hin as (l1 & l2 & ->).
  rewrite fmap_app, fmap_cons in Hnd. simpl in Hnd.
  apply NoDup_app in Hnd as (_ & Hl1 & Hnd2).
  apply NoDup_cons in Hnd2 as [Hl2 _].
  assert (ty ∉ l1.*1) as Hl1' by (intros Hx; apply (Hl1 _ Hx); left).
  rewrite forRange_app in Hconv.
  destruct (forRange l1 (convergeStep os) sr) as [[[]|v|] s1] eqn:Hloop1;
    [|done|done].
  apply forRange_cons_inv in Hconv as [(s2 & Hstep & Hloop2)|[_ Hne]]; [|done].
  pose proof (convergeLoop_touches _ _ _ _ _ Hloop1) as H1.
  pose proof (convergeLoop_touches _ _ _ _ _ Hloop2) as H2.
  destruct (touches_spec _ _ _ H1) as [Hsp1 Hsid1].
  destruct (touches_trace _ _ _ H1) as [n1 Ht1].
  destruct (touches_other _ _ _ ty H1 Hl1') as [Hids1 Hent1].
  destruct (touches_trace _ _ _ H2) as [n2 Ht2].
  destruct (touches_other _ _ _ ty H2 Hl2) as [Hids2 Hent2].
  destruct (convergeStep_records _ _ _ _ _ Hstep)
    as (id & new & Ht & Hans & Hrec & Hemp).
  { rewrite Hsp1, Hsp0, Hspec. by eexists. }
  exists id, (n0 ++ n1 ++ new ++ n2).
  split; [rewrite Ht2, Ht, Ht1, Ht0, <- !app_assoc; done|].
  split.
  { rewrite Hsid1, Hsid0 in Hans.
    eapply answeredIdentifier_mono; [|exact Hans].
    intros x Hx. rewrite !elem_of_app. auto. }
  split.
  - intros Hid. destruct (Hrec Hid) as [Hi He].
    rewrite Hids2, Hent2, Hi, He. done.
  - intros Hid. specialize (Hemp Hid).
    unfold idsOf, entriesOf in *.
    rewrite Hids2, Hent2, Hemp, Hids1, Hent1, Hids0, Hent0. done.
Qed.

(** *** No churn *)

Lemma mutationsFor_app ty (a b : list Event) :
  mutationsFor ty (a ++ b) = mutationsFor ty a ++ mutationsFor ty b.
Proof. unfold mutationsFor. apply filter_app. Qed.

Lemma mutationsFor_other ty (new : list Event) :
  Forall (λ e, evType e ≠ Some ty) new → mutationsFor ty new = [].
Proof.
  unfold mutationsFor. induction 1 as [|e l He _ IH]; [done|].
  rewrite filter_cons_False; [done|]. tauto.
Qed.

Lemma retireStep_mutations os t s out s' :
  retireStep os t s = (out, s') →
  ∃ new, trace s' = trace s ++ new ∧
    Forall (λ e, evType e = Some t ∧
                 SpecEndpoints (Spec (instance s)) !! t = None) new ∧
    (length new ≤ 1)%nat.
Proof.
  intros Hr. apply retireStep_inv in Hr. simpl in Hr.
  destruct Hr as [(_ & _ & ->)|(Hs & [(err & _ & _ & ->)|[(_ & _ & ->)|Hr]])];
    try (exists []; rewrite app_nil_r; split; [done|]; split; [done|];
         simpl; lia).
  destruct Hr as (c & a & res & r' & _ & _ & _ & Hr).
  destruct res as [err|]; destruct Hr as [_ ->]; simpl;
    (eexists; split; [done|]; split; [by repeat constructor|]; simpl; lia).
Qed.

Lemma convergeStep_mutations os t url s out s' :
  convergeStep os (t, url) s = (out, s') →
  ∃ new, trace s' = trace s ++ new ∧
    Forall (λ e, evType e = Some t) new ∧
    (length (filter (λ e, isMutation e = true) new) ≤ 1)%nat.
Proof.
  intros Hr. apply convergeStep_inv in Hr. simpl in Hr.
  destruct Hr as [(err & _ & _ & ->)|[(_ & _ & ->)|Hr]];
    try (exists []; rewrite app_nil_r; split; [done|]; split; [done|];
         simpl; lia).
  destruct Hr as (c & a & res & s1 & _ & _ & _ & -> & Hr).
  assert (∀ e st, trace st = trace s ++ [e] →
            isMutation e = false → evType e = Some t →
            ∃ new, trace st = trace s ++ new ∧
              Forall (λ e, evType e = Some t) new ∧
              (length (filter (λ e, isMutation e = true) new) ≤ 1)%nat)
    as Hone.
  { intros e st -> Hm Hty. eexists. split; [done|].
    split; [by repeat constructor|].
    rewrite filter_cons_False by (rewrite Hm; done). simpl. lia. }
  assert (∀ e m st, trace st = (trace s ++ [e]) ++ [m] →
            isMutation e = false → evType e = Some t → evType m = Some t →
            ∃ new, trace st = trace s ++ new ∧
              Forall (λ e, evType e = Some t) new ∧
              (length (filter (λ e, isMutation e = true) new) ≤ 1)%nat)
    as Htwo.
  { intros e m st -> Hm Hty Hty'. rewrite <- app_assoc. eexists.
    split; [done|]. split; [by repeat constructor|]. simpl.
    rewrite filter_cons_False by (rewrite Hm; done).
    destruct (decide (isMutation m = true)).
    - rewrite filter_cons_True by done. simpl. lia.
    - rewrite filter_cons_False by done. simpl. lia. }
  destruct res as [err|[|e [|e2 l]]].
  - destruct Hr as [_ ->]. eapply Hone; [first [reflexivity|rewrite Ht; reflexivity]|done|done].
  - destruct Hr as (cres & r' & _ & Hr). simpl in Hr.
    destruct cres as [err|id];
      [destruct Hr as [_ ->]|
       destruct (recordEndpoint_quiet _ _ _ _ _ _ Hr) as [_ Ht]];
      (eapply Htwo; [first [reflexivity|rewrite Ht; reflexivity]|done|done|done]).
  - case_bool_decide.
    + destruct Hr as (ures & r' & _ & Hr). simpl in Hr.
      destruct ures as [err|id];
        [destruct Hr as [_ ->]|
         destruct (recordEndpoint_quiet _ _ _ _ _ _ Hr) as [_ Ht]];
        (eapply Htwo; [first [reflexivity|rewrite Ht; reflexivity]|done|done|done]).
    + destruct (recordEndpoint_quiet _ _ _ _ _ _ Hr) as [_ Ht].
      eapply Hone; [first [reflexivity|rewrite Ht; reflexivity]|done|done].
  - destruct Hr as [_ ->]. eapply Hone; [first [reflexivity|rewrite Ht; reflexivity]|done|done].
Qed.

Lemma retireLoop_mutations os ro s out s' ty :
  NoDup ro →
  forRange ro (retireStep os) s = (out, s') →
  ∃ new, trace s' = trace s ++ new ∧
    (length (mutationsFor ty new) ≤ 1)%nat ∧
    (is_Some (SpecEndpoints (Spec (instance s)) !! ty) →
     mutationsFor ty new = []).
Proof.
  revert s. induction ro as [|x l IH]; intros s Hnd Hr.
  - inversion Hr; subst. exists []. rewrite app_nil_r.
    split; [done|]. split; [simpl; lia|done].
  - apply NoDup_cons in Hnd as [Hx Hl].
    assert (∀ s1 o, retireStep os x s = (o, s1) →
              ∃ n1, trace s1 = trace s ++ n1 ∧
                (length (mutationsFor ty n1) ≤ 1)%nat ∧
                (x ≠ ty → mutationsFor ty n1 = []) ∧
                (is_Some (SpecEndpoints (Spec (instance s)) !! ty) →
                 mutationsFor ty n1 = [])) as Hstep.
    { intros s1 o Hs1.
      destruct (retireStep_mutations _ _ _ _ _ Hs1) as (n1 & Ht & Hf & Hlen).
      exists n1. split; [done|]. split; [|split].
      - unfold mutationsFor.
        etrans; [apply length_filter|done].
      - intros Hne. apply mutationsFor_other.
        eapply Forall_impl; [exact Hf|]. intros e [-> _]. congruence.
      - intros [u Hu]. apply mutationsFor_other.
        eapply Forall_impl; [exact Hf|]. intros e [-> Hn]. congruence. }
    apply forRange_cons_inv in Hr.
    destruct Hr as [(s1 & Hs1 & Hloop)|[Hs1 _]].
    + destruct (Hstep _ _ Hs1) as (n1 & Ht1 & Hlen1 & Hne1 & Hsp1).
      destruct (touches_spec _ _ _ (retireStep_touches _ _ _ _ _ Hs1))
        as [Hspec _].
      destruct (IH _ Hl Hloop) as (n2 & Ht2 & Hlen2 & Hsp2).
      rewrite Hspec in Hsp2.
      exists (n1 ++ n2). rewrite Ht2, Ht1, app_assoc. split; [done|].
      rewrite mutationsFor_app, length_app. split.
      * destruct (decide (x = ty)) as [->|Hne].
        -- assert (mutationsFor ty n2 = []) as ->; [|simpl; lia].
           destruct (retireLoop_touches _ _ _ _ _ Hloop)
             as (_ & _ & (n2' & Ht2' & Hf2) & _).
           rewrite Ht2 in Ht2'. apply app_inv_head in Ht2' as <-.
           apply mutationsFor_other.
           eapply Forall_impl; [exact Hf2|].
           intros e (t & -> & Hin & _) [= ->]. done.
        -- rewrite (Hne1 Hne). simpl. lia.
      * intros Hs. rewrite (Hsp1 Hs), (Hsp2 Hs). done.
    + destruct (Hstep _ _ Hs1) as (n1 & Ht1 & Hlen1 & _ & Hsp1). eauto.
Qed.

Lemma convergeLoop_mutations os co s out s' ty :
  NoDup co.*1 →
  forRange co (convergeStep os) s = (out, s') →
  ∃ new, trace s' = trace s ++ new ∧
    (length (mutationsFor ty new) ≤ 1)%nat ∧
    (ty ∉ co.*1 → mutationsFor ty new = []).
Proof.
  revert s. induction co as [|[x u] l IH]; intros s Hnd Hr.
  - inversion Hr; subst. exists []. rewrite app_nil_r.
    split; [done|]. split; [simpl; lia|done].
  - rewrite fmap_cons in Hnd. simpl in Hnd.
    apply NoDup_cons in Hnd as [Hx Hl].
    assert (∀ s1 o, convergeStep os (x, u) s = (o, s1) →
              ∃ n1, trace s1 = trace s ++ n1 ∧
                (length (mutationsFor ty n1) ≤ 1)%nat ∧
                (x ≠ ty → mutationsFor ty n1 = [])) as Hstep.
    { intros s1 o Hs1.
      destruct (convergeStep_mutations _ _ _ _ _ _ Hs1) as (n1 & Ht & Hf & Hlen).
      exists n1. split; [done|]. split.
      - etrans; [|exact Hlen]. unfold mutationsFor.
        clear. induction n1 as [|e n IH]; [done|].
        destruct (decide (isMutation e = true)) as [Hm|Hm].
        + rewrite (filter_cons_True (λ e, isMutation e = true)) by done.
          destruct (decide (evType e = Some ty)).
          * rewrite filter_cons_True by done. simpl. lia.
          * rewrite filter_cons_False by tauto. simpl. lia.
        + rewrite (filter_cons_False (λ e, isMutation e = true)) by done.
          rewrite filter_cons_False by tauto. done.
      - intros Hne. apply mutationsFor_other.
        eapply Forall_impl; [exact Hf|]. intros e ->. congruence. }
    apply forRange_cons_inv in Hr.
    destruct Hr as [(s1 & Hs1 & Hloop)|[Hs1 _]].
    + destruct (Hstep _ _ Hs1) as (n1 & Ht1 & Hlen1 & Hne1).
      destruct (IH _ Hl Hloop) as (n2 & Ht2 & Hlen2 & Hout2).
      exists (n1 ++ n2). rewrite Ht2, Ht1, app_assoc. split; [done|].
      rewrite mutationsFor_app, length_app. split.
      * destruct (decide (x = ty)) as [->|Hne].
        -- rewrite (Hout2 Hx). simpl. lia.
        -- rewrite (Hne1 Hne). simpl. lia.
      * intros Hout. rewrite fmap_cons in Hout. simpl in Hout.
        apply not_elem_of_cons in Hout as [Hne Hout].
        rewrite (Hne1 (not_eq_sym Hne)), (Hout2 Hout). done.
    + destruct (Hstep _ _ Hs1) as (n1 & Ht1 & Hlen1 & Hne1).
      exists n1. split; [done|]. split; [done|].
      intros Hout. rewrite fmap_cons in Hout. simpl in Hout.
      apply not_elem_of_cons in Hout as [Hne _]. auto.
Qed.

(** X7.  No churn.  For every endpoint type, a pass of the sync engine
    makes at most one call that writes to the identity service: a type
    is never deleted and registered again, created twice, or created and
    then updated within one pass. *)
Theorem at_most_one_mutation_per_type os ro co s out s' ty :
  keyRangeOf (idsOf s) ro →
  rangeOf (SpecEndpoints (Spec (instance s))) co →
  reconcileEndpoints os ro co s = (out, s') →
  ∃ new, trace s' = trace s ++ new ∧
         (length (mutationsFor ty new) ≤ 1)%nat.
Proof.
  intros Hro Hco Hr. apply reconcileEndpoints_inv in Hr.
  destruct Hr as (outr & sr & Hret & Hr).
  assert (NoDup ro) as Hndr.
  { unfold keyRangeOf in Hro. rewrite Hro. apply NoDup_fst_map_to_list. }
  assert (NoDup co.*1) as Hndc.
  { unfold rangeOf in Hco. rewrite Hco. apply NoDup_fst_map_to_list. }
  assert (∃ n1, trace sr = trace s ++ n1 ∧
            (length (mutationsFor ty n1) ≤ 1)%nat ∧
            (is_Some (SpecEndpoints (Spec (instance s)) !! ty) →
             mutationsFor ty n1 = [])) as (n1 & Ht1 & Hlen1 & Hsp1).
  { destruct (EndpointIDs (Status (instance s))).
    - exact (retireLoop_mutations _ _ _ _ _ ty Hndr Hret).
    - inversion Hret; subst. exists []. rewrite app_nil_r.
      split; [done|]. split; [simpl; lia|done]. }
  destruct Hr as [[_ Hconv]|(_ & _ & ->)]; [|eauto].
  destruct (convergeLoop_mutations _ _ _ _ _ ty Hndc Hconv)
    as (n2 & Ht2 & Hlen2 & Hout2).
  exists (n1 ++ n2). rewrite Ht2, Ht1, app_assoc. split; [done|].
  rewrite mutationsFor_app, length_app.
  destruct (SpecEndpoints (Spec (instance s)) !! ty) as [u|] eqn:Hs.
  - rewrite Hsp1 by by eexists. simpl. lia.
  - rewrite Hout2; [simpl; lia|].
    unfold rangeOf in Hco. rewrite Hco.
    intros Hin. apply list_elem_of_fmap in Hin as ([t v] & -> & Hin).
    apply elem_of_map_to_list in Hin. simpl in Hs. congruence.
Qed.

End EngineInvariants.

(** * Invariants of a whole pass *)

Section PassInvariants.
Context `{LibCommon}.

#[local] Arguments RemoveFinalizer : simpl never.
#[local] Arguments AddFinalizer : simpl never.
#[local] Arguments endpointFinalizer : simpl never.

(** ** The rules for [keeps] *)

Section KeepsRules.
Context (J : KeystoneEndpoint → Prop) (E : Event → Prop).

Lemma keeps_ret {V A} (a : A) : keeps J E (ret a : M St V A).
Proof. by intros s. Qed.

Lemma keeps_return {V A} (v : V) : keeps J E (return_ v : M St V A).
Proof. by intros s. Qed.

Lemma keeps_panic {V A} : keeps J E (panic : M St V A).
Proof. by intros s. Qed.

Lemma keeps_bind {V A B} (m : M St V A) (k : A → M St V B) :
  keeps J E m → (∀ a, keeps J E (k a)) → keeps J E (bind m k).
Proof.
  intros Hm Hk s HJ HE. unfold bind.
  destruct (Hm s HJ HE) as [HJ1 HE1].
  destruct (m s) as [[a|v|] s1]; simpl in *; [|done|done].
  by apply Hk.
Qed.

Lemma keeps_get {V B} (k : KeystoneEndpoint → M St V B) :
  (∀ i, J i → keeps J E (k i)) → keeps J E (bind getInstance k).
Proof. intros Hk s HJ HE. unfold bind, getInstance. by apply Hk. Qed.

Lemma keeps_set {V} (i : KeystoneEndpoint) :
  J i → keeps J E (setInstance i : M St V unit).
Proof. by intros Hi s. Qed.

Lemma keeps_emit {V} (e : Event) : E e → keeps J E (emit e : M St V unit).
Proof.
  intros He s HJ HE. simpl. split; [done|].
  apply Forall_app. split; [done|by constructor].
Qed.

Lemma keeps_resolve {V} (onErr : error → V) ty :
  keeps J E (resolveOrReturn onErr ty).
Proof. intros s HJ HE. unfold resolveOrReturn. by destruct (GetAvailability ty). Qed.

Lemma keeps_forRange {V X} (body : X → M St V unit) (l : list X) :
  (∀ x, keeps J E (body x)) → keeps J E (forRange l body).
Proof.
  intros Hbody. induction l as [|x l IH]; simpl; [apply keeps_ret|].
  apply keeps_bind; [apply Hbody|done].
Qed.

Lemma keeps_call {V W} (m : M St W unit) :
  keeps J E m → keeps J E (call m : M St V (option W)).
Proof.
  intros Hm s HJ HE. unfold call. specialize (Hm s HJ HE).
  by destruct (m s) as [[a|v|] s1].
Qed.

Lemma keeps_DeleteEndpoint {V} os ty e :
  (∀ res, E (EvDeleteEndpoint ty e res)) →
  keeps J E (DeleteEndpoint os ty e : M St V (option error)).
Proof.
  intros He s HJ HE. unfold DeleteEndpoint. destruct os as [c|]; [|done].
  destruct (osDeleteEndpoint c (remote s) e) as [res r']. simpl.
  split; [done|]. apply Forall_app. split; [done|]. constructor; [apply He|done].
Qed.

(** The sync engine keeps what it cannot see: an invariant that does not
    depend on [EndpointIDs] and [Endpoints], beyond the map being nil or
    not. *)
Lemma keeps_reconcileEndpoints os ro co :
  (∀ i ids eps, J i →
     (is_Some ids ↔ is_Some (EndpointIDs (Status i))) →
     J (withEndpoints (withEndpointIDs i ids) eps)) →
  (∀ e, is_Some (evType e) → E e) →
  keeps J E (reconcileEndpoints os ro co).
Proof.
  intros HJ' HE' s HJ HE.
  destruct (reconcileEndpoints os ro co s) as [out s'] eqn:Hr.
  apply reconcileEndpoints_touches in Hr.
  destruct Hr as ((ids & eps & Hi) & Hsome & (new & Ht & Hnew) & _).
  simpl. split.
  - rewrite Hi. apply HJ'; [done|]. rewrite <- Hsome, Hi. done.
  - rewrite Ht. apply Forall_app. split; [done|].
    eapply Forall_impl; [exact Hnew|]. intros e (ty & Hty & _).
    apply HE'. by rewrite Hty.
Qed.

End KeepsRules.

(** ** The rules for [safe] *)

Section SafeRules.
Context (J : KeystoneEndpoint → Prop).

Lemma safe_ret {V A} (a : A) : safe J (ret a : M St V A).
Proof. by intros s. Qed.

Lemma safe_return {V A} (v : V) : safe J (return_ v : M St V A).
Proof. by intros s. Qed.

Lemma safe_bind {V A B} (m : M St V A) (k : A → M St V B) :
  safe J m → (∀ a, safe J (k a)) → safe J (bind m k).
Proof.
  intros Hm Hk s HJ. unfold bind.
  destruct (Hm s HJ) as [Hp HJ1].
  destruct (m s) as [[a|v|] s1]; simpl in *; [|done|done].
  by apply Hk.
Qed.

Lemma safe_get {V B} (k : KeystoneEndpoint → M St V B) :
  (∀ i, J i → safe J (k i)) → safe J (bind getInstance k).
Proof. intros Hk s HJ. unfold bind, getInstance. by apply Hk. Qed.

Lemma safe_set {V} (i : KeystoneEndpoint) :
  J i → safe J (setInstance i : M St V unit).
Proof. by intros Hi s. Qed.

Lemma safe_emit {V} (e : Event) : safe J (emit e : M St V unit).
Proof. by intros s. Qed.

Lemma safe_resolve {V} (onErr : error → V) ty :
  safe J (resolveOrReturn onErr ty).
Proof. intros s HJ. unfold resolveOrReturn. by destruct (GetAvailability ty). Qed.

Lemma safe_forRange {V X} (body : X → M St V unit) (l : list X) :
  (∀ x, safe J (body x)) → safe J (forRange l body).
Proof.
  intros Hbody. induction l as [|x l IH]; simpl; [apply safe_ret|].
  apply safe_bind; [apply Hbody|done].
Qed.

Lemma safe_call {V W} (m : M St W unit) :
  safe J m → safe J (call m : M St V (option W)).
Proof.
  intros Hm s HJ. unfold call. specialize (Hm s HJ).
  destruct (m s) as [[a|v|] s1]; simpl in *; by destruct Hm.
Qed.

Lemma safe_DeleteEndpoint {V} c ty e :
  safe J (DeleteEndpoint (Some c) ty e : M St V (option error)).
Proof.
  intros s HJ. unfold DeleteEndpoint.
  by destruct (osDeleteEndpoint c (remote s) e) as [res r'].
Qed.

End SafeRules.

(** Walks down a computation along its binds and its case distinctions,
    as far as the rules go. *)
Ltac walk :=
  repeat
    lazymatch goal with
    | |- safe _ (reconcileEndpoints _ _ _) => fail
    | |- keeps _ _ (reconcileEndpoints _ _ _) =>
        apply keeps_reconcileEndpoints
    | |- _ =>
        first
          [ apply keeps_ret | apply keeps_return | apply keeps_panic
          | apply safe_ret | apply safe_return
          | apply keeps_resolve | apply safe_resolve
          | apply keeps_set | apply safe_set
          | apply keeps_emit | apply safe_emit
          | apply keeps_DeleteEndpoint; intros ?
          | apply safe_DeleteEndpoint
          | apply keeps_get; intros ? ?
          | apply safe_get; intros ? ?
          | apply keeps_bind; [|intros ?]
          | apply safe_bind; [|intros ?]
          | apply keeps_forRange; intros ?
          | apply safe_forRange; intros ?
          | apply keeps_call
          | apply safe_call
          | match goal with
            | |- keeps _ _ (match ?x with _ => _ end) => destruct x eqn:?
            | |- safe _ (match ?x with _ => _ end) => destruct x eqn:?
            end ]
    end.

Ltac unfold_pass :=
  unfold reconcileBody, reconcileNormal, reconcileDelete,
    reconcileDeleteFinalizersOnly, releaseService, removeFinalizerFromService,
    removeFinalizerFromAPI, removeOwnFinalizer, setCondition, markTrue,
    deleteStep.

(** ** What a pass leaves of the object *)

Lemma reconcileBody_keeps_object cl sched helper i0 :
  keeps (sameObject i0) (λ _, True) (reconcileBody cl sched helper).
Proof.
  unfold_pass. walk; done.
Qed.

Lemma bind_getInstance {V B} (k : KeystoneEndpoint → M St V B) s :
  bind getInstance k s = k (instance s) s.
Proof. reflexivity. Qed.

Lemma bind_setInstance {V B} i (k : unit → M St V B) s :
  bind (setInstance i) k s =
  k tt {| instance := i; remote := remote s; trace := trace s |}.
Proof. reflexivity. Qed.

Lemma bind_ret {V A B} (a : A) (k : A → M St V B) s : bind (ret a) k s = k a s.
Proof. reflexivity. Qed.

Lemma bind_return {V A B} (v : V) (k : A → M St V B) s :
  bind (return_ v) k s = (Return v, s).
Proof. reflexivity. Qed.

(** X8.  A pass changes nothing of the object but its status and its
    finalizers: the instance it leaves in memory, and patches, has the
    name, the namespace, the generation, the deletion timestamp and the
    spec of the instance it loaded, whatever the platform and the
    identity service answer and however the pass ends. *)
Theorem Reconcile_keeps_object cl sched r i :
  Get cl = inr i →
  ∃ i', passInstance (Reconcile cl sched r) = Some i' ∧ sameObject i i'.
Proof.
  intros Hget. unfold Reconcile. rewrite Hget.
  destruct (NewHelper cl i) as [err|helper]; [by exists i|].
  destruct (reconcileBody_keeps_object cl sched helper i
              {| instance := i; remote := r; trace := [] |})
    as [Hobj _]; [done|done|].
  destruct (reconcileBody cl sched helper _) as [[[]|[result err]|] s];
    cbn in *; eexists; (split; [done|]); done.
Qed.

(** ** The observed generation *)

(** X9.  Every pass over an initialised instance, once its helper is
    built, records the generation it has seen: the instance it leaves
    has [Status.ObservedGeneration] equal to the generation of the
    instance it loaded, and a [Status.EndpointIDs] map that is not nil,
    whichever way the pass goes on from there and however it ends. *)
Theorem Reconcile_observes_generation cl sched r i helper :
  Get cl = inr i → NewHelper cl i = inr helper →
  conditionsIsNil (StatusConditions (Status i)) = false →
  ∃ i', passInstance (Reconcile cl sched r) = Some i' ∧
        ObservedGeneration (Status i') = Generation i ∧
        is_Some (EndpointIDs (Status i')).
Proof.
  intros Hget Hhelper Hnil. unfold Reconcile. rewrite Hget, Hhelper.
  unfold reconcileBody. rewrite bind_getInstance. cbn [instance].
  rewrite Hnil, bind_setInstance.
  match goal with
  | |- context [deferred cl (?m ?s1)] =>
      assert (keeps (λ i', ObservedGeneration (Status i') = Generation i ∧
                           is_Some (EndpointIDs (Status i')))
                (λ _, True) m) as Hkeeps;
      [|destruct (Hkeeps s1) as [Hobs _]; [by (split; [|eexists])|done|];
        destruct (m s1) as [[[]|[result err]|] s]]
  end.
  - unfold_pass. walk; try done.
    + split; [tauto|by eexists].
    + split; [tauto|by eexists].
    + split; [tauto|by eexists].
    + intros j ids eps [? ?] Hiff. split; [done|]. by apply Hiff.
  - cbn in *. eexists. split; [done|]. done.
  - cbn in *. eexists. split; [done|]. done.
Qed.

(** ** Panics *)

Lemma Result_eqb_eq (a b : Result) : Result_eqb a b = true → a = b.
Proof.
  unfold Result_eqb. destruct a as [q1 t1], b as [q2 t2]. simpl.
  intros [Hq Ht]%andb_true_iff.
  apply Bool.eqb_prop in Hq. apply Z.eqb_eq in Ht. congruence.
Qed.

Lemma reconcileEndpoints_safe c ro co :
  safe (λ i, is_Some (EndpointIDs (Status i)))
    (reconcileEndpoints (Some c) ro co).
Proof.
  intros s Hs.
  destruct (reconcileEndpoints (Some c) ro co s) as [out s'] eqn:Hr. simpl.
  split; [by eapply reconcileEndpoints_no_panic|].
  destruct (reconcileEndpoints_touches _ _ _ _ _ _ Hr) as (_ & Hnil & _).
  by apply Hnil.
Qed.

(** X10.  A pass does not panic, provided the platform hands out a client
    whenever it reports the admin client as ready (no error and no
    request to come back later): the pass returns a result, with or
    without an error.  On the delete path the client may be missing; the
    code checks for that before its loop. *)
Theorem Reconcile_does_not_panic cl sched r :
  (∀ api os, GetAdminServiceClient cl api = (os, emptyResult, None) →
             is_Some os) →
  passExit (Reconcile cl sched r) ≠ Panicked.
Proof.
  intros Hclient. unfold Reconcile.
  destruct (Get cl) as [err|i]; [by destruct (errIsNotFound err)|].
  destruct (NewHelper cl i) as [err|helper]; [done|].
  unfold reconcileBody. rewrite bind_getInstance. cbn [instance].
  destruct (conditionsIsNil (StatusConditions (Status i))); [done|].
  rewrite bind_setInstance.
  match goal with
  | |- context [deferred cl (?m ?s1)] =>
      assert (safe (λ i', is_Some (EndpointIDs (Status i'))) m) as Hsafe;
      [|destruct (Hsafe s1) as [Hnp _]; [by eexists|];
        destruct (m s1) as [[[]|[result err]|] s]]
  end.
  - unfold_pass. walk; try done; try by eexists.
    match goal with
    | Hc : GetAdminServiceClient cl _ = (?o, ?res, None),
      Hres : negb (Result_eqb ?res emptyResult) = false |- _ =>
        apply negb_false_iff, Result_eqb_eq in Hres; subst res;
        destruct (Hclient _ _ Hc) as [c ->]
    end.
    apply reconcileEndpoints_safe.
  - done.
  - done.
Qed.

(** ** Finalizers *)

Lemma AddFinalizer_elem (f : list string) x : x ∈ (AddFinalizer f x).1.
Proof.
  unfold AddFinalizer. case_bool_decide; simpl; [done|].
  apply elem_of_app. right. left.
Qed.

Lemma RemoveFinalizer_not_elem (f : list string) x :
  x ∉ (RemoveFinalizer f x).1.
Proof.
  unfold RemoveFinalizer. simpl. intros [Hne _]%list_elem_of_filter. done.
Qed.

Lemma RemoveFinalizer_subseteq (f : list string) x :
  (RemoveFinalizer f x).1 ⊆ f.
Proof.
  unfold RemoveFinalizer. simpl. intros y [_ Hy]%list_elem_of_filter. done.
Qed.

Lemma endpointFinalizer_same helper (i i' : KeystoneEndpoint) :
  Name i' = Name i → endpointFinalizer helper i' = endpointFinalizer helper i.
Proof. unfold endpointFinalizer. by intros ->. Qed.

(** X11.  A pass over an initialised instance that is not being deleted
    holds on to what it depends on: the instance it leaves carries its
    own finalizer, and every write of the service registration or of
    the identity-API registration made during the pass writes the
    registration with the marker of this instance on it. *)
Theorem live_pass_holds_finalizers cl sched r i helper :
  Get cl = inr i → NewHelper cl i = inr helper →
  conditionsIsNil (StatusConditions (Status i)) = false →
  IsZero (DeletionTimestamp i) = true →
  let p := Reconcile cl sched r in
  Forall (holdCall (endpointFinalizer helper i)) (passTrace p) ∧
  ∃ i', passInstance p = Some i' ∧ GetFinalizer helper ∈ Finalizers i'.
Proof.
  intros Hget Hhelper Hnil Hlive p. subst p.
  unfold Reconcile. rewrite Hget, Hhelper.
  unfold reconcileBody. rewrite bind_getInstance. cbn [instance].
  rewrite Hnil, bind_setInstance, bind_getInstance. cbn [instance].
  change (DeletionTimestamp (withObservedGeneration _ _))
    with (DeletionTimestamp i).
  change (Finalizers (withObservedGeneration _ _)) with (Finalizers i).
  rewrite Hlive.
  match goal with
  | |- context [bind (let '(_, _) := _ in _) ?k] =>
      assert (keeps (λ i', sameObject i i' ∧
                           GetFinalizer helper ∈ Finalizers i')
                (holdCall (endpointFinalizer helper i)) (k tt)) as Hrest;
      [cbv beta|set (rest := k) in *; clearbody rest]
  end.
  { unfold_pass. walk; try done; cbv beta in *;
      repeat match goal with
             | HJ : sameObject _ _ ∧ _ |- _ =>
                 destruct HJ as [(? & ? & ? & ? & ?) ?]
             end;
      try (exfalso;
           repeat match goal with
                  | Hd : DeletionTimestamp _ = DeletionTimestamp i |- _ =>
                      rewrite Hd in *; clear Hd
                  end;
           rewrite Hlive in *; simpl in *; congruence);
      try match goal with
          | Hadd : AddFinalizer ?f (endpointFinalizer helper ?j) = (?l, _),
            Hn : Name ?j = Name i |- _ =>
              simpl; rewrite <- (endpointFinalizer_same helper i j Hn);
              replace l with (AddFinalizer f (endpointFinalizer helper j)).1
                by (by rewrite Hadd);
              apply AddFinalizer_elem
          end.
    intros e He. destruct e; simpl; try done; by destruct He. }
  pose proof (AddFinalizer_elem (Finalizers i) (GetFinalizer helper)) as Hin.
  destruct (AddFinalizer (Finalizers i) (GetFinalizer helper)) as [f [|]];
    simpl in Hin.
  - cbn. split; [by repeat constructor|]. eexists. split; [done|]. done.
  - cbn.
    match goal with
    | |- context [rest () ?s2] =>
        destruct (Hrest s2) as [[_ HJ] HE]; [by split|done|];
        destruct (rest () s2) as [[[]|[res err]|] s]
    end.
    + cbn in *. split; [|by eexists].
      apply Forall_app. split; [done|by repeat constructor].
    + cbn in *. split; [done|by eexists].
Qed.

(** X12.  A pass over an initialised instance that is being deleted
    only lets go: it makes no query, no create and no update call to
    the identity service; a write of the service registration or of the
    identity-API registration writes it without the marker of this
    instance; the instance gains no finalizer; and [Status.Endpoints]
    and [Status.ServiceID] are left as they were. *)
Theorem deleting_pass_only_releases cl sched r i helper :
  Get cl = inr i → NewHelper cl i = inr helper →
  conditionsIsNil (StatusConditions (Status i)) = false →
  IsZero (DeletionTimestamp i) = false →
  let p := Reconcile cl sched r in
  Forall (releaseCall (endpointFinalizer helper i)) (passTrace p) ∧
  ∃ i', passInstance p = Some i' ∧
        Finalizers i' ⊆ Finalizers i ∧
        Endpoints (Status i') = Endpoints (Status i) ∧
        ServiceID (Status i') = ServiceID (Status i).
Proof.
  intros Hget Hhelper Hnil Hdel p. subst p.
  unfold Reconcile. rewrite Hget, Hhelper.
  unfold reconcileBody. rewrite bind_getInstance. cbn [instance].
  rewrite Hnil, bind_setInstance, bind_getInstance. cbn [instance].
  change (DeletionTimestamp (withObservedGeneration _ _))
    with (DeletionTimestamp i).
  match goal with
  | |- context [bind (if IsZero _ then _ else _) ?k] =>
      assert (keeps (λ i', sameObject i i' ∧
                           Finalizers i' ⊆ Finalizers i ∧
                           Endpoints (Status i') = Endpoints (Status i) ∧
                           ServiceID (Status i') = ServiceID (Status i))
                (releaseCall (endpointFinalizer helper i)) (k tt)) as Hrest;
      [cbv beta|set (rest := k) in *; clearbody rest]
  end.
  { unfold_pass. walk; try done; cbv beta in *;
      repeat match goal with
             | HJ : sameObject _ _ ∧ _ |- _ =>
                 destruct HJ as [(? & ? & ? & ? & ?) (? & ? & ?)]
             end;
      try (exfalso;
           repeat match goal with
                  | Hd : DeletionTimestamp _ = DeletionTimestamp i |- _ =>
                      rewrite Hd in *; clear Hd
                  end;
           rewrite Hdel in *; simpl in *; congruence);
      try match goal with
          | Hrm : RemoveFinalizer ?f (endpointFinalizer helper ?j) = (?l, _),
            Hn : Name ?j = Name i |- _ =>
              simpl; rewrite <- (endpointFinalizer_same helper i j Hn);
              replace l
                with (RemoveFinalizer f (endpointFinalizer helper j)).1
                by (by rewrite Hrm);
              apply RemoveFinalizer_not_elem
          end.
    all: split; [done|]; split; [|done]; simpl;
      (etrans; [apply RemoveFinalizer_subseteq|done]). }
  rewrite Hdel. cbv iota. rewrite bind_ret.
  match goal with
  | |- context [rest () ?s2] =>
      destruct (Hrest s2) as [(_ & HJ) HE]; [done|done|];
      destruct (rest () s2) as [[[]|[res err]|] s]
  end.
  - cbn in *. split; [|by eexists].
    apply Forall_app. split; [done|by repeat constructor].
  - cbn in *. split; [done|by eexists].
Qed.

(** ** The instance and the identity API are deleted together *)

(** X13.  When an initialised instance and the identity-API registration
    are both being deleted, the pass leaves the identity service alone:
    it makes no call to it, does not even ask for a client, and keeps
    the identifiers recorded in [Status.EndpointIDs] and the entries of
    [Status.Endpoints] as they are.  It removes the markers of the
    instance from the service registration and from the identity-API
    registration and, if nothing stands in the way of that, drops the
    instance's own finalizer; if the lookup or a write of a registration
    fails, the instance keeps its finalizers and the pass returns an
    error. *)
Theorem both_deleted_skips_identity_service cl sched r i helper api :
  Get cl = inr i → NewHelper cl i = inr helper →
  conditionsIsNil (StatusConditions (Status i)) = false →
  IsZero (DeletionTimestamp i) = false →
  GetKeystoneAPI cl (Namespace i) = inr api →
  IsZero (apiDeletionTimestamp api) = false →
  let p := Reconcile cl sched r in
  Forall (λ e, isIdentityServiceCall e = false) (passTrace p) ∧
  passRemote p = r ∧
  ∃ i', passInstance p = Some i' ∧
    EndpointIDs (Status i') = Some (idsMap (EndpointIDs (Status i))) ∧
    Endpoints (Status i') = Endpoints (Status i) ∧
    (serviceReleasable cl helper i → apiReleasable cl helper i api →
     Finalizers i' = (RemoveFinalizer (Finalizers i) (GetFinalizer helper)).1 ∧
     passExit p = Returned emptyResult (PatchInstance cl i')) ∧
    (¬ (serviceReleasable cl helper i ∧ apiReleasable cl helper i api) →
     Finalizers i' = Finalizers i ∧
     ∃ err, passExit p = Returned emptyResult (Some err)).
Proof.
  intros Hget Hhelper Hnil Hdel Hapi Hadel p. subst p.
  unfold serviceReleasable, apiReleasable.
  unfold Reconcile. rewrite Hget, Hhelper.
  unfold reconcileBody, reconcileDeleteFinalizersOnly, releaseService,
    removeFinalizerFromService, removeFinalizerFromAPI, removeOwnFinalizer,
    bind, getInstance, setInstance, emit, ret, return_.
  cbn -[RemoveFinalizer endpointFinalizer idsMap IsZero]. rewrite Hnil.
  cbn -[RemoveFinalizer endpointFinalizer idsMap IsZero]. rewrite Hdel.
  cbn -[RemoveFinalizer endpointFinalizer idsMap IsZero]. rewrite Hapi.
  cbn -[RemoveFinalizer endpointFinalizer idsMap IsZero]. rewrite Hdel, Hadel.
  cbn -[RemoveFinalizer endpointFinalizer idsMap IsZero].
  change (endpointFinalizer helper (withObservedGeneration _ _))
    with (endpointFinalizer helper i).
  destruct (GetKeystoneServiceWithName cl (ServiceName (Spec i)) (Namespace i))
    as [e|ksSvc];
    [destruct (errIsNotFound e)
    |destruct (RemoveFinalizer (svcFinalizers ksSvc)
                 (endpointFinalizer helper i)) as [f [|]];
     [destruct (UpdateKeystoneService cl (svcWithFinalizers ksSvc f))|]];
    cbn -[RemoveFinalizer endpointFinalizer idsMap IsZero];
    change (endpointFinalizer helper (withObservedGeneration _ _))
      with (endpointFinalizer helper i);
    try (destruct (RemoveFinalizer (apiFinalizers api)
                     (endpointFinalizer helper i)) as [g [|]];
         [destruct (UpdateKeystoneAPI cl (apiWithFinalizers api g))|];
         cbn -[RemoveFinalizer endpointFinalizer idsMap IsZero]).
  all: split; [by repeat constructor|].
  all: split; [done|].
  all: eexists; split; [done|].
  all: split; [done|]; split; [done|].
  all: split;
    [intros Hs Ha;
     first [ split; [done|by destruct (PatchInstance cl _)]
           | by (try specialize (Hs eq_refl); try specialize (Ha eq_refl)) ]
    |intros Hn;
     first [ split; [done|destruct (PatchInstance cl _); by eexists]
           | exfalso; apply Hn; split; first [done|intros; done] ]].
Qed.

(** ** Dependencies that are not ready *)

(** X14.  On an initialised instance that carries its finalizer and is
    not being deleted, with the identity-API registration found: when
    the identity API is not ready, the pass records [KeystoneAPIReady]
    as false (requested, informational) and asks for a retry in five
    seconds without asking for a client; when the platform has no admin
    client yet and asks to come back, the pass records
    [AdminServiceClientReady] as false and hands on that request; when
    the service registration is found but not ready, the pass asks for
    a retry in ten seconds, leaves [Status.ServiceID] as it was, writes
    no registration and makes no endpoint call.  None of these passes
    returns an error of its own. *)
Theorem unready_dependency_requeues cl sched r i helper api :
  Get cl = inr i → NewHelper cl i = inr helper →
  conditionsIsNil (StatusConditions (Status i)) = false →
  IsZero (DeletionTimestamp i) = true →
  GetFinalizer helper ∈ Finalizers i →
  GetKeystoneAPI cl (Namespace i) = inr api →
  let p := Reconcile cl sched r in
  let c := StatusConditions (Status i) in
  let cAPI := MarkTrue c KeystoneAPIReadyCondition KeystoneAPIReadyMessage [] in
  (apiIsReady api = false →
   ∃ i', passInstance p = Some i' ∧
     passExit p =
       Returned {| Requeue := false; RequeueAfter := Second * 5 |}
         (PatchInstance cl i') ∧
     StatusConditions (Status i') =
       aggregateReady
         (Set_ c (Some (FalseCondition KeystoneAPIReadyCondition
                          RequestedReason SeverityInfo
                          KeystoneAPIReadyWaitingMessage []))) ∧
     passTrace p = [EvPatchInstance i' (PatchInstance cl i')]) ∧
  (apiIsReady api = true →
   ∀ os res, GetAdminServiceClient cl api = (os, res, None) →
     res ≠ emptyResult →
     ∃ i', passInstance p = Some i' ∧
       passExit p = Returned res (PatchInstance cl i') ∧
       StatusConditions (Status i') =
         aggregateReady
           (Set_ cAPI (Some (FalseCondition AdminServiceClientReadyCondition
                               RequestedReason SeverityInfo
                               AdminServiceClientReadyWaitingMessage []))) ∧
       passTrace p =
         [EvGetAdminServiceClient; EvPatchInstance i' (PatchInstance cl i')]) ∧
  (apiIsReady api = true →
   ∀ os ksSvc, GetAdminServiceClient cl api = (os, emptyResult, None) →
     GetKeystoneServiceWithName cl (ServiceName (Spec i)) (Namespace i)
       = inr ksSvc →
     svcIsReady ksSvc = false →
     ∃ i', passInstance p = Some i' ∧
       passExit p =
         Returned {| Requeue := false; RequeueAfter := 10 * Second |}
           (PatchInstance cl i') ∧
       ServiceID (Status i') = ServiceID (Status i) ∧
       passTrace p =
         [EvGetAdminServiceClient; EvPatchInstance i' (PatchInstance cl i')]).
Proof.
  intros Hget Hhelper Hnil Hlive Hfin Hapi p c cAPI.
  subst p c cAPI. unfold Reconcile. rewrite Hget, Hhelper.
  unfold reconcileBody, bind, getInstance, setInstance, setCondition,
    markTrue, emit, ret, return_.
  cbn -[idsMap reconcileNormal AddFinalizer IsZero Result_eqb]. rewrite Hnil.
  cbn -[idsMap reconcileNormal AddFinalizer IsZero Result_eqb]. rewrite Hlive.
  unfold AddFinalizer. rewrite bool_decide_eq_true_2 by done.
  cbn -[idsMap reconcileNormal IsZero Result_eqb].
  rewrite Hapi, Hlive.
  cbn -[idsMap reconcileNormal IsZero Result_eqb].
  split; [|split].
  - intros Hready. rewrite Hready.
    cbn -[idsMap reconcileNormal IsZero Result_eqb].
    eexists. split; [done|]. split; [|done].
    by destruct (PatchInstance cl _).
  - intros Hready os res Hclient Hres. rewrite Hready.
    cbn -[idsMap reconcileNormal IsZero Result_eqb]. rewrite Hclient.
    destruct (Result_eqb res emptyResult) eqn:Heqb;
      [by apply Result_eqb_eq in Heqb|].
    cbn -[idsMap reconcileNormal IsZero Result_eqb].
    eexists. split; [done|]. split; [|done].
    by destruct (PatchInstance cl _).
  - intros Hready os ksSvc Hclient Hsvc Hnr. rewrite Hready.
    cbn -[idsMap reconcileNormal IsZero]. rewrite Hclient.
    cbn -[idsMap reconcileNormal IsZero].
    unfold reconcileNormal, bind, getInstance, setInstance, setCondition,
      ret, return_.
    cbn -[idsMap IsZero]. rewrite Hsvc.
    destruct (Mirror (svcConditions ksSvc) KeystoneServiceReadyCondition);
      cbn -[idsMap IsZero]; rewrite Hnr; cbn -[idsMap IsZero];
      (eexists; split; [done|]; split; [|done]);
      by destruct (PatchInstance cl _).
Qed.

(** ** The order of [reconcileNormal] *)


(** ** The own finalizer goes last *)

Lemma deleteLoop_inv c order s out s' :
  forRange order (deleteStep (Some c)) s = (out, s') →
  instance s' = instance s ∧
  ∃ dels, trace s' = trace s ++ dels ∧
    Forall (λ e, isDelete e = true) dels ∧
    ((out = Next tt ∧ Forall (λ e, failed e = false) dels ∧
      evType <$> dels = Some <$> order) ∨
     (∃ err, out = Return (emptyResult, Some err))).
Proof.
  revert s. induction order as [|ty l IH]; intros s Hr.
  - inversion Hr; subst. split; [done|]. exists []. rewrite app_nil_r.
    split; [done|]. split; [done|]. left. done.
  - apply forRange_cons_inv in Hr.
    assert (∀ o s1, deleteStep (Some c) ty s = (o, s1) →
              instance s1 = instance s ∧
              ((∃ err, o = Return (emptyResult, Some err) ∧
                  (s1 = s ∨ ∃ e, trace s1 = trace s ++ [e] ∧
                                 isDelete e = true)) ∨
               (o = Next tt ∧ ∃ e, trace s1 = trace s ++ [e] ∧
                  isDelete e = true ∧ failed e = false ∧
                  evType e = Some ty))) as Hstep.
    { intros o s1. unfold deleteStep, bind, getInstance, resolveOrReturn,
        DeleteEndpoint, ret, return_.
      destruct (GetAvailability ty) as [err|a]; simpl.
      - intros [= <- <-]. split; [done|]. left. eauto.
      - destruct (osDeleteEndpoint c (remote s) _) as [[err|] r']; simpl;
          intros [= <- <-]; (split; [done|]).
        + left. eexists. split; [done|]. right. eexists. split; done.
        + right. split; [done|]. eexists. repeat split; done. }
    destruct Hr as [(s1 & Hx & Hl)|[Hx Hne]].
    + destruct (Hstep _ _ Hx) as [Hi1 [(err & [=] & _)|(_ & e & Ht1 & Hd & Hf & Hty)]].
      destruct (IH _ Hl) as (Hi & dels & Ht & Hdels & Hout).
      split; [congruence|]. exists (e :: dels).
      split; [rewrite Ht, Ht1, <- app_assoc; done|].
      split; [by constructor|].
      destruct Hout as [(-> & Hok & Htys)|(err & ->)]; [left|right; eauto].
      split; [done|]. split; [by constructor|].
      rewrite !fmap_cons. congruence.
    + destruct (Hstep _ _ Hx) as [Hi1 [(err & -> & Hs1)|(-> & _)]]; [|done].
      split; [done|].
      destruct Hs1 as [->|(e & Ht1 & Hd)].
      * exists []. rewrite app_nil_r. split; [done|]. split; [done|].
        right. eauto.
      * exists [e]. split; [done|]. split; [by repeat constructor|].
        right. eauto.
Qed.

(** X16.  [reconcileDelete] drops the instance's own finalizer last, and
    only after a cleanup in which nothing failed.  Either it returns
    without error: then no call it made was answered with an error, with
    a client at hand it has made one delete call for each endpoint type
    of the enumeration of the spec, the identifiers are cleared and the
    own finalizer is removed.  Or it returns an error: then the
    finalizers of the instance are what they were, and the instance is
    unchanged or has only its identifiers cleared.  It never panics. *)
Theorem own_finalizer_dropped_last cl sched helper os api s out s' :
  reconcileDelete cl sched helper os api s = (out, s') →
  let i := instance s in
  ∃ dels writes,
    trace s' = trace s ++ dels ++ writes ∧
    Forall (λ e, isDelete e = true) dels ∧
    Forall (λ e, isRegistrationWrite e = true) writes ∧
    ((out = Return (emptyResult, None) ∧
      Forall (λ e, failed e = false) (dels ++ writes) ∧
      (is_Some os → evType <$> dels = Some <$> deleteOrder sched) ∧
      instance s' =
        withFinalizers (withEndpointIDs i (Some ∅))
          (RemoveFinalizer (Finalizers i) (GetFinalizer helper)).1) ∨
     (∃ err, out = Return (emptyResult, Some err) ∧
        (instance s' = i ∨ instance s' = withEndpointIDs i (Some ∅)))).
Proof.
  intros Hr i. subst i. unfold reconcileDelete in Hr.
  unfold bind at 1 in Hr.
  destruct (match os with
            | Some _ => forRange (deleteOrder sched) (deleteStep os)
            | None => ret ()
            end s) as [o1 s1] eqn:Hloop.
  assert (instance s1 = instance s ∧
          ∃ dels, trace s1 = trace s ++ dels ∧
            Forall (λ e, isDelete e = true) dels ∧
            ((o1 = Next tt ∧ Forall (λ e, failed e = false) dels ∧
              (is_Some os → evType <$> dels = Some <$> deleteOrder sched)) ∨
             (∃ err, o1 = Return (emptyResult, Some err))))
    as (Hi1 & dels & Ht1 & Hdels & Ho1).
  { destruct os as [c|].
    - destruct (deleteLoop_inv _ _ _ _ _ Hloop) as (? & d & ? & ? & Hout).
      split; [done|]. exists d. split; [done|]. split; [done|].
      destruct Hout as [(? & ? & ?)|?]; [left|by right]. done.
    - inversion Hloop; subst. split; [done|]. exists [].
      rewrite app_nil_r. split; [done|]. split; [done|]. left.
      split; [done|]. split; [done|]. by intros [? [=]]. }
  destruct Ho1 as [(-> & Hok & Htys)|(err & ->)].
  2:{ inversion Hr; subst. exists dels, []. rewrite app_nil_r.
      split; [done|]. split; [done|]. split; [done|]. right. eauto. }
  revert Hr.
  unfold releaseService, removeFinalizerFromService, removeFinalizerFromAPI,
    removeOwnFinalizer, bind, getInstance, setInstance, emit, ret, return_.
  cbn -[RemoveFinalizer endpointFinalizer]. rewrite Hi1, Ht1.
  intros Hr.
  repeat match goal with
         | Hq : context [match ?x with _ => _ end] |- _ =>
             destruct x eqn:?;
             cbn -[RemoveFinalizer endpointFinalizer] in Hq
         end.
  all: simplify_eq/=.
  all: rewrite <- ?app_assoc; simpl.
  all: lazymatch goal with
       | |- ∃ d w, ?t ++ ?dl ++ ?ws = _ ∧ _ => exists dl, ws
       | |- ∃ d w, ?t ++ ?dl = _ ∧ _ => exists dl, []; rewrite app_nil_r
       end.
  all: split; [done|]; split; [done|]; split; [by repeat constructor|].
  all: first
         [ left; split; [done|];
           split; [rewrite ?app_nil_r; try apply Forall_app;
                   first [done|split; [done|by repeat constructor]]|];
           split; done
         | right; eexists; split; [done|]; first [by left|by right] ].
Qed.

(** ** The first passes over a new instance *)

(** X17.  The first passes over a new instance.  A pass over an instance
    whose conditions are nil does nothing but initialise them: it makes
    no call besides the closing patch, returns no error of its own, and
    leaves the finalizers and the rest of the status as they are, even
    when the instance is being deleted.  A pass over an initialised
    instance that is not being deleted and does not carry its own
    finalizer appends the finalizer, records the generation and returns
    at once, again with no call besides the closing patch. *)
Theorem bootstrap_passes cl sched r i helper :
  Get cl = inr i → NewHelper cl i = inr helper →
  let p := Reconcile cl sched r in
  (conditionsIsNil (StatusConditions (Status i)) = true →
   let c :=
     aggregateReady
       (Init emptyConditions
          (CreateList
             [UnknownCondition KeystoneAPIReadyCondition InitReason
                KeystoneAPIReadyInitMessage;
              UnknownCondition AdminServiceClientReadyCondition InitReason
                AdminServiceClientReadyInitMessage;
              UnknownCondition KeystoneServiceOSEndpointsReadyCondition
                InitReason KeystoneServiceOSEndpointsReadyInitMessage;
              UnknownCondition KeystoneServiceReadyCondition InitReason
                EmptyMessage])) in
   passInstance p = Some (withConditions i c) ∧
   passTrace p =
     [EvPatchInstance (withConditions i c)
        (PatchInstance cl (withConditions i c))] ∧
   passExit p =
     Returned emptyResult (PatchInstance cl (withConditions i c)) ∧
   passRemote p = r) ∧
  (conditionsIsNil (StatusConditions (Status i)) = false →
   IsZero (DeletionTimestamp i) = true →
   GetFinalizer helper ∉ Finalizers i →
   ∃ i', passInstance p = Some i' ∧
     Finalizers i' = Finalizers i ++ [GetFinalizer helper] ∧
     ObservedGeneration (Status i') = Generation i ∧
     EndpointIDs (Status i') = Some (idsMap (EndpointIDs (Status i))) ∧
     Endpoints (Status i') = Endpoints (Status i) ∧
     ServiceID (Status i') = ServiceID (Status i) ∧
     StatusConditions (Status i') =
       aggregateReady (StatusConditions (Status i)) ∧
     passTrace p = [EvPatchInstance i' (PatchInstance cl i')] ∧
     passExit p = Returned emptyResult (PatchInstance cl i') ∧
     passRemote p = r).
Proof.
  intros Hget Hhelper p. subst p. unfold Reconcile. rewrite Hget, Hhelper.
  unfold reconcileBody, bind, getInstance, setInstance, ret, return_.
  cbn -[idsMap AddFinalizer IsZero].
  split.
  - intros Hnil. rewrite Hnil. cbn. split; [done|]. split; [done|].
    split; [|done]. by destruct (PatchInstance cl _).
  - intros Hnil Hlive Hfin. rewrite Hnil. cbn -[idsMap AddFinalizer IsZero].
    rewrite Hlive. unfold AddFinalizer.
    rewrite bool_decide_eq_false_2 by done. cbn -[idsMap].
    eexists. split; [done|]. repeat (split; [done|]).
    split; [|done]. by destruct (PatchInstance cl _).
Qed.

(** ** The service the endpoints are registered for *)

Lemma reconcileEndpoints_serves os ro co s out s' :
  reconcileEndpoints os ro co s = (out, s') →
  ∃ new, trace s' = trace s ++ new ∧
    Forall (servesUnder (ServiceName (Spec (instance s)))
              (ServiceID (Status (instance s)))) new.
Proof.
  intros Hr. apply reconcileEndpoints_inv in Hr.
  destruct Hr as (outr & sr & Hret & Hr).
  assert (Spec (instance sr) = Spec (instance s) ∧
          ServiceID (Status (instance sr)) = ServiceID (Status (instance s)) ∧
          ∃ n1, trace sr = trace s ++ n1 ∧
            Forall (servesUnder (ServiceName (Spec (instance s)))
                      (ServiceID (Status (instance s)))) n1)
    as (Hsp & Hsid & n1 & Ht1 & Hf1).
  { destruct (EndpointIDs (Status (instance s))).
    - destruct (touches_spec _ _ _ (retireLoop_touches _ _ _ _ _ Hret)).
      split; [done|]. split; [done|].
      destruct (retireLoop_calls _ _ _ _ _ Hret) as (n1 & Ht & Hf).
      exists n1. split; [done|].
      eapply Forall_impl; [exact Hf|]. intros e (ty & _ & He).
      destruct e; try done. simpl in *. tauto.
    - inversion Hret; subst. split; [done|]. split; [done|].
      exists []. by rewrite app_nil_r. }
  destruct Hr as [[_ Hconv]|(_ & _ & ->)]; [|eauto].
  destruct (convergeLoop_calls _ _ _ _ _ Hconv) as (n2 & Ht2 & Hf2).
  rewrite Hsp, Hsid in Hf2.
  exists (n1 ++ n2). rewrite Ht2, Ht1, app_assoc. split; [done|].
  apply Forall_app. split; [done|].
  eapply Forall_impl; [exact Hf2|]. intros e (ty & url & _ & He).
  destruct e; try done; simpl in *; tauto.
Qed.

(** X18.  The endpoints are registered for the service as the service
    registration names it now.  In [reconcileNormal], with the service
    registration found, every query to the identity service is made
    under the service identifier of the registration, and every create
    and delete call carries the service name of the spec and that
    identifier, whatever [Status.ServiceID] held before; and when the
    registration is ready, [Status.ServiceID] is that identifier
    afterwards. *)
Theorem calls_use_registered_service cl sched helper os api s out s' ksSvc :
  GetKeystoneServiceWithName cl (ServiceName (Spec (instance s)))
    (Namespace (instance s)) = inr ksSvc →
  reconcileNormal cl sched helper os api s = (out, s') →
  (∃ new, trace s' = trace s ++ new ∧
     Forall (servesUnder (ServiceName (Spec (instance s)))
               (svcServiceID ksSvc)) new) ∧
  (svcIsReady ksSvc = true →
   ServiceID (Status (instance s')) = svcServiceID ksSvc).
Proof.
  intros Hsvc.
  unfold reconcileNormal, bind, getInstance, setInstance, setCondition,
    markTrue, emit, ret, return_, call.
  cbn -[AddFinalizer endpointFinalizer reconcileEndpoints].
  rewrite Hsvc. intros Hr.
  repeat match goal with
         | Hq : context [match ?x with _ => _ end] |- _ =>
             destruct x eqn:?;
             cbn -[AddFinalizer endpointFinalizer reconcileEndpoints] in Hq
         end.
  all: unfold setInstance, bind, getInstance, ret in *; simplify_eq/=.
  all: try match goal with
           | Heng : reconcileEndpoints _ _ _ _ = _ |- _ =>
               pose proof (reconcileEndpoints_serves _ _ _ _ _ _ Heng)
                 as (new & Ht & Hnew);
               apply reconcileEndpoints_touches in Heng;
               destruct Heng as ((ids & eps & Hi) & _);
               simpl in Ht, Hi, Hnew; rewrite Ht, ?Hi
           end.
  all: rewrite <- ?app_assoc; simpl.
  all: split;
    [eexists; split; [try reflexivity; by rewrite app_nil_r|];
     repeat (constructor; [done|]); first [done|exact Hnew]
    |first [done|intros Hready; rewrite Hready in *; done]].
Qed.

End PassInvariants.

(** * The theorems on concrete runs *)

Section Runs.
#[local] Existing Instance Fake.lib.

Ltac by_computation := apply (bool_decide_unpack _); vm_compute; exact I.

(** *** The embedding at work *)

Example getEndpointIdx_second :
  getEndpointIdx "public"
    [{| Interface := "admin"; URL := "http://c"; ID := "1" |};
     {| Interface := "public"; URL := "http://a"; ID := "2" |}] = 1.
Proof. reflexivity. Qed.

Example getEndpointIdx_missing :
  getEndpointIdx "internal"
    [{| Interface := "admin"; URL := "http://c"; ID := "1" |};
     {| Interface := "public"; URL := "http://a"; ID := "2" |}] = -1.
Proof. reflexivity. Qed.

(** With nothing registered, the first pass queries, creates and records
    the endpoint; the next pass on the state the first one left only
    queries. *)
Example first_pass_creates :
  let run := reconcileEndpoints (Some Fake.client) []
               [("public", "http://a")] Fake.unregistered in
  let ep := {| osName := "placement"; osServiceID := "svc-1";
               osAvailability := Fake.AvailabilityPublic;
               osURL := "http://a" |} in
  run.1 = Next tt ∧
  trace run.2 = [EvGetEndpoints "svc-1" "public" (inr []);
                 EvCreateEndpoint "public" ep (inr "ep-public")] ∧
  EndpointIDs (Status (instance run.2)) = Some {[ "public" := "ep-public" ]} ∧
  Endpoints (Status (instance run.2)) =
    [{| Interface := "public"; URL := "http://a"; ID := "ep-public" |}].
Proof. vm_compute. repeat split; reflexivity. Qed.

Example second_pass_only_queries :
  let first := reconcileEndpoints (Some Fake.client) []
                 [("public", "http://a")] Fake.unregistered in
  let second := reconcileEndpoints (Some Fake.client) ["public"]
                  [("public", "http://a")]
                  (Fake.start (instance first.2) (remote first.2)) in
  second.1 = Next tt ∧
  trace second.2 =
    [EvGetEndpoints "svc-1" "public"
       (inr [Fake.remoteEndpoint "ep-public" "http://a"])] ∧
  instance second.2 = instance first.2 ∧
  remote second.2 = remote first.2.
Proof. vm_compute. repeat split; reflexivity. Qed.

(** A whole pass with both dependencies ready: the endpoint is created,
    every condition ends true and the pass asks for nothing more. *)
Example Reconcile_registers_endpoint :
  let cl := Fake.cluster (inr (instance Fake.unregistered)) (inr Fake.helper)
              (inr Fake.readyAPI) (inr Fake.readyService) in
  let p := Reconcile cl (Fake.schedule [] [("public", "http://a")] []) [] in
  passExit p = Returned emptyResult None ∧
  isMutation <$> passTrace p = [false; false; true; false] ∧
  ∃ i', passInstance p = Some i' ∧
    EndpointIDs (Status i') = Some {[ "public" := "ep-public" ]} ∧
    Forall (λ c, Fake.cStatus c = Fake.TriTrue)
      (default [] (StatusConditions (Status i'))).
Proof.
  vm_compute. split; [reflexivity|]. split; [reflexivity|].
  eexists. split; [reflexivity|]. split; [reflexivity|].
  repeat constructor.
Qed.

Lemma EndpointIDs_subset_of_spec_after_sync_witness :
  let run := reconcileEndpoints (Some Fake.client) ["admin"]
               [("public", "http://a"); ("internal", "http://b")]
               Fake.retiring in
  keyRangeOf (idsOf Fake.retiring) ["admin"] ∧
  run.1 = Next tt ∧
  dom (idsOf run.2) ⊆ dom (SpecEndpoints (Spec (instance run.2))).
Proof.
  intros run.
  assert (keyRangeOf (idsOf Fake.retiring) ["admin"]) as Hro
    by (unfold keyRangeOf; by_computation).
  assert (run = (Next tt, run.2)) as Hrun by (vm_compute; reflexivity).
  split; [exact Hro|]. split; [by rewrite Hrun|].
  exact (EndpointIDs_subset_of_spec_after_sync _ _ _ _ _ Hro Hrun).
Defined.

Lemma retire_removed_type_witness :
  let co := [("internal", "http://b"); ("public", "http://a")] in
  let run := reconcileEndpoints (Some Fake.client) ["admin"] co Fake.retiring in
  run.1 = Next tt ∧
  ∃ retired converged,
    trace run.2 = trace Fake.retiring ++ retired ++ converged ∧
    Forall (λ e, isDelete e = true) retired ∧
    Forall (λ e, isDelete e = false) converged ∧
    length (filter (λ e, isDelete e = true ∧ evType e = Some "admin")
              (retired ++ converged)) = 1%nat ∧
    idsOf run.2 !! "admin" = None ∧
    entriesOf "admin" run.2 = tail (entriesOf "admin" Fake.retiring) ∧
    (NoDup (Interface <$> Endpoints (Status (instance Fake.retiring))) →
     entriesOf "admin" run.2 = []).
Proof.
  intros co run.
  assert (run = (Next tt, run.2)) as Hrun by (vm_compute; reflexivity).
  split; [by rewrite Hrun|].
  apply (retire_removed_type (Some Fake.client) ["admin"] co Fake.retiring
           run.2 "admin").
  - unfold keyRangeOf. by_computation.
  - unfold rangeOf. by_computation.
  - exists "id-old". vm_compute. reflexivity.
  - vm_compute. reflexivity.
  - exact Hrun.
Defined.

Lemma sync_in_sync_makes_no_mutation_witness :
  let run := reconcileEndpoints (Some Fake.client) ["public"]
               [("public", "http://a")] Fake.inSync in
  dom (idsOf Fake.inSync) = dom (SpecEndpoints (Spec (instance Fake.inSync))) ∧
  remote run.2 = remote Fake.inSync ∧
  ∃ new, trace run.2 = trace Fake.inSync ++ new ∧
         Forall (λ e, isMutation e = false) new.
Proof.
  intros run.
  assert (dom (idsOf Fake.inSync) =
          dom (SpecEndpoints (Spec (instance Fake.inSync)))) as Hdom.
  { unfold idsOf. simpl. by rewrite !dom_singleton_L. }
  split; [exact Hdom|].
  apply (sync_in_sync_makes_no_mutation Fake.client ["public"]
           [("public", "http://a")] Fake.inSync run.1 run.2).
  - unfold keyRangeOf. by_computation.
  - unfold rangeOf. by_computation.
  - exact Hdom.
  - intros ty url Hl. simpl in Hl.
    apply lookup_singleton_Some in Hl as [<- <-].
    exists (Fake.remoteEndpoint "ep-public" "http://a"). split; reflexivity.
  - apply surjective_pairing.
Defined.

Lemma ambiguous_type_is_left_alone_witness :
  let co := [("admin", "http://c"); ("public", "http://a");
             ("internal", "http://b")] in
  let run := reconcileEndpoints (Some Fake.client) ["public"] co
               Fake.ambiguous in
  let answer := [Fake.remoteEndpoint "ep-public" "http://a";
                 Fake.remoteEndpoint "ep-stray" "http://z"] in
  ∃ new,
    trace run.2 = trace Fake.ambiguous ++ new ∧
    EvGetEndpoints "svc-1" "public" (inr answer) ∈ new ∧
    (∃ i : KeystoneEndpoint,
       run.1 = Return
                 (WrapErrorForObject
                    "multiple endpoints registered for service:placement type: public"
                    i None)) ∧
    Forall (λ e, isMutation e = true → evType e ≠ Some "public") new ∧
    idsOf run.2 !! "public" = idsOf Fake.ambiguous !! "public" ∧
    entriesOf "public" run.2 = entriesOf "public" Fake.ambiguous.
Proof.
  intros co run answer.
  exists (drop 0 (trace run.2)).
  assert (trace run.2 = trace Fake.ambiguous ++ drop 0 (trace run.2)) as Ht
    by reflexivity.
  assert (EvGetEndpoints "svc-1" "public" (inr answer)
          ∈ drop 0 (trace run.2)) as Hin.
  { vm_compute. right. right. left. }
  split; [exact Ht|]. split; [exact Hin|].
  apply (ambiguous_type_is_left_alone (Some Fake.client) ["public"] co
           Fake.ambiguous run.1 run.2 _ "svc-1" "public" answer).
  - unfold rangeOf. by_computation.
  - apply surjective_pairing.
  - exact Ht.
  - exact Hin.
  - simpl. lia.
Defined.

Lemma converge_failure_ends_pass_witness :
  let done := [("admin", "http://c")] in
  let kv := ("public", "http://a") in
  let rest := [("internal", "http://b")] in
  let before := reconcileEndpoints (Some Fake.client) ["public"] done
                  Fake.ambiguous in
  let failing := convergeStep (Some Fake.client) kv before.2 in
  let err := {| errIsNotFound := false;
                errText := "multiple endpoints registered for service:placement type: public" |} in
  before.1 = Next tt ∧ failing.1 = Return err ∧
  reconcileEndpoints (Some Fake.client) ["public"] (done ++ kv :: rest)
    Fake.ambiguous = (Return err, failing.2) ∧
  instance failing.2 = instance before.2 ∧
  ∀ ty, ty ∈ rest.*1 →
    (∃ new, trace failing.2 = trace Fake.ambiguous ++ new ∧
            Forall (λ e, evType e ≠ Some ty) new) ∧
    idsOf failing.2 !! ty = idsOf Fake.ambiguous !! ty ∧
    entriesOf ty failing.2 = entriesOf ty Fake.ambiguous.
Proof.
  intros done kv rest before failing err.
  assert (before = (Next tt, before.2)) as Hb by (vm_compute; reflexivity).
  assert (failing = (Return err, failing.2)) as Hf by (vm_compute; reflexivity).
  split; [by rewrite Hb|]. split; [by rewrite Hf|].
  apply (converge_failure_ends_pass (Some Fake.client) ["public"] done kv rest
           Fake.ambiguous before.2 err failing.2).
  - unfold rangeOf. by_computation.
  - exact Hb.
  - exact Hf.
Defined.

Lemma queries_follow_range_order_witness :
  let co := [("internal", "http://b"); ("public", "http://a")] in
  let run := reconcileEndpoints (Some Fake.client) [] co Fake.fresh in
  run.1 = Next tt ∧
  ∃ new, trace run.2 = trace Fake.fresh ++ new ∧
    queriedTypes new `prefix_of` co.*1 ∧
    (run.1 = Next tt → queriedTypes new = co.*1).
Proof.
  intros co run. split; [vm_compute; reflexivity|].
  apply (queries_follow_range_order (Some Fake.client) [] co Fake.fresh).
  apply surjective_pairing.
Defined.

(** C7 as stated fails: on one and the same instance and identity
    service, two enumerations of the same spec mapping, both of which the
    runtime may pick, give two different sequences of calls. *)
Lemma call_sequence_depends_on_range_order :
  let co1 := [("internal", "http://b"); ("public", "http://a")] in
  let co2 := [("public", "http://a"); ("internal", "http://b")] in
  let spec := SpecEndpoints (Spec (instance Fake.fresh)) in
  rangeOf spec co1 ∧ rangeOf spec co2 ∧
  keyRangeOf (idsOf Fake.fresh) [] ∧
  trace (reconcileEndpoints (Some Fake.client) [] co1 Fake.fresh).2 ≠
  trace (reconcileEndpoints (Some Fake.client) [] co2 Fake.fresh).2.
Proof.
  intros co1 co2 spec.
  split; [unfold rangeOf; by_computation|].
  split; [unfold rangeOf; by_computation|].
  split; [unfold keyRangeOf; by_computation|].
  vm_compute. intros Heq. discriminate Heq.
Qed.


Lemma delete_short_circuit_witness :
  let cl := Fake.cluster (inr Fake.deletingEmpty) (inr Fake.helper)
              (inl Fake.notFound) (inr Fake.readyService) in
  let p := Reconcile cl (Fake.schedule [] [] ["public"])
             (remote Fake.inSync) in
  Forall (λ e, isIdentityServiceCall e = false) (passTrace p) ∧
  passRemote p = remote Fake.inSync ∧
  ∀ helper, NewHelper cl Fake.deletingEmpty = inr helper →
    Forall (isMarkerCleanup cl helper Fake.deletingEmpty) (passTrace p) ∧
    ∃ i', passInstance p = Some i' ∧
      Spec i' = Spec Fake.deletingEmpty ∧
      idsMap (EndpointIDs (Status i')) = ∅ ∧
      Endpoints (Status i') = Endpoints (Status Fake.deletingEmpty) ∧
      ServiceID (Status i') = ServiceID (Status Fake.deletingEmpty) ∧
      (conditionsIsNil (StatusConditions (Status Fake.deletingEmpty)) = false →
       serviceReleasable cl helper Fake.deletingEmpty →
       Finalizers i' =
         (RemoveFinalizer (Finalizers Fake.deletingEmpty)
            (GetFinalizer helper)).1 ∧
       passExit p = Returned emptyResult (PatchInstance cl i')) ∧
      (conditionsIsNil (StatusConditions (Status Fake.deletingEmpty)) = false →
       passTrace p =
         serviceRelease cl helper Fake.deletingEmpty ++
         [EvPatchInstance i' (PatchInstance cl i')] ∧
       (¬ serviceReleasable cl helper Fake.deletingEmpty →
        Finalizers i' = Finalizers Fake.deletingEmpty ∧
        ∃ e, passExit p = Returned emptyResult (Some e))).
Proof.
  intros cl p.
  apply (delete_short_circuit cl (Fake.schedule [] [] ["public"])
           (remote Fake.inSync) Fake.deletingEmpty Fake.notFound);
    reflexivity.
Defined.

(** The same pass, spelled out: the marker leaves the service
    registration, the instance loses its finalizer, and the identity
    service, which still lists an endpoint, is not touched. *)
Example delete_short_circuit_run :
  let cl := Fake.cluster (inr Fake.deletingEmpty) (inr Fake.helper)
              (inl Fake.notFound) (inr Fake.readyService) in
  let p := Reconcile cl (Fake.schedule [] [] ["public"])
             (remote Fake.inSync) in
  passExit p = Returned emptyResult None ∧
  passRemote p = remote Fake.inSync ∧
  ∃ i', passInstance p = Some i' ∧ Finalizers i' = [] ∧
    passTrace p =
      [EvUpdateKeystoneService (svcWithFinalizers Fake.readyService []) None;
       EvPatchInstance i' None].
Proof.
  vm_compute. split; [reflexivity|]. split; [reflexivity|].
  eexists. repeat split; reflexivity.
Qed.

Lemma Ready_rolled_up_on_exit_witness :
  let i := instance Fake.inSync in
  let r := remote Fake.inSync in
  let cl := Fake.cluster (inr i) (inr Fake.helper) (inl Fake.notFound)
              (inl Fake.notFound) in
  let sched := Fake.schedule [] [] [] in
  let p := Reconcile cl sched r in
  ∃ rv s,
    reconcileBody cl sched Fake.helper
      {| instance := i; remote := r; trace := [] |} = (Return rv, s) ∧
    let c := StatusConditions (Status (instance s)) in
    let i' := withConditions (instance s) (aggregateReady c) in
    passInstance p = Some i' ∧
    passTrace p = trace s ++ [EvPatchInstance i' (PatchInstance cl i')] ∧
    (AllSubConditionIsTrue c = true →
     StatusConditions (Status i') = MarkTrue c ReadyCondition ReadyMessage []) ∧
    (AllSubConditionIsTrue c = false →
     StatusConditions (Status i') =
       Set_ (MarkUnknown c ReadyCondition InitReason ReadyInitMessage)
         (Mirror (MarkUnknown c ReadyCondition InitReason ReadyInitMessage)
            ReadyCondition)).
Proof.
  intros i r cl sched p.
  apply (Ready_rolled_up_on_exit cl sched r i Fake.helper);
    [reflexivity|reflexivity|].
  vm_compute. discriminate.
Defined.

(** C2 as stated fails: a pass can return, without a panic, before the
    roll-up is in place.  When the instance cannot be read the pass
    returns the error and patches nothing; when the helper cannot be
    built for an instance whose sub-conditions are all true while its
    [Ready] condition is not, the pass returns the error and the instance
    is left with [Ready] unknown. *)
Lemma roll_up_skipped_on_early_return :
  let sched := Fake.schedule [] [] [] in
  let r := remote Fake.inSync in
  let unreadable := Fake.cluster (inl Fake.unavailable) (inr Fake.helper)
                      (inr Fake.readyAPI) (inr Fake.readyService) in
  let helperless := Fake.cluster (inr Fake.staleReady) (inl Fake.unavailable)
                      (inr Fake.readyAPI) (inr Fake.readyService) in
  (passExit (Reconcile unreadable sched r)
     = Returned emptyResult (Some Fake.unavailable) ∧
   passInstance (Reconcile unreadable sched r) = None ∧
   passTrace (Reconcile unreadable sched r) = []) ∧
  (passExit (Reconcile helperless sched r)
     = Returned emptyResult (Some Fake.unavailable) ∧
   passTrace (Reconcile helperless sched r) = [] ∧
   ∃ i', passInstance (Reconcile helperless sched r) = Some i' ∧
     AllSubConditionIsTrue (StatusConditions (Status i')) = true ∧
     StatusConditions (Status i') ≠
       aggregateReady (StatusConditions (Status i')) ∧
     Fake.unknownCondition ReadyCondition InitReason ReadyInitMessage
       ∈ default [] (StatusConditions (Status i'))).
Proof.
  intros sched r unreadable helperless.
  split; [by repeat split|].
  split; [done|]. split; [done|].
  exists Fake.staleReady. split; [done|]. split; [done|].
  split; [vm_compute; discriminate|]. left.
Qed.

Lemma absent_dependency_requeues_witness :
  let i := instance Fake.inSync in
  let r := remote Fake.inSync in
  let cl := Fake.cluster (inr i) (inr Fake.helper) (inr Fake.readyAPI)
              (inl Fake.notFound) in
  let p := Reconcile cl (Fake.schedule [] [] []) r in
  let retry := {| Requeue := false; RequeueAfter := Second * 5 |} in
  (∀ err, GetKeystoneAPI cl (Namespace i) = inl err →
          errIsNotFound err = true →
     ∃ i', passInstance p = Some i' ∧
       passExit p = Returned retry (PatchInstance cl i') ∧
       StatusConditions (Status i') =
         aggregateReady
           (Set_ (StatusConditions (Status i))
              (Some (FalseCondition KeystoneAPIReadyCondition ErrorReason
                       SeverityWarning KeystoneAPIReadyNotFoundMessage []))) ∧
       passTrace p = [EvPatchInstance i' (PatchInstance cl i')]) ∧
  (∀ api os err,
     GetKeystoneAPI cl (Namespace i) = inr api → apiIsReady api = true →
     GetAdminServiceClient cl api = (os, emptyResult, None) →
     GetKeystoneServiceWithName cl (ServiceName (Spec i)) (Namespace i)
       = inl err →
     errIsNotFound err = true →
     ∃ i', passInstance p = Some i' ∧
       passExit p = Returned retry (PatchInstance cl i') ∧
       passTrace p =
         [EvGetAdminServiceClient; EvPatchInstance i' (PatchInstance cl i')]).
Proof.
  intros i r cl p retry.
  apply (absent_dependency_requeues cl (Fake.schedule [] [] []) r i
           Fake.helper); try reflexivity.
  left.
Defined.

(** C8 as stated fails for the service registration: when it is not
    found, the pass asks for a retry in five seconds and returns no
    error, but records no condition about the absence: no condition of
    the instance is false afterwards and its [KeystoneServiceReady]
    condition is still the initial one. *)
Lemma absent_service_records_no_condition :
  let i := instance Fake.inSync in
  let cl := Fake.cluster (inr i) (inr Fake.helper) (inr Fake.readyAPI)
              (inl Fake.notFound) in
  let p := Reconcile cl (Fake.schedule [] [] []) (remote Fake.inSync) in
  IsZero (DeletionTimestamp i) = true ∧
  passExit p =
    Returned {| Requeue := false; RequeueAfter := Second * 5 |} None ∧
  ∃ i', passInstance p = Some i' ∧
    Forall (λ c, Fake.cStatus c ≠ Fake.TriFalse)
      (default [] (StatusConditions (Status i'))) ∧
    filter (λ c, Fake.cType c = KeystoneServiceReadyCondition)
      (default [] (StatusConditions (Status i'))) =
    [Fake.unknownCondition KeystoneServiceReadyCondition InitReason
       EmptyMessage].
Proof.
  intros i cl p. split; [done|]. split; [done|].
  eexists. split; [reflexivity|]. split.
  - vm_compute. repeat constructor; discriminate.
  - reflexivity.
Qed.

(** *** Further properties of the sync engine, at work *)

Lemma Endpoints_stay_unique_witness :
  let run := reconcileEndpoints (Some Fake.client) ["admin"]
               [("public", "http://a"); ("internal", "http://b")]
               Fake.retiring in
  NoDup (Interface <$> Endpoints (Status (instance Fake.retiring))) ∧
  NoDup (Interface <$> Endpoints (Status (instance run.2))).
Proof.
  intros run.
  assert (NoDup (Interface <$> Endpoints (Status (instance Fake.retiring))))
    as Hnd by (vm_compute; apply NoDup_singleton).
  split; [exact Hnd|].
  apply (Endpoints_stay_unique (Some Fake.client) ["admin"]
           [("public", "http://a"); ("internal", "http://b")]
           Fake.retiring run.1 run.2 Hnd).
  apply surjective_pairing.
Defined.

Lemma sync_does_not_panic_witness :
  let run := reconcileEndpoints (Some Fake.client) ["admin"]
               [("public", "http://a"); ("internal", "http://b")]
               Fake.retiring in
  run.1 ≠ Panic.
Proof.
  intros run.
  apply (sync_does_not_panic Fake.client ["admin"]
           [("public", "http://a"); ("internal", "http://b")]
           Fake.retiring run.1 run.2).
  - vm_compute. eexists. reflexivity.
  - apply surjective_pairing.
Defined.

Lemma sync_calls_are_justified_witness :
  let co := [("internal", "http://b"); ("public", "http://a")] in
  let run := reconcileEndpoints (Some Fake.client) ["admin"] co Fake.retiring in
  ∃ new, trace run.2 = trace Fake.retiring ++ new ∧
    Forall (justifiedCall (Spec (instance Fake.retiring))
              (ServiceID (Status (instance Fake.retiring))) ["admin"] new) new.
Proof.
  intros co run.
  apply (sync_calls_are_justified (Some Fake.client) ["admin"] co
           Fake.retiring run.1 run.2).
  - unfold rangeOf. by_computation.
  - apply surjective_pairing.
Defined.

(** *** Invariants of a whole pass, at work *)

Lemma Reconcile_keeps_object_witness :
  let i := instance Fake.unregistered in
  let cl := Fake.cluster (inr i) (inr Fake.helper) (inr Fake.readyAPI)
              (inr Fake.readyService) in
  ∃ i', passInstance
          (Reconcile cl (Fake.schedule [] [("public", "http://a")] []) [])
        = Some i' ∧ sameObject i i'.
Proof.
  intros i cl.
  apply (Reconcile_keeps_object cl (Fake.schedule [] [("public", "http://a")] [])
           [] i).
  reflexivity.
Defined.

Lemma Reconcile_observes_generation_witness :
  let i := instance Fake.unregistered in
  let cl := Fake.cluster (inr i) (inr Fake.helper) (inl Fake.unavailable)
              (inr Fake.readyService) in
  ∃ i', passInstance (Reconcile cl (Fake.schedule [] [] []) []) = Some i' ∧
        ObservedGeneration (Status i') = Generation i ∧
        is_Some (EndpointIDs (Status i')).
Proof.
  intros i cl.
  apply (Reconcile_observes_generation cl (Fake.schedule [] [] []) [] i
           Fake.helper); reflexivity.
Defined.

Lemma Reconcile_does_not_panic_witness :
  let i := instance Fake.unregistered in
  let cl := Fake.cluster (inr i) (inr Fake.helper) (inr Fake.readyAPI)
              (inr Fake.readyService) in
  passExit (Reconcile cl (Fake.schedule [] [("public", "http://a")] []) [])
  ≠ Panicked.
Proof.
  intros i cl.
  apply (Reconcile_does_not_panic cl
           (Fake.schedule [] [("public", "http://a")] []) []).
  intros api os Hc. vm_compute in Hc. injection Hc as <-. by eexists.
Defined.

Lemma live_pass_holds_finalizers_witness :
  let i := instance Fake.unregistered in
  let cl := Fake.cluster (inr i) (inr Fake.helper) (inr Fake.readyAPI)
              (inr Fake.reregisteredService) in
  let p := Reconcile cl (Fake.schedule [] [("public", "http://a")] []) [] in
  Forall (holdCall (endpointFinalizer Fake.helper i)) (passTrace p) ∧
  ∃ i', passInstance p = Some i' ∧
        GetFinalizer Fake.helper ∈ Finalizers i'.
Proof.
  intros i cl p.
  apply (live_pass_holds_finalizers cl
           (Fake.schedule [] [("public", "http://a")] []) [] i Fake.helper);
    reflexivity.
Defined.

Lemma deleting_pass_only_releases_witness :
  let i := instance Fake.deletingRegistered in
  let cl := Fake.cluster (inr i) (inr Fake.helper) (inr Fake.readyAPI)
              (inr Fake.readyService) in
  let p := Reconcile cl (Fake.schedule [] [] ["internal"; "public"])
             (remote Fake.deletingRegistered) in
  Forall (releaseCall (endpointFinalizer Fake.helper i)) (passTrace p) ∧
  ∃ i', passInstance p = Some i' ∧
        Finalizers i' ⊆ Finalizers i ∧
        Endpoints (Status i') = Endpoints (Status i) ∧
        ServiceID (Status i') = ServiceID (Status i).
Proof.
  intros i cl p.
  apply (deleting_pass_only_releases cl
           (Fake.schedule [] [] ["internal"; "public"])
           (remote Fake.deletingRegistered) i Fake.helper);
    reflexivity.
Defined.

Lemma both_deleted_skips_identity_service_witness :
  let i := instance Fake.deletingRegistered in
  let r := remote Fake.deletingRegistered in
  let cl := Fake.cluster (inr i) (inr Fake.helper) (inr Fake.deletingAPI)
              (inr Fake.readyService) in
  let p := Reconcile cl (Fake.schedule [] [] ["internal"; "public"]) r in
  Forall (λ e, isIdentityServiceCall e = false) (passTrace p) ∧
  passRemote p = r ∧
  ∃ i', passInstance p = Some i' ∧
    EndpointIDs (Status i') = Some (idsMap (EndpointIDs (Status i))) ∧
    Endpoints (Status i') = Endpoints (Status i) ∧
    (serviceReleasable cl Fake.helper i →
     apiReleasable cl Fake.helper i Fake.deletingAPI →
     Finalizers i' =
       (RemoveFinalizer (Finalizers i) (GetFinalizer Fake.helper)).1 ∧
     passExit p = Returned emptyResult (PatchInstance cl i')) ∧
    (¬ (serviceReleasable cl Fake.helper i ∧
        apiReleasable cl Fake.helper i Fake.deletingAPI) →
     Finalizers i' = Finalizers i ∧
     ∃ err, passExit p = Returned emptyResult (Some err)).
Proof.
  intros i r cl p.
  apply (both_deleted_skips_identity_service cl
           (Fake.schedule [] [] ["internal"; "public"]) r i Fake.helper
           Fake.deletingAPI); reflexivity.
Defined.

Lemma unready_dependency_requeues_witness :
  let i := instance Fake.unregistered in
  let cl := Fake.cluster (inr i) (inr Fake.helper) (inr Fake.unreadyAPI)
              (inr Fake.unreadyService) in
  let p := Reconcile cl (Fake.schedule [] [("public", "http://a")] []) [] in
  ∃ i', passInstance p = Some i' ∧
    passExit p =
      Returned {| Requeue := false; RequeueAfter := Second * 5 |}
        (PatchInstance cl i') ∧
    StatusConditions (Status i') =
      aggregateReady
        (Set_ (StatusConditions (Status i))
           (Some (FalseCondition KeystoneAPIReadyCondition
                    RequestedReason SeverityInfo
                    KeystoneAPIReadyWaitingMessage []))) ∧
    passTrace p = [EvPatchInstance i' (PatchInstance cl i')].
Proof.
  intros i cl p.
  destruct (unready_dependency_requeues cl
              (Fake.schedule [] [("public", "http://a")] []) [] i Fake.helper
              Fake.unreadyAPI) as [Hapi _].
  - reflexivity.
  - reflexivity.
  - reflexivity.
  - reflexivity.
  - vm_compute. apply list_elem_of_here.
  - reflexivity.
  - apply Hapi. reflexivity.
Defined.


Lemma own_finalizer_dropped_last_witness :
  let cl := Fake.cluster (inr (instance Fake.deletingRegistered))
              (inr Fake.helper) (inr Fake.readyAPI) (inr Fake.readyService) in
  let sched := Fake.schedule [] [] ["internal"; "public"] in
  let run := reconcileDelete cl sched Fake.helper (Some Fake.client)
               (Some Fake.readyAPI) Fake.deletingRegistered in
  let i := instance Fake.deletingRegistered in
  ∃ dels writes,
    trace run.2 = trace Fake.deletingRegistered ++ dels ++ writes ∧
    Forall (λ e, isDelete e = true) dels ∧
    Forall (λ e, isRegistrationWrite e = true) writes ∧
    ((run.1 = Return (emptyResult, None) ∧
      Forall (λ e, failed e = false) (dels ++ writes) ∧
      (is_Some (Some Fake.client) →
       evType <$> dels = Some <$> deleteOrder sched) ∧
      instance run.2 =
        withFinalizers (withEndpointIDs i (Some ∅))
          (RemoveFinalizer (Finalizers i) (GetFinalizer Fake.helper)).1) ∨
     (∃ err, run.1 = Return (emptyResult, Some err) ∧
        (instance run.2 = i ∨ instance run.2 = withEndpointIDs i (Some ∅)))).
Proof.
  intros cl sched run i.
  apply (own_finalizer_dropped_last cl sched Fake.helper (Some Fake.client)
           (Some Fake.readyAPI) Fake.deletingRegistered run.1 run.2).
  apply surjective_pairing.
Defined.

Lemma bootstrap_passes_witness :
  let cl := Fake.cluster (inr Fake.created) (inr Fake.helper)
              (inr Fake.readyAPI) (inr Fake.readyService) in
  let p := Reconcile cl (Fake.schedule [] [("public", "http://a")] []) [] in
  ∃ c, passInstance p = Some (withConditions Fake.created c) ∧
       passTrace p =
         [EvPatchInstance (withConditions Fake.created c)
            (PatchInstance cl (withConditions Fake.created c))] ∧
       passExit p =
         Returned emptyResult
           (PatchInstance cl (withConditions Fake.created c)) ∧
       passRemote p = [].
Proof.
  intros cl p.
  destruct (bootstrap_passes cl (Fake.schedule [] [("public", "http://a")] [])
              [] Fake.created Fake.helper) as [Hfirst _].
  - reflexivity.
  - reflexivity.
  - eexists. apply Hfirst. reflexivity.
Defined.

Lemma calls_use_registered_service_witness :
  let cl := Fake.cluster (inr (instance Fake.unregistered)) (inr Fake.helper)
              (inr Fake.readyAPI) (inr Fake.reregisteredService) in
  let run := reconcileNormal cl (Fake.schedule [] [("public", "http://a")] [])
               Fake.helper (Some Fake.client) Fake.readyAPI
               Fake.unregistered in
  (∃ new, trace run.2 = trace Fake.unregistered ++ new ∧
     Forall (servesUnder "placement" "svc-2") new) ∧
  (svcIsReady Fake.reregisteredService = true →
   ServiceID (Status (instance run.2)) = "svc-2").
Proof.
  intros cl run.
  apply (calls_use_registered_service cl
           (Fake.schedule [] [("public", "http://a")] []) Fake.helper
           (Some Fake.client) Fake.readyAPI Fake.unregistered run.1 run.2
           Fake.reregisteredService).
  - reflexivity.
  - apply surjective_pairing.
Defined.

Lemma sync_records_answered_identifier_witness :
  let co := [("internal", "http://b"); ("public", "http://a")] in
  let run := reconcileEndpoints (Some Fake.client) ["admin"] co Fake.retiring in
  ∃ id new,
    trace run.2 = trace Fake.retiring ++ new ∧
    answeredIdentifier (ServiceID (Status (instance Fake.retiring)))
      "public" "http://a" new id ∧
    (id ≠ "" →
     idsOf run.2 !! "public" = Some id ∧
     head (entriesOf "public" run.2) =
       Some {| Interface := "public"; URL := "http://a"; ID := id |}) ∧
    (id = "" →
     idsOf run.2 !! "public" = idsOf Fake.retiring !! "public" ∧
     entriesOf "public" run.2 = entriesOf "public" Fake.retiring).
Proof.
  intros co run.
  apply (sync_records_answered_identifier (Some Fake.client) ["admin"] co
           Fake.retiring run.2 "public" "http://a").
  - unfold rangeOf. by_computation.
  - vm_compute. reflexivity.
  - vm_compute. reflexivity.
Defined.

Lemma at_most_one_mutation_per_type_witness :
  let co := [("internal", "http://b"); ("public", "http://a")] in
  let run := reconcileEndpoints (Some Fake.client) ["admin"] co Fake.retiring in
  ∃ new, trace run.2 = trace Fake.retiring ++ new ∧
         (length (mutationsFor "public" new) ≤ 1)%nat.
Proof.
  intros co run.
  apply (at_most_one_mutation_per_type (Some Fake.client) ["admin"] co
           Fake.retiring run.1 run.2 "public").
  - unfold keyRangeOf. by_computation.
  - unfold rangeOf. by_computation.
  - apply surjective_pairing.
Defined.

End Runs.
